(** * traccc: the combinatorial Kalman filter track-finding kernels

    A shallow embedding of the two device kernels
    [traccc::device::find_tracks]  (finding/device/impl/find_tracks.ipp) and
    [traccc::device::build_tracks] (finding/device/impl/build_tracks.ipp),
    and the properties of the track-finding specification proved on it.

    - [unsigned int] values are integers in [Z]; every addition and
      subtraction that the C++ performs on them is followed by [wrap].
    - [traccc::scalar] is a floating point type; its operations are kept
      abstract in the class [ScalarOps] and no law is assumed about them.
    - The detector, the track parameters, the measurements and the Kalman
      gain-matrix updater are collaborators of the kernels and enter as
      section variables.
    - [find_tracks] is run by every thread of a grid of blocks.  Each thread
      is a small machine with a program counter; one transition performs at
      most one access to memory that another thread may write.  Barriers
      release the threads of one block together.
    - [assert] is a fault unless the build defines [NDEBUG]; a bounds-checked
      or plain access outside a vector is a fault in both builds. *)

From stdpp Require Import base numbers list.
From Stdlib Require Import ZArith Lia QArith.

#[local] Open Scope Z_scope.

(** ** Unsigned 32-bit arithmetic *)

Definition UINT_MAX : Z := 4294967295.

Definition wrap (x : Z) : Z := x mod 4294967296.

Definition is_uint (x : Z) : Prop := 0 <= x <= UINT_MAX.

(** ** Faults and the result of a fallible computation *)

Inductive fault : Type :=
  | OutOfRange          (* access outside a vector *)
  | AssertLiveness      (* assert(in_params_liveness.at(owner) != 0u) *)
  | AssertChi2          (* assert(chi2 >= 0.f), assert(chi2 < max) *)
  | AssertStep          (* assert(payload.step > 0) *)
  | AssertMeasIdx       (* assert(L.meas_idx < n_meas) *)
  | AssertInserted      (* assert(num_inserted == cands_per_track.size()) *)
  | Diverges.           (* a loop that does not terminate *)

Inductive result (A : Type) : Type :=
  | Ok (a : A)
  | Fault (f : fault).

Arguments Ok {A} a.
Arguments Fault {A} f.

#[global] Instance result_ret : MRet result := fun _ a => Ok a.

#[global] Instance result_bind : MBind result := fun _ _ k r =>
  match r with
  | Ok a => k a
  | Fault f => Fault f
  end.

(** [v.at(i)] and [v[i]]: the element, or a fault outside the vector. *)
Definition vat {A : Type} (v : list A) (i : Z) : result A :=
  if 0 <=? i then
    match v !! Z.to_nat i with
    | Some a => Ok a
    | None => Fault OutOfRange
    end
  else Fault OutOfRange.

(** [v.at(i) = a] and [v[i] = a]. *)
Definition vset {A : Type} (v : list A) (i : Z) (a : A) : result (list A) :=
  if (0 <=? i) && (i <? Z.of_nat (length v)) then Ok (<[Z.to_nat i := a]> v)
  else Fault OutOfRange.

(** [assert(c)]: checked unless the build defines NDEBUG. *)
Definition assert (ndebug : bool) (c : bool) (f : fault) : result unit :=
  if ndebug then Ok tt else if c then Ok tt else Fault f.

(** [vsize v] is [v.size()]. *)
Definition vsize {A : Type} (v : list A) : Z := Z.of_nat (length v).

(** ** thrust::lower_bound(thrust::seq, first, last, value)

    The sequential binary search: the first position of [first, first+len)
    whose element is not less than [value].  [fuel] bounds the number of
    halvings; [len] itself is enough. *)
Fixpoint lower_bound_from (fuel : nat) (v : list Z) (first len : Z) (value : Z) : Z :=
  match fuel with
  | O => first
  | S fuel' =>
      if 0 <? len then
        let half := len / 2 in
        let mid := first + half in
        match v !! Z.to_nat mid with
        | Some x =>
            if x <? value
            then lower_bound_from fuel' v (mid + 1) (len - half - 1) value
            else lower_bound_from fuel' v first half value
        | None => first
        end
      else first
  end.

Definition lower_bound (v : list Z) (value : Z) : Z :=
  lower_bound_from (S (length v)) v 0 (vsize v) value.

(** ** traccc::scalar

    The floating point type of the build and the operations the two kernels
    apply to it.  [prob] is [traccc::prob] of traccc/utils/prob.hpp, the
    chi-square survival function; [s_max] is
    [std::numeric_limits<traccc::scalar>::max()]. *)
Class ScalarOps (scalar : Type) : Type := {
  s_zero : scalar;
  s_five : scalar;
  s_max : scalar;
  s_add : scalar -> scalar -> scalar;
  s_sub : scalar -> scalar -> scalar;
  s_ltb : scalar -> scalar -> bool;
  s_leb : scalar -> scalar -> bool;
  s_of_uint : Z -> scalar;
  prob : scalar -> scalar -> scalar
}.

(** kalman_fitter_status of traccc/fitting/status_codes.hpp: success, or one
    of the error codes. *)
Inductive kalman_fitter_status : Type :=
  | SUCCESS
  | ERROR (code : nat).

Definition is_success (s : kalman_fitter_status) : bool :=
  match s with SUCCESS => true | ERROR _ => false end.

Section Finding.

Context {scalar : Type} `{ScalarOps scalar}.

(** bound_track_parameters<> and the surface it is bound to. *)
Context {bound_track_parameters : Type}.
Variable surface_link : bound_track_parameters -> Z.

(** measurement and its dimensionality. *)
Context {measurement : Type}.
Variable meas_dim : measurement -> Z.

(** ** Data model *)

(** candidate_link: one record of the link table. *)
Record candidate_link : Type := mk_link {
  step : Z;
  previous_candidate_idx : Z;
  meas_idx : Z;
  seed_idx : Z;
  n_skipped : Z;
  chi2 : scalar
}.

(** The options of finding_config that the kernels read. *)
Record finding_config : Type := mk_config {
  max_num_branches_per_seed : Z;
  max_num_skipping_per_cand : Z;
  min_track_candidates_per_track : Z;
  max_track_candidates_per_track : Z;
  chi2_max : scalar
}.

(** The track state after the gain-matrix update: the status the updater
    returns, and [trk_state.filtered()] and [trk_state.filtered_chi2()]. *)
Record track_state : Type := mk_track_state {
  ts_status : kalman_fitter_status;
  filtered : bound_track_parameters;
  filtered_chi2 : scalar
}.

(** [sf.visit_mask<gain_matrix_updater>(trk_state, in_par)] for the state
    built from a measurement, on the surface of [in_par]. *)
Variable gain_matrix_updater : bound_track_parameters -> measurement -> track_state.

(** The read-only part of find_tracks_payload. *)
Record find_tracks_payload : Type := mk_payload {
  p_step : Z;
  n_in_params : Z;
  prev_links_idx : Z;
  curr_links_idx : Z;
  measurements_view : list measurement;
  in_params_view : list bound_track_parameters;
  in_params_liveness_view : list Z;
  barcodes_view : list Z;
  upper_bounds_view : list Z
}.

(** The vectors of the payload that the kernel writes; they are shared by
    all blocks. *)
Record global_mem : Type := mk_global {
  links : list candidate_link;
  out_params : list bound_track_parameters;
  out_params_liveness : list Z;
  tips : list Z;
  n_tracks_per_seed : list Z
}.

(** find_tracks_shared_payload: the memory of one block. *)
Record shared_mem : Type := mk_shared {
  shared_candidates_size : Z;
  shared_num_candidates : list Z;
  shared_candidates : list (Z * Z)
}.

(** One launch of the kernel. *)
Record launch : Type := mk_launch {
  cfg : finding_config;
  payload : find_tracks_payload;
  blockDim : Z;
  ndebug : bool
}.

Definition last_step (L : launch) : bool :=
  p_step (payload L) =? wrap (max_track_candidates_per_track (cfg L) - 1).

(** The hole sentinel, [std::numeric_limits<unsigned int>::max()]. *)
Definition hole_idx : Z := UINT_MAX.

(** [fetch_add(1u)] on element [i] of a vector of counters: the value before
    the increment, and the vector after it. *)
Definition fetch_add (v : list Z) (i : Z) : result (Z * list Z) :=
  old ← vat v i;
  v' ← vset v i (wrap (old + 1));
  mret (old, v').

(** ** The thread machine *)

(** The values a thread holds between the Kalman update and the append. *)
Record pick : Type := mk_pick {
  owner_local_thread_id : Z;
  owner_global_thread_id : Z;
  pk_prev_link_idx : Z;
  pk_seed_idx : Z;
  pk_meas_idx : Z;
  pk_state : track_state
}.

Inductive pc : Type :=
  | PInit                       (* lines 47-51 *)
  | PBarrier0                   (* line 53 *)
  | PRange                      (* lines 78-141 *)
  | PLoopTest                   (* line 147, the predicate *)
  | PBlockOr (vote : bool)      (* line 147, blockOr *)
  | PFillTest                   (* line 158 *)
  | PFillCheck                  (* lines 161-171 *)
  | PFillPush                   (* lines 172-184 and curr_meas++ *)
  | PBarrier1                   (* line 187 *)
  | PPick                       (* lines 193-238 *)
  | PSaturated (owner : Z)      (* line 241 *)
  | PCount (k : pick)           (* line 246 *)
  | PReserve (k : pick)         (* lines 248-249 *)
  | PAppend (k : pick)          (* lines 252-281 *)
  | PBarrier2                   (* line 284 *)
  | PCompact                    (* lines 291-303 *)
  | PHoleTest                   (* lines 310-313 *)
  | PHoleReserve                (* lines 315-321 *)
  | PHoleEmit (prev seed : Z)   (* lines 323-352 *)
  | PDone.

Record thread : Type := mk_thread {
  t_pc : pc;
  init_meas : Z;
  num_meas : Z;
  curr_meas : Z
}.

Definition goto (t : thread) (p : pc) : thread :=
  mk_thread p (init_meas t) (num_meas t) (curr_meas t).

(** [thread_id.getGlobalThreadIdX()] of the thread [lid] of block [bid]. *)
Definition global_thread_id (L : launch) (bid lid : Z) : Z :=
  wrap (lid + wrap (blockDim L * bid)).

(** Step 1 of the kernel (lines 91-126): the first measurement index and the
    number of measurements of the parameter [in_param_id]. *)
Definition measurement_range (P : find_tracks_payload) (in_param_id : Z)
  : result (Z * Z) :=
  live ← (if in_param_id <? n_in_params P
          then lv ← vat (in_params_liveness_view P) in_param_id; mret (0 <? lv)
          else mret false);
  if (live : bool) then
    par ← vat (in_params_view P) in_param_id;
    let bcd := surface_link par in
    let lo := lower_bound (barcodes_view P) bcd in
    if lo =? vsize (barcodes_view P) then mret (0, 0)
    else
      init ← (if lo =? 0 then mret 0 else vat (upper_bounds_view P) (lo - 1));
      ub ← vat (upper_bounds_view P) lo;
      mret (init, wrap (ub - init))
  else mret (0, 0).

(** The seed of the parameter [id] whose previous link is [prev]: the
    parameter itself at step 0, the seed of its link afterwards. *)
Definition seed_of (P : find_tracks_payload) (g : global_mem) (prev id : Z)
  : result Z :=
  if p_step P =? 0 then mret id
  else l ← vat (links g) prev; mret (seed_idx l).

(** [n_skipped] of the previous link, 0 at step 0 (lines 259-260, 324-325). *)
Definition skipped_of (P : find_tracks_payload) (g : global_mem) (prev : Z)
  : result Z :=
  if p_step P =? 0 then mret 0
  else l ← vat (links g) prev; mret (n_skipped l).

Definition set_links (g : global_mem) (ls : list candidate_link) : global_mem :=
  mk_global ls (out_params g) (out_params_liveness g) (tips g) (n_tracks_per_seed g).

Definition set_tips (g : global_mem) (ts : list Z) : global_mem :=
  mk_global (links g) (out_params g) (out_params_liveness g) ts (n_tracks_per_seed g).

Definition set_counters (g : global_mem) (cs : list Z) : global_mem :=
  mk_global (links g) (out_params g) (out_params_liveness g) (tips g) cs.

Definition set_out (g : global_mem) (ps : list bound_track_parameters) (lv : list Z)
  : global_mem :=
  mk_global (links g) ps lv (tips g) (n_tracks_per_seed g).

Definition set_num_candidates (sh : shared_mem) (nc : list Z) : shared_mem :=
  mk_shared (shared_candidates_size sh) nc (shared_candidates sh).

(** [links.bulk_append_implicit(1)] followed by the write of the record and
    of the output parameter of its slot (lines 254-271, 338-350). *)
Definition append_link (P : find_tracks_payload) (g : global_mem)
    (l : candidate_link) (par : bound_track_parameters) (live : Z)
  : result (Z * global_mem) :=
  let l_pos := vsize (links g) in
  let slot := wrap (l_pos - curr_links_idx P) in
  ps ← vset (out_params g) slot par;
  lv ← vset (out_params_liveness g) slot live;
  mret (l_pos, set_out (set_links g (links g ++ [l])) ps lv).

(** One transition of a thread that is not waiting at a barrier. *)
Definition thread_step (L : launch) (bid lid : Z)
    (g : global_mem) (sh : shared_mem) (t : thread)
  : result (global_mem * shared_mem * thread) :=
  let P := payload L in
  let C := cfg L in
  let in_param_id := global_thread_id L bid lid in
  match t_pc t with
  | PInit =>
      let size := if lid =? 0 then 0 else shared_candidates_size sh in
      nc ← vset (shared_num_candidates sh) lid 0;
      mret (g, mk_shared size nc (shared_candidates sh), goto t PBarrier0)
  | PRange =>
      '(im, nm) ← measurement_range P in_param_id;
      mret (g, sh, mk_thread PLoopTest im nm 0)
  | PLoopTest =>
      let v := (curr_meas t <? num_meas t) || (0 <? shared_candidates_size sh) in
      mret (g, sh, goto t (PBlockOr v))
  | PFillTest =>
      if (curr_meas t <? num_meas t) && (shared_candidates_size sh <? blockDim L)
      then mret (g, sh, goto t PFillCheck)
      else mret (g, sh, goto t PBarrier1)
  | PFillCheck =>
      let prev_link_idx := wrap (prev_links_idx P + in_param_id) in
      seed ← (if 0 <? p_step P
              then l ← vat (links g) prev_link_idx; mret (seed_idx l)
              else mret in_param_id);
      n ← vat (n_tracks_per_seed g) seed;
      if max_num_branches_per_seed C <=? n
      then mret (g, sh, mk_thread PBarrier1 (init_meas t) (num_meas t) (num_meas t))
      else mret (g, sh, goto t PFillPush)
  | PFillPush =>
      let idx := shared_candidates_size sh in
      cands ← vset (shared_candidates sh) idx (wrap (init_meas t + curr_meas t), lid);
      mret (g, mk_shared (wrap (idx + 1)) (shared_num_candidates sh) cands,
            mk_thread PFillTest (init_meas t) (num_meas t) (wrap (curr_meas t + 1)))
  | PPick =>
      if lid <? shared_candidates_size sh then
        entry ← vat (shared_candidates sh) lid;
        let owner_local := entry.2 in
        let owner_global := wrap (owner_local + wrap (blockDim L * bid)) in
        _ ← (if ndebug L then mret tt
             else lv ← vat (in_params_liveness_view P) owner_global;
                  assert false (negb (lv =? 0)) AssertLiveness);
        let prev_link_idx := wrap (prev_links_idx P + owner_global) in
        seed ← seed_of P g prev_link_idx owner_global;
        in_par ← vat (in_params_view P) owner_global;
        let meas_idx := entry.1 in
        meas ← vat (measurements_view P) meas_idx;
        n ← vat (n_tracks_per_seed g) seed;
        if n <? max_num_branches_per_seed C then
          let ts := gain_matrix_updater in_par meas in
          if is_success (ts_status ts) && s_ltb (filtered_chi2 ts) (chi2_max C)
          then mret (g, sh, goto t (PCount (mk_pick owner_local owner_global
                                              prev_link_idx seed meas_idx ts)))
          else mret (g, sh, goto t PBarrier2)
        else mret (g, sh, goto t (PSaturated owner_local))
      else mret (g, sh, goto t PBarrier2)
  | PSaturated owner =>
      '(_, nc) ← fetch_add (shared_num_candidates sh) owner;
      mret (g, set_num_candidates sh nc, goto t PBarrier2)
  | PCount k =>
      '(_, nc) ← fetch_add (shared_num_candidates sh) (owner_local_thread_id k);
      mret (g, set_num_candidates sh nc, goto t (PReserve k))
  | PReserve k =>
      '(s_pos, cs) ← fetch_add (n_tracks_per_seed g) (pk_seed_idx k);
      if s_pos <? max_num_branches_per_seed C
      then mret (set_counters g cs, sh, goto t (PAppend k))
      else mret (set_counters g cs, sh, goto t PBarrier2)
  | PAppend k =>
      let c := filtered_chi2 (pk_state k) in
      _ ← assert (ndebug L) (s_leb s_zero c) AssertChi2;
      skipped ← skipped_of P g (pk_prev_link_idx k);
      '(l_pos, g1) ← append_link P g
          (mk_link (p_step P) (pk_prev_link_idx k) (pk_meas_idx k)
                   (pk_seed_idx k) skipped c)
          (filtered (pk_state k))
          (if last_step L then 0 else 1);
      let n_cands := wrap (wrap (p_step P + 1) - skipped) in
      if last_step L && (min_track_candidates_per_track C <=? n_cands)
      then mret (set_tips g1 (tips g1 ++ [l_pos]), sh, goto t PBarrier2)
      else mret (g1, sh, goto t PBarrier2)
  | PCompact =>
      spill ← vat (shared_candidates sh) (wrap (lid + blockDim L));
      cands ← vset (shared_candidates sh) lid spill;
      let size :=
        if lid =? 0 then
          if blockDim L <=? shared_candidates_size sh
          then wrap (shared_candidates_size sh - blockDim L)
          else 0
        else shared_candidates_size sh in
      mret (g, mk_shared size (shared_num_candidates sh) cands, goto t PLoopTest)
  | PHoleTest =>
      live ← (if in_param_id <? n_in_params P
              then lv ← vat (in_params_liveness_view P) in_param_id;
                   mret (negb (lv =? 0))
              else mret false);
      if (live : bool) then
        nc ← vat (shared_num_candidates sh) lid;
        if nc =? 0 then mret (g, sh, goto t PHoleReserve)
        else mret (g, sh, goto t PDone)
      else mret (g, sh, goto t PDone)
  | PHoleReserve =>
      let prev_link_idx := wrap (prev_links_idx P + in_param_id) in
      seed ← seed_of P g prev_link_idx in_param_id;
      '(s_pos, cs) ← fetch_add (n_tracks_per_seed g) seed;
      if s_pos <? max_num_branches_per_seed C
      then mret (set_counters g cs, sh, goto t (PHoleEmit prev_link_idx seed))
      else mret (set_counters g cs, sh, goto t PDone)
  | PHoleEmit prev_link_idx seed =>
      skipped ← skipped_of P g prev_link_idx;
      if (max_num_skipping_per_cand C <=? skipped) || last_step L then
        let n_cands := wrap (p_step P - skipped) in
        if min_track_candidates_per_track C <=? n_cands then
          _ ← assert (ndebug L) (0 <? p_step P) AssertStep;
          mret (set_tips g (tips g ++ [prev_link_idx]), sh, goto t PDone)
        else mret (g, sh, goto t PDone)
      else
        par ← vat (in_params_view P) in_param_id;
        '(_, g1) ← append_link P g
            (mk_link (p_step P) prev_link_idx hole_idx seed (wrap (skipped + 1)) s_max)
            par 1;
        mret (g1, sh, goto t PDone)
  | PBarrier0 | PBlockOr _ | PBarrier1 | PBarrier2 | PDone => mret (g, sh, t)
  end.

(** ** The grid

    The threads of all blocks in one list: thread [i] is thread
    [i mod blockDim] of block [i / blockDim].  [blocks] holds the shared
    memory of each block. *)
Record grid : Type := mk_grid {
  glob : global_mem;
  blocks : list shared_mem;
  threads : list thread
}.

Definition block_of (L : launch) (i : nat) : Z := Z.of_nat i / blockDim L.
Definition local_of (L : launch) (i : nat) : Z := Z.of_nat i mod blockDim L.

Inductive barrier : Type := B0 | BOr | B1 | B2.

#[global] Instance barrier_eq_dec : EqDecision barrier.
Proof. solve_decision. Defined.

(** The barrier a thread waits at, if it does. *)
Definition waiting (p : pc) : option barrier :=
  match p with
  | PBarrier0 => Some B0
  | PBlockOr _ => Some BOr
  | PBarrier1 => Some B1
  | PBarrier2 => Some B2
  | _ => None
  end.

(** The predicate a thread brought to blockOr. *)
Definition vote_of (p : pc) : bool :=
  match p with PBlockOr v => v | _ => false end.

(** Where a thread continues after a barrier; [any] is the result of
    blockOr. *)
Definition after (b : barrier) (any : bool) : pc :=
  match b with
  | B0 => PRange
  | BOr => if any then PFillTest else PHoleTest
  | B1 => PPick
  | B2 => PCompact
  end.

Definition in_block (L : launch) (b : Z) (j : nat) : bool := block_of L j =? b.

(** All threads of block [b] have arrived at barrier [bar]. *)
Definition all_arrived (L : launch) (b : Z) (bar : barrier) (ts : list thread) : bool :=
  forallb (fun jt => negb (in_block L b jt.1)
                     || bool_decide (waiting (t_pc jt.2) = Some bar))
          (imap (fun j t => (j, t)) ts).

Definition any_vote (L : launch) (b : Z) (ts : list thread) : bool :=
  existsb (fun jt => in_block L b jt.1 && vote_of (t_pc jt.2))
          (imap (fun j t => (j, t)) ts).

(** The barrier opens: every thread of block [b] continues. *)
Definition release (L : launch) (b : Z) (bar : barrier) (ts : list thread)
  : list thread :=
  let any := any_vote L b ts in
  imap (fun j t => if in_block L b j && bool_decide (waiting (t_pc t) = Some bar)
                  then goto t (after bar any) else t) ts.

(** Thread [i] is scheduled.  A thread at a barrier that is not complete, a
    finished thread and a thread that does not exist leave the grid as it
    is. *)
Definition grid_step (L : launch) (i : nat) (s : grid) : result grid :=
  match threads s !! i with
  | None => mret s
  | Some t =>
      let b := block_of L i in
      match waiting (t_pc t) with
      | Some bar =>
          if all_arrived L b bar (threads s)
          then mret (mk_grid (glob s) (blocks s) (release L b bar (threads s)))
          else mret s
      | None =>
          sh ← vat (blocks s) b;
          '(g', sh', t') ← thread_step L b (local_of L i) (glob s) sh t;
          mret (mk_grid g' (<[Z.to_nat b := sh']> (blocks s)) (<[i := t']> (threads s)))
      end
  end.

(** A schedule is the list of the threads scheduled, in order. *)
Fixpoint run (L : launch) (sched : list nat) (s : grid) : result grid :=
  match sched with
  | [] => mret s
  | i :: sched' => s' ← grid_step L i s; run L sched' s'
  end.

(** A thread at the first line of the kernel. *)
Definition fresh_thread : thread := mk_thread PInit 0 0 0.

(** The shared memory of a block is not initialised when the kernel starts:
    [junk] is what it holds then, and lines 47-51 are what sets it.  Only the
    shapes are fixed: [shared_candidates_size] is some unsigned value,
    [shared_num_candidates] has [blockDim] places and [shared_candidates],
    the buffer of the block, twice as many. *)
Definition fresh_shared (L : launch) (junk : shared_mem) : shared_mem :=
  mk_shared (wrap (shared_candidates_size junk))
            (resize (Z.to_nat (blockDim L)) 0 (shared_num_candidates junk))
            (resize (2 * Z.to_nat (blockDim L)) (0, 0) (shared_candidates junk)).

(** The grid at the start of a launch: one block for each element of
    [junk], of [blockDim] threads each, all at the first line of the
    kernel. *)
Definition start (L : launch) (junk : list shared_mem) (g : global_mem) : grid :=
  mk_grid g
          (fresh_shared L <$> junk)
          (replicate (length junk * Z.to_nat (blockDim L)) fresh_thread).

(** The round-robin schedule: [rounds] times every thread in turn. *)
Definition round_robin (nthreads rounds : nat) : list nat :=
  mjoin (replicate rounds (seq 0 nthreads)).

Definition finished (s : grid) : bool :=
  forallb (fun t => match t_pc t with PDone => true | _ => false end) (threads s).

(** ** The search *)

(** Modelled from the spec: the driver that launches find_tracks once for
    every step is not under src/.  This is what the driver provides for one
    step: the payload, the dimensions of the grid, the build, what the
    shared memory of the blocks holds when the kernel starts, fresh output
    vectors, and the order in which the threads run. *)
Record stage : Type := mk_stage {
  st_payload : find_tracks_payload;
  st_blockDim : Z;
  st_ndebug : bool;
  st_junk : list shared_mem;
  st_out_params : list bound_track_parameters;
  st_out_liveness : list Z;
  st_sched : list nat
}.

Definition stage_launch (C : finding_config) (st : stage) : launch :=
  mk_launch C (st_payload st) (st_blockDim st) (st_ndebug st).

(** The grid a stage starts in, given the global memory [g] that the stage
    before has left. *)
Definition stage_start (C : finding_config) (st : stage) (g : global_mem) : grid :=
  start (stage_launch C st) (st_junk st)
        (set_out g (st_out_params st) (st_out_liveness st)).

(** Modelled from the spec: the driver that launches find_tracks once for
    every step is not under src/.  The data model of the spec says of the
    Seed Branch Counter that it is "reset to zero only at the very start of
    the search (not per step)", and of the Link Table, the Tip Collector and
    the counters that they are the resources shared by all steps and only
    grow.  So between two launches the driver leaves the links, the tips and
    the counters as the launch before left them; the configuration is that
    of the search.  The schedule of a stage may stop anywhere, so that the
    result is the global memory at any point of the search. *)
Fixpoint search (C : finding_config) (stages : list stage) (g : global_mem)
  : result global_mem :=
  match stages with
  | [] => mret g
  | st :: rest =>
      s ← run (stage_launch C st) (st_sched st) (stage_start C st g);
      search C rest (glob s)
  end.

(** The number of transitions of a search. *)
Definition search_length (stages : list stage) : nat :=
  foldr (fun st n => (length (st_sched st) + n)%nat) 0%nat stages.

(** Modelled from the spec: the global memory at the very start of a
    search for [n_seeds] seeds, which the absent driver sets up: no link,
    no tip, and every Seed Branch Counter "reset to zero". *)
Definition search_start (n_seeds : nat) : global_mem :=
  mk_global [] [] [] [] (replicate n_seeds 0).

(** ** build_tracks *)

(** The summary of a track candidate (header.trk_quality). *)
Record track_quality : Type := mk_quality {
  ndf : scalar;
  tq_chi2 : scalar;
  pval : scalar;
  n_holes : Z
}.

(** One element of the track candidate container: the header and the
    candidates, oldest first.  A candidate is the measurement itself. *)
Record track_candidate : Type := mk_track {
  seed_params : bound_track_parameters;
  trk_quality : track_quality;
  items : list measurement
}.

Record build_tracks_payload : Type := mk_build_payload {
  bt_measurements : list measurement;
  bt_seeds : list bound_track_parameters;
  bt_links : list candidate_link;
  bt_tips : list Z
}.

(** The variables of the loop of lines 56-87.  [visited] lists the indices
    given to [links.at], the last one first; it is not a variable of the
    kernel. *)
Record walk : Type := mk_walk {
  w_link : candidate_link;
  ndf_sum : scalar;
  chi2_sum : scalar;
  num_inserted : Z;
  w_seed : bound_track_parameters;
  w_quality : track_quality;
  w_items : list measurement;
  visited : list Z
}.

(** The loop of lines 59-62.  A link is a record of the table, so the loop
    either stops within [length links] rounds or reads some index twice and
    never stops: [fuel] is the length of the table. *)
Fixpoint skip_holes (fuel : nat) (ls : list candidate_link) (n_meas : Z)
    (l : candidate_link) (vis : list Z) : result (candidate_link * list Z) :=
  if (n_meas <=? meas_idx l) && negb (step l =? 0) then
    match fuel with
    | O => Fault Diverges
    | S fuel' =>
        l' ← vat ls (previous_candidate_idx l);
        skip_holes fuel' ls n_meas l' (previous_candidate_idx l :: vis)
    end
  else mret (l, vis).

(** The loop of lines 56-87 with [k] candidates left to fill; the iterator
    is at the first candidate when [k] is 1. *)
Fixpoint fill_candidates (nd : bool) (P : build_tracks_payload) (k : nat)
    (w : walk) : result walk :=
  match k with
  | O => mret w
  | S k' =>
      let n_meas := vsize (bt_measurements P) in
      '(l, vis) ← skip_holes (length (bt_links P)) (bt_links P) n_meas
                    (w_link w) (visited w);
      _ ← assert nd (meas_idx l <? n_meas) AssertMeasIdx;
      m ← vat (bt_measurements P) (meas_idx l);
      _ ← assert nd (s_ltb (chi2 l) s_max) AssertChi2;
      _ ← assert nd (s_leb s_zero (chi2 l)) AssertChi2;
      let ndf_sum' := s_add (ndf_sum w) (s_of_uint (meas_dim m)) in
      let chi2_sum' := s_add (chi2_sum w) (chi2 l) in
      match k' with
      | O =>
          seed ← vat (bt_seeds P) (seed_idx l);
          let ndf' := s_sub ndf_sum' s_five in
          let q := mk_quality ndf' chi2_sum' (prob chi2_sum' ndf') (n_skipped l) in
          fill_candidates nd P k'
            (mk_walk l ndf_sum' chi2_sum' (num_inserted w + 1) seed q
                     (m :: w_items w) vis)
      | S _ =>
          l' ← vat (bt_links P) (previous_candidate_idx l);
          fill_candidates nd P k'
            (mk_walk l' ndf_sum' chi2_sum' (num_inserted w + 1) (w_seed w)
                     (w_quality w) (m :: w_items w)
                     (previous_candidate_idx l :: vis))
      end
  end.

(** build_tracks for the thread [globalIndex]; [tc] is the element
    [track_candidates[globalIndex]] before the kernel.  The result is that
    element after the kernel, and the indices of the link table that were
    read. *)
Definition build_tracks (nd : bool) (globalIndex : Z) (P : build_tracks_payload)
    (tc : track_candidate) : result (track_candidate * list Z) :=
  if vsize (bt_tips P) <=? globalIndex then mret (tc, [])
  else
    tip ← vat (bt_tips P) globalIndex;
    l ← vat (bt_links P) tip;
    let n_cands := wrap (wrap (step l + 1) - n_skipped l) in
    w ← fill_candidates nd P (Z.to_nat n_cands)
          (mk_walk l s_zero s_zero 0 (seed_params tc) (trk_quality tc) [] [tip]);
    _ ← assert nd (num_inserted w =? n_cands) AssertInserted;
    mret (mk_track (w_seed w) (w_quality w) (w_items w), visited w).

End Finding.

(** * Predicates of the specification *)

Section Predicates.

Context {scalar : Type} `{ScalarOps scalar}.
Context {bound_track_parameters measurement : Type}.

(** ** The branch budget *)

(** The number of links of a table that carry the seed [seed]. *)
Definition count_seed (seed : Z) (ls : list (candidate_link (scalar := scalar))) : Z :=
  Z.of_nat (length (filter (fun l => seed_idx l = seed) ls)).

(** The same, without the holes. *)
Definition count_seed_meas (seed : Z) (ls : list (candidate_link (scalar := scalar))) : Z :=
  Z.of_nat (length (filter (fun l => seed_idx l = seed /\ meas_idx l <> hole_idx) ls)).

(** A thread holds a branch of [seed] between its successful increment of
    the counter and the append (or the tip) that uses it. *)
Definition holds (seed : Z) (t : thread (bound_track_parameters := bound_track_parameters)
                                       (scalar := scalar)) : Z :=
  match t_pc t with
  | PAppend k => if bool_decide (pk_seed_idx k = seed) then 1 else 0
  | PHoleEmit _ s => if bool_decide (s = seed) then 1 else 0
  | _ => 0
  end.

Definition pending (seed : Z) (ts : list (thread (bound_track_parameters := bound_track_parameters)
                                                  (scalar := scalar))) : Z :=
  foldr (fun t acc => holds seed t + acc) 0 ts.

(** What is left of the budget of a seed whose counter is [n]. *)
Definition room (cap n : Z) : Z := Z.max 0 (cap - n).

(** The links and the held branches of every seed, with the room left, stay
    within [K]. *)
Definition budget_le (cap : Z) (K : Z -> Z)
    (s : grid (bound_track_parameters := bound_track_parameters) (scalar := scalar)) : Prop :=
  forall seed n, vat (n_tracks_per_seed (glob s)) seed = Ok n ->
    count_seed seed (links (glob s)) + pending seed (threads s) + room cap n <= K seed.

(** The links and the held branches of every seed are covered by its
    counter, and by the cap. *)
Definition budget_inv (cap : Z)
    (s : grid (bound_track_parameters := bound_track_parameters) (scalar := scalar)) : Prop :=
  forall seed n, vat (n_tracks_per_seed (glob s)) seed = Ok n ->
    count_seed seed (links (glob s)) + pending seed (threads s) <= Z.min n cap.

(** Every counter is an unsigned value that does not overflow within [k]
    more increments. *)
Definition counters_below (k : Z) (cs : list Z) : Prop :=
  Forall (fun n => 0 <= n /\ n + k <= UINT_MAX) cs.

(** ** The dequeued pair *)

(** Thread [lid] of block [bid] finds the pair [(m, o)] in its position of
    the shared buffer: measurement [m] for the parameter of thread [o] of the
    block.  [in_par] and [meas] are that parameter and that measurement,
    [seed] is the seed of the parameter and [n] the value of its counter. *)
Definition dequeues
    (L : launch (bound_track_parameters := bound_track_parameters)
                (measurement := measurement) (scalar := scalar))
    (bid lid : Z)
    (g : global_mem (bound_track_parameters := bound_track_parameters) (scalar := scalar))
    (sh : shared_mem) (m o : Z)
    (in_par : bound_track_parameters) (meas : measurement) (seed n : Z) : Prop :=
  let P := payload L in
  let owner_global := wrap (o + wrap (blockDim L * bid)) in
  lid < shared_candidates_size sh /\
  vat (shared_candidates sh) lid = Ok (m, o) /\
  (ndebug L = false ->
     exists lv, vat (in_params_liveness_view P) owner_global = Ok lv /\ lv <> 0) /\
  seed_of P g (wrap (prev_links_idx P + owner_global)) owner_global = Ok seed /\
  vat (in_params_view P) owner_global = Ok in_par /\
  vat (measurements_view P) m = Ok meas /\
  vat (n_tracks_per_seed g) seed = Ok n.

(** The test of lines 237-238. *)
Definition accepted (C : finding_config (scalar := scalar))
    (ts : track_state (bound_track_parameters := bound_track_parameters)
                      (scalar := scalar)) : bool :=
  is_success (ts_status ts) && s_ltb (filtered_chi2 ts) (chi2_max C).

(** The values a thread keeps of the pair [(m, o)] it accepted. *)
Definition pick_of
    (L : launch (bound_track_parameters := bound_track_parameters)
                (measurement := measurement) (scalar := scalar))
    (bid m o seed : Z)
    (ts : track_state (bound_track_parameters := bound_track_parameters)
                      (scalar := scalar))
  : pick :=
  let owner_global := wrap (o + wrap (blockDim L * bid)) in
  mk_pick o owner_global (wrap (prev_links_idx (payload L) + owner_global)) seed m ts.

(** ** A thread that has given up its measurements *)

(** The thread is past the enqueue loop with nothing left to enqueue. *)
Definition retired (t : thread (bound_track_parameters := bound_track_parameters)
                              (scalar := scalar)) : Prop :=
  curr_meas t = num_meas t /\
  match t_pc t with
  | PInit | PBarrier0 | PRange | PFillCheck | PFillPush => False
  | _ => True
  end.

(** ** The link table as a forest *)

Definition is_hole (l : candidate_link (scalar := scalar)) : bool :=
  meas_idx l =? hole_idx.

Definition hole_count (l : candidate_link (scalar := scalar)) : Z :=
  if is_hole l then 1 else 0.

(** The record at index [i] of the table [ls] is one that the search writes:
    - its step is an unsigned value below the maximum;
    - it is a hole, or its measurement is one of the [n_meas] measurements
      and its chi-square passes the checks of build_tracks (which a build
      with NDEBUG does not make);
    - its seed is one of the [n_seeds] seeds;
    - at step 0 it has skipped what it is; later its parent is an earlier
      record of the table, one step before, of the same seed, and it has
      skipped what the parent has, and what it is. *)
Definition link_ok (nd : bool) (n_meas n_seeds : Z)
    (ls : list (candidate_link (scalar := scalar)))
    (i : nat) (l : candidate_link (scalar := scalar)) : bool :=
  (0 <=? step l) && (step l <? UINT_MAX) &&
  (is_hole l ||
     (0 <=? meas_idx l) && (meas_idx l <? n_meas) &&
     (nd || s_ltb (chi2 l) s_max && s_leb s_zero (chi2 l))) &&
  (0 <=? seed_idx l) && (seed_idx l <? n_seeds) &&
  (if step l =? 0 then n_skipped l =? hole_count l
   else
     (0 <=? previous_candidate_idx l) &&
     (Z.to_nat (previous_candidate_idx l) <? i)%nat &&
     match ls !! Z.to_nat (previous_candidate_idx l) with
     | Some p =>
         (step p =? step l - 1) &&
         (n_skipped l =? n_skipped p + hole_count l) &&
         (seed_idx p =? seed_idx l)
     | None => false
     end).

Definition wf_links (nd : bool) (n_meas n_seeds : Z)
    (ls : list (candidate_link (scalar := scalar))) : bool :=
  (n_meas <=? UINT_MAX) &&
  forallb (fun il => link_ok nd n_meas n_seeds ls il.1 il.2)
          (imap (fun i l => (i, l)) ls).

(** The record at index [i] and its ancestors, down to the record of step
    0, with their indices. *)
Fixpoint ancestors (fuel : nat) (ls : list (candidate_link (scalar := scalar)))
    (i : Z) : list (Z * candidate_link (scalar := scalar)) :=
  match fuel with
  | O => []
  | S fuel' =>
      match vat ls i with
      | Ok l =>
          (i, l) :: (if step l =? 0 then []
                     else ancestors fuel' ls (previous_candidate_idx l))
      | Fault _ => []
      end
  end.

Definition chain (ls : list (candidate_link (scalar := scalar))) (tip : Z)
  : list (Z * candidate_link (scalar := scalar)) :=
  ancestors (length ls) ls tip.

(** The links of a chain that carry a measurement, the tip side first. *)
Definition with_measurement (ch : list (Z * candidate_link (scalar := scalar)))
  : list (Z * candidate_link (scalar := scalar)) :=
  List.filter (fun il => negb (is_hole il.2)) ch.

(** The measurements of a list of links. *)
Definition measurements_of (ms : list measurement)
    (ch : list (Z * candidate_link (scalar := scalar))) : list measurement :=
  omap (fun il => ms !! Z.to_nat (meas_idx il.2)) ch.

(** The sums of build_tracks, accumulated in the order of the walk. *)
Definition sum_dims (meas_dim : measurement -> Z) (ms : list measurement) : scalar :=
  foldl (fun acc m => s_add acc (s_of_uint (meas_dim m))) s_zero ms.

Definition sum_chi2 (ch : list (Z * candidate_link (scalar := scalar))) : scalar :=
  foldl (fun acc il => s_add acc (chi2 il.2)) s_zero ch.

(** What build_tracks needs of one record of the chain it walks. *)
Definition node_ok (nd : bool)
    (P : build_tracks_payload (bound_track_parameters := bound_track_parameters)
                              (measurement := measurement) (scalar := scalar))
    (l : candidate_link (scalar := scalar)) : Prop :=
  0 <= step l < UINT_MAX /\
  (if is_hole l then vsize (bt_measurements P) <= meas_idx l
   else (exists m, vat (bt_measurements P) (meas_idx l) = Ok m) /\
        (nd = false -> s_ltb (chi2 l) s_max = true /\ s_leb s_zero (chi2 l) = true)) /\
  (exists sd, vat (bt_seeds P) (seed_idx l) = Ok sd).

(** [chain_from nd P i l ch]: [ch] is the record [l] at index [i] of the
    link table of [P] followed by its ancestors. *)
Inductive chain_from (nd : bool)
    (P : build_tracks_payload (bound_track_parameters := bound_track_parameters)
                              (measurement := measurement) (scalar := scalar))
  : Z -> candidate_link (scalar := scalar) ->
    list (Z * candidate_link (scalar := scalar)) -> Prop :=
  | chain_root (i : Z) (l : candidate_link) :
      vat (bt_links P) i = Ok l ->
      node_ok nd P l ->
      step l = 0 ->
      n_skipped l = hole_count l ->
      chain_from nd P i l [(i, l)]
  | chain_step (i : Z) (l p : candidate_link) (rest : list (Z * candidate_link)) :
      vat (bt_links P) i = Ok l ->
      node_ok nd P l ->
      step l <> 0 ->
      0 <= previous_candidate_idx l < i ->
      step p = step l - 1 ->
      n_skipped l = n_skipped p + hole_count l ->
      chain_from nd P (previous_candidate_idx l) p rest ->
      chain_from nd P i l ((i, l) :: rest).

(** ** What a launch does to the global vectors *)

(** [s] has the links and the tips of [s0] and possibly more after them;
    the counters and the output vectors have kept their sizes. *)
Definition grown
    (s0 s : grid (bound_track_parameters := bound_track_parameters) (scalar := scalar))
  : Prop :=
  links (glob s0) `prefix_of` links (glob s) /\
  tips (glob s0) `prefix_of` tips (glob s) /\
  length (n_tracks_per_seed (glob s)) = length (n_tracks_per_seed (glob s0)) /\
  length (out_params (glob s)) = length (out_params (glob s0)) /\
  length (out_params_liveness (glob s)) = length (out_params_liveness (glob s0)).

(** ** The links a launch appends *)

(** The link at index [prev] of the table [ls] is the parent that a thread
    read for a parameter of seed [seed]; at step 0 there is none to read. *)
Definition parent_ok
    (P : find_tracks_payload (bound_track_parameters := bound_track_parameters)
                             (measurement := measurement))
    (ls : list (candidate_link (scalar := scalar))) (prev seed : Z) : Prop :=
  p_step P = 0 \/ exists p, vat ls prev = Ok p /\ seed_idx p = seed.

(** The values a thread holds come from the vectors it read: the parent
    and the seed from the link table, the measurement from the vector of
    measurements, and the state is one that passed the test of lines
    237-238. *)
Definition regs_ok
    (L : launch (bound_track_parameters := bound_track_parameters)
                (measurement := measurement) (scalar := scalar))
    (ls : list (candidate_link (scalar := scalar)))
    (p : pc (bound_track_parameters := bound_track_parameters) (scalar := scalar))
  : Prop :=
  match p with
  | PCount k | PReserve k | PAppend k =>
      parent_ok (payload L) ls (pk_prev_link_idx k) (pk_seed_idx k) /\
      0 <= pk_meas_idx k < vsize (measurements_view (payload L)) /\
      accepted (cfg L) (pk_state k) = true
  | PHoleEmit prev seed => parent_ok (payload L) ls prev seed
  | _ => True
  end.

(** The record [l] at index [i] of the table [ls] is one that the launch
    [L] has appended: it has the step of the launch; after step 0 its parent
    is an earlier record of the table, of the same seed; it is a hole with
    the maximal chi-square and one more skipped than its parent, or it
    carries a measurement of the payload with a chi-square below
    [chi2_max] and has skipped what its parent has. *)
Definition appended_ok
    (L : launch (bound_track_parameters := bound_track_parameters)
                (measurement := measurement) (scalar := scalar))
    (ls : list (candidate_link (scalar := scalar)))
    (i : nat) (l : candidate_link (scalar := scalar)) : Prop :=
  step l = p_step (payload L) /\
  exists base,
    ((p_step (payload L) = 0 /\ base = 0) \/
     (p_step (payload L) <> 0 /\
      exists p, 0 <= previous_candidate_idx l /\
                (Z.to_nat (previous_candidate_idx l) < i)%nat /\
                ls !! Z.to_nat (previous_candidate_idx l) = Some p /\
                seed_idx p = seed_idx l /\ base = n_skipped p)) /\
    ((meas_idx l = hole_idx /\ chi2 l = s_max /\ n_skipped l = wrap (base + 1)) \/
     (0 <= meas_idx l < vsize (measurements_view (payload L)) /\
      n_skipped l = base /\
      s_ltb (chi2 l) (chi2_max (cfg L)) = true)).

(** The threads hold values they read from the vectors, and the records of
    the table from index [n0] on are records that the launch appended. *)
Definition appended_inv
    (L : launch (bound_track_parameters := bound_track_parameters)
                (measurement := measurement) (scalar := scalar))
    (n0 : nat)
    (s : grid (bound_track_parameters := bound_track_parameters) (scalar := scalar))
  : Prop :=
  Forall (fun t => regs_ok L (links (glob s)) (t_pc t)) (threads s) /\
  forall i l, links (glob s) !! i = Some l -> (n0 <= i)%nat ->
              appended_ok L (links (glob s)) i l.

(** The tips from position [n0] on are indices of the link table. *)
Definition tips_inv (n0 : nat)
    (s : grid (bound_track_parameters := bound_track_parameters) (scalar := scalar))
  : Prop :=
  forall j x, tips (glob s) !! j = Some x -> (n0 <= j)%nat ->
              0 <= x < vsize (links (glob s)).

(** ** The last step *)

(** The number of candidates of a track that ends with the record [l]
    (line 273). *)
Definition n_cands_of
    (L : launch (bound_track_parameters := bound_track_parameters)
                (measurement := measurement) (scalar := scalar))
    (l : candidate_link (scalar := scalar)) : Z :=
  wrap (wrap (p_step (payload L) + 1) - n_skipped l).

(** On the last step: the threads hold values they read, the records from
    index [n0] on carry a measurement, those of a long enough candidate are
    tips, and the liveness flags are those of [lv0] or zero. *)
Definition last_inv
    (L : launch (bound_track_parameters := bound_track_parameters)
                (measurement := measurement) (scalar := scalar))
    (n0 : nat) (lv0 : list Z)
    (s : grid (bound_track_parameters := bound_track_parameters) (scalar := scalar))
  : Prop :=
  Forall (fun t => regs_ok L (links (glob s)) (t_pc t)) (threads s) /\
  (forall i l, links (glob s) !! i = Some l -> (n0 <= i)%nat ->
     0 <= meas_idx l < vsize (measurements_view (payload L)) /\
     (min_track_candidates_per_track (cfg L) <= n_cands_of L l ->
      Z.of_nat i ∈ tips (glob s))) /\
  (forall j v, out_params_liveness (glob s) !! j = Some v ->
     lv0 !! j = Some v \/ v = 0).

End Predicates.

(** ** The table of barcodes *)

(** The barcodes of the table are in increasing order. *)
Definition increasing (v : list Z) : Prop :=
  forall (i j : nat) x y, (i < j)%nat -> v !! i = Some x -> v !! j = Some y -> x < y.

Section MorePredicates.

Context {scalar : Type} `{ScalarOps scalar}.
Context {bound_track_parameters measurement : Type}.

(** ** The shared buffer *)

(** The thread is between the test of line 158 and the push of line 172:
    it has seen room in the buffer and has not yet taken its place. *)
Definition filling
    (p : pc (bound_track_parameters := bound_track_parameters) (scalar := scalar))
  : bool :=
  match p with
  | PFillCheck | PFillPush => true
  | _ => false
  end.

(** The number of threads of block [b] that are filling, among the threads
    [ts], the first of which has index [j]. *)
Fixpoint pend_from
    (L : launch (bound_track_parameters := bound_track_parameters)
                (measurement := measurement) (scalar := scalar))
    (b : Z) (j : nat)
    (ts : list (thread (bound_track_parameters := bound_track_parameters)
                       (scalar := scalar))) : Z :=
  match ts with
  | [] => 0
  | t :: ts' =>
      (if in_block L b j && filling (t_pc t) then 1 else 0) + pend_from L b (S j) ts'
  end.

(** Thread 0 of block [b] has set the size of the buffer of the block to
    zero (line 48): it is past the first line of the kernel. *)
Definition initialised
    (L : launch (bound_track_parameters := bound_track_parameters)
                (measurement := measurement) (scalar := scalar))
    (b : Z)
    (ts : list (thread (bound_track_parameters := bound_track_parameters)
                       (scalar := scalar))) : bool :=
  match ts !! Z.to_nat (b * blockDim L) with
  | Some t0 => match t_pc t0 with PInit => false | _ => true end
  | None => false
  end.

(** The buffer of every block has its places, and once thread 0 of the
    block has initialised it, the number of its entries is not negative and,
    with the threads that are filling, stays within the buffer. *)
Definition buffer_inv
    (L : launch (bound_track_parameters := bound_track_parameters)
                (measurement := measurement) (scalar := scalar))
    (s : grid (bound_track_parameters := bound_track_parameters) (scalar := scalar))
  : Prop :=
  forall (b : nat) sh, blocks s !! b = Some sh ->
    vsize (shared_candidates sh) = 2 * blockDim L /\
    (initialised L (Z.of_nat b) (threads s) = true ->
     0 <= shared_candidates_size sh /\
     shared_candidates_size sh + pend_from L (Z.of_nat b) 0 (threads s)
       <= 2 * blockDim L - 1).

(** ** Where the parent of an appended link comes from *)

(** The part of the kernel a thread is in: before the first barrier (0),
    around the test of the loop (1), filling the buffer (2), handling a pair
    (3), after the loop (4).  A barrier belongs to the part it closes. *)
Definition phase
    (p : pc (bound_track_parameters := bound_track_parameters) (scalar := scalar))
  : nat :=
  match p with
  | PInit | PBarrier0 => 0
  | PRange | PLoopTest | PBlockOr _ | PCompact => 1
  | PFillTest | PFillCheck | PFillPush | PBarrier1 => 2
  | PPick | PSaturated _ | PCount _ | PReserve _ | PAppend _ | PBarrier2 => 3
  | PHoleTest | PHoleReserve | PHoleEmit _ _ | PDone => 4
  end.

(** The owner of the pair [e] of the buffer of block [b] is a thread of
    a parameter of the step (line 199-200 gives its global index). *)
Definition owner_ok
    (L : launch (bound_track_parameters := bound_track_parameters)
                (measurement := measurement) (scalar := scalar))
    (b : Z) (e : Z * Z) : Prop :=
  wrap (e.2 + wrap (blockDim L * b)) < n_in_params (payload L).

(** [prev] is the index of the previous link of a parameter of the step
    (lines 202-203, 315). *)
Definition origin_ok
    (L : launch (bound_track_parameters := bound_track_parameters)
                (measurement := measurement) (scalar := scalar))
    (prev : Z) : Prop :=
  exists og, 0 <= og < n_in_params (payload L) /\
             prev = wrap (prev_links_idx (payload L) + og).

(** The size of the buffer of block [b] once thread 0 of the block has
    done what it is about to do: set it to zero (line 48), or take the
    spill-over off it (lines 295-303). *)
Definition post_size
    (L : launch (bound_track_parameters := bound_track_parameters)
                (measurement := measurement) (scalar := scalar))
    (b : Z) (sh : shared_mem)
    (ts : list (thread (bound_track_parameters := bound_track_parameters)
                       (scalar := scalar))) : Z :=
  match ts !! Z.to_nat (b * blockDim L) with
  | Some t0 =>
      match t_pc t0 with
      | PInit => 0
      | PCompact =>
          if blockDim L <=? shared_candidates_size sh
          then shared_candidates_size sh - blockDim L
          else 0
      | _ => shared_candidates_size sh
      end
  | None => shared_candidates_size sh
  end.

(** What thread [i], in state [t], may rely on in the buffer [sh] of its
    block: before the first barrier the buffer is empty once thread 0 has
    initialised it, whatever it held; while it is filled
    and emptied, the pairs below its size have an owner that is a parameter
    of the step; while the spill-over is moved, this holds for the place of
    the thread once it has moved its pair, and for the spill-over. *)
Definition thread_view
    (L : launch (bound_track_parameters := bound_track_parameters)
                (measurement := measurement) (scalar := scalar))
    (i : nat)
    (t : thread (bound_track_parameters := bound_track_parameters) (scalar := scalar))
    (sh : shared_mem)
    (ts : list (thread (bound_track_parameters := bound_track_parameters)
                       (scalar := scalar))) : Prop :=
  let b := block_of L i in
  match phase (t_pc t) with
  | 0%nat => post_size L b sh ts = 0
  | 1%nat =>
      (t_pc t <> PCompact ->
       forall e, shared_candidates sh !! Z.to_nat (local_of L i) = Some e ->
                 local_of L i < post_size L b sh ts -> owner_ok L b e) /\
      (forall (j : nat) e, shared_candidates sh !! j = Some e ->
         blockDim L <= Z.of_nat j < post_size L b sh ts + blockDim L ->
         owner_ok L b e)
  | 2%nat | 3%nat =>
      forall (j : nat) e, shared_candidates sh !! j = Some e ->
        Z.of_nat j < shared_candidates_size sh -> owner_ok L b e
  | _ => True
  end.

(** The registers of the thread of global index [gid]: a thread with
    measurements, and a thread that is about to push a pair or to reserve a
    hole, is a thread of a parameter of the step. *)
Definition thread_local
    (L : launch (bound_track_parameters := bound_track_parameters)
                (measurement := measurement) (scalar := scalar))
    (gid : Z)
    (t : thread (bound_track_parameters := bound_track_parameters) (scalar := scalar))
  : Prop :=
  0 <= num_meas t /\ 0 <= curr_meas t /\
  (0 < num_meas t -> gid < n_in_params (payload L)) /\
  match t_pc t with
  | PFillCheck | PFillPush | PHoleReserve => gid < n_in_params (payload L)
  | _ => True
  end.

(** The previous link a thread holds is that of a parameter of the step;
    once the thread has incremented the counter of the seed, the seed is one
    of the [nc] counters. *)
Definition held_ok
    (L : launch (bound_track_parameters := bound_track_parameters)
                (measurement := measurement) (scalar := scalar))
    (nc : Z)
    (p : pc (bound_track_parameters := bound_track_parameters) (scalar := scalar))
  : Prop :=
  match p with
  | PCount k | PReserve k => origin_ok L (pk_prev_link_idx k)
  | PAppend k => origin_ok L (pk_prev_link_idx k) /\ 0 <= pk_seed_idx k < nc
  | PHoleEmit prev seed => origin_ok L prev /\ 0 <= seed < nc
  | _ => True
  end.

(** The record [l] was appended for a parameter of the step, its seed is
    one of the [nc] counters, and in a build that checks assertions the
    chi-square of a measurement is not negative (line 257). *)
Definition sourced
    (L : launch (bound_track_parameters := bound_track_parameters)
                (measurement := measurement) (scalar := scalar))
    (nc : Z) (l : candidate_link (scalar := scalar)) : Prop :=
  origin_ok L (previous_candidate_idx l) /\
  0 <= seed_idx l < nc /\
  (ndebug L = false -> is_hole l = false -> s_leb s_zero (chi2 l) = true).

(** The threads of a block are in the same part of the kernel; the blocks
    are complete; every thread may rely on the buffer of its block and on
    its registers; the records from index [n0] on were appended for
    parameters of the step. *)
Definition origin_inv
    (L : launch (bound_track_parameters := bound_track_parameters)
                (measurement := measurement) (scalar := scalar))
    (nb n0 : nat)
    (s : grid (bound_track_parameters := bound_track_parameters) (scalar := scalar))
  : Prop :=
  length (blocks s) = nb /\
  length (threads s) = (nb * Z.to_nat (blockDim L))%nat /\
  (forall i j ti tj,
     threads s !! i = Some ti -> threads s !! j = Some tj ->
     block_of L i = block_of L j -> phase (t_pc ti) = phase (t_pc tj)) /\
  (forall i t sh,
     threads s !! i = Some t ->
     blocks s !! Z.to_nat (block_of L i) = Some sh ->
     0 <= shared_candidates_size sh <= UINT_MAX /\
     thread_view L i t sh (threads s) /\
     thread_local L (global_thread_id L (block_of L i) (local_of L i)) t /\
     held_ok L (vsize (n_tracks_per_seed (glob s))) (t_pc t)) /\
  (forall i l, links (glob s) !! i = Some l -> (n0 <= i)%nat ->
     sourced L (vsize (n_tracks_per_seed (glob s))) l).

(** What the driver of the search provides at a step after the first: the
    records of the table [ls] from [prev_links_idx] on are the links of the
    previous step, one for each parameter of the step. *)
Definition previous_step_links
    (L : launch (bound_track_parameters := bound_track_parameters)
                (measurement := measurement) (scalar := scalar))
    (ls : list (candidate_link (scalar := scalar))) : Prop :=
  p_step (payload L) <> 0 ->
  0 <= prev_links_idx (payload L) /\
  prev_links_idx (payload L) + n_in_params (payload L) <= vsize ls /\
  forall (i : nat) p, ls !! i = Some p ->
    prev_links_idx (payload L) <= Z.of_nat i ->
    step p = p_step (payload L) - 1.

End MorePredicates.

(** * Concrete launches

    Tables, payloads and schedules on which the theorems below are
    instantiated.  Scalars are integers here, a track parameter is the
    identifier of its surface, and the updater accepts a measurement of the
    surface of the parameter with the residual of the measurement as
    chi-square. *)

Module Examples.

#[local] Open Scope Z_scope.

#[global] Instance Z_scalar : ScalarOps Z := {|
  s_zero := 0;
  s_five := 5;
  s_max := 1000000;
  s_add := Z.add;
  s_sub := Z.sub;
  s_ltb := Z.ltb;
  s_leb := Z.leb;
  s_of_uint := fun x => x;
  prob := fun c n => c - n
|}.

Record meas : Type := mk_meas {
  m_surface : Z;
  m_dim : Z;
  m_residual : Z
}.

Definition surface (par : Z) : Z := par.

Definition updater (par : Z) (m : meas) : track_state (scalar := Z) :=
  if m_surface m =? par
  then mk_track_state SUCCESS par (m_residual m)
  else mk_track_state (ERROR 1) par 0.

(** Each thread in turn makes [burst] transitions, [rounds] times. *)
Definition bursts (nthreads burst rounds : nat) : list nat :=
  mjoin (replicate rounds (mjoin ((fun i => replicate burst i) <$> seq 0 nthreads))).


Abbreviation grid := (grid (scalar := Z) (bound_track_parameters := Z)).
Abbreviation global_mem := (global_mem (scalar := Z) (bound_track_parameters := Z)).
Abbreviation launch := (launch (scalar := Z) (bound_track_parameters := Z) (measurement := meas)).
Abbreviation candidate_link := (candidate_link (scalar := Z)).
Abbreviation thread := (thread (scalar := Z) (bound_track_parameters := Z)).
Abbreviation exec := (run surface updater).
Abbreviation finding_config := (finding_config (scalar := Z)).
Abbreviation find_tracks_payload :=
  (find_tracks_payload (bound_track_parameters := Z) (measurement := meas)).
Abbreviation build_tracks_payload :=
  (build_tracks_payload (scalar := Z) (bound_track_parameters := Z) (measurement := meas)).
Abbreviation track_candidate :=
  (track_candidate (scalar := Z) (bound_track_parameters := Z) (measurement := meas)).

(** What the shared memory of a block holds when a kernel starts: here
    what another kernel has left there. *)
Definition stale : shared_mem := mk_shared 9 [3; 1; 4; 1; 5] [(2, 7); (1, 8); (2, 8)].

(** The grid a run ends in, or [s] if the run fails. *)
Definition grid_of (r : result grid) (s : grid) : grid :=
  match r with Ok s' => s' | Fault _ => s end.

Definition block0 (s : grid) : shared_mem :=
  default (mk_shared 0 [] []) (blocks s !! 0%nat).

Definition thread_of (s : grid) (i : nat) : thread :=
  default fresh_thread (threads s !! i).

(** ** Two slots of one seed at step 1

    Seed 0 has two links of step 0, on the surfaces 7 and 8.  Surface 7 has
    the measurements 0 and 1, surface 8 the measurement 2; all three are
    compatible.  A seed may have four branches, and seed 0 has used two of
    them at step 0. *)
Definition race_config : finding_config := mk_config 4 1 1 5 10.

Definition race_payload : find_tracks_payload :=
  mk_payload 1 2 0 2
    [mk_meas 7 2 1; mk_meas 7 2 2; mk_meas 8 2 3]
    [7; 8] [1; 1] [7; 8] [2; 3].

Definition race_launch : launch := mk_launch race_config race_payload 4 false.

Definition race_links : list candidate_link :=
  [mk_link 0 0 0 0 0 1; mk_link 0 1 0 0 0 1].

Definition race_global : global_mem :=
  mk_global race_links [0; 0; 0; 0] [0; 0; 0; 0] [] [2].

Definition race_start : grid := start race_launch [stale] race_global.

(** All threads in turn until the three pairs are in the buffer and every
    thread is at line 193. *)
Definition race_fill : list nat := round_robin 4 10 ++ [0; 0]%nat.

Definition race_filled : grid :=
  Eval vm_compute in grid_of (exec race_launch race_fill race_start) race_start.

(** Then thread 0 and thread 2 handle the two pairs of slot 0. *)
Definition race_first : list nat := [0; 0; 0; 0; 2; 2; 2; 2]%nat.

Definition race_saturated : grid :=
  Eval vm_compute in grid_of (exec race_launch race_first race_filled) race_filled.

(** Then thread 1 handles the pair of slot 1, and all threads finish. *)
Definition race_rest : list nat := [1; 1; 3]%nat ++ round_robin 4 12.

Definition race_final : grid :=
  Eval vm_compute in grid_of (exec race_launch race_rest race_saturated) race_saturated.

(** ** A saturated seed at the start of a launch *)

Definition spent_start : grid :=
  start race_launch [stale] (mk_global race_links [0; 0; 0; 0] [0; 0; 0; 0] [] [4]).

Definition spent_at_check : grid :=
  Eval vm_compute in
    grid_of (exec race_launch (round_robin 4 5) spent_start) spent_start.

(** The three threads of the race increment the counter one after the
    other: thread 2 is the third. *)
Definition race_contended : grid :=
  Eval vm_compute in
    grid_of (exec race_launch (round_robin 4 2 ++ [0; 1]%nat) race_filled) race_filled.

(** ** One seed with three compatible measurements at step 0

    A seed may have two branches. *)
Definition first_config : finding_config := mk_config 2 1 1 5 10.

Definition first_payload : find_tracks_payload :=
  mk_payload 0 1 0 0
    [mk_meas 7 2 1; mk_meas 7 2 2; mk_meas 7 2 3]
    [7] [1] [7] [3].

Definition first_launch : launch := mk_launch first_config first_payload 4 false.

Definition first_global : global_mem :=
  mk_global [] [0; 0; 0; 0] [0; 0; 0; 0] [] [0].

Definition first_start : grid := start first_launch [stale] first_global.

Definition first_sched : list nat := round_robin 4 30.

Definition first_final : grid :=
  Eval vm_compute in grid_of (exec first_launch first_sched first_start) first_start.

(** ** A seed that finds no measurement at step 0, no hole allowed

    [max_num_skipping_per_cand] and [min_track_candidates_per_track] are 0;
    step 0 is not the last step. *)
Definition strict_config : finding_config := mk_config 2 0 0 5 10.

Definition strict_payload : find_tracks_payload :=
  mk_payload 0 1 0 0 [] [7] [1] [] [].

Definition strict_launch (nd : bool) : launch :=
  mk_launch strict_config strict_payload 1 nd.

Definition strict_start (nd : bool) : grid :=
  start (strict_launch nd) [stale] (mk_global [] [0] [0] [] [0]).

Definition strict_at_emit : grid :=
  Eval vm_compute in
    grid_of (exec (strict_launch false) (replicate 7 0%nat) (strict_start false))
            (strict_start false).

(** ** One seed and an empty first step

    One seed on surface 7 at step 0, no measurement, one block of one
    thread; at most one hole per candidate, one step, no minimal length. *)
Definition empty_config : finding_config := mk_config 1 1 0 1 10.

Definition empty_payload : find_tracks_payload :=
  mk_payload 0 1 0 0 [] [7] [1] [] [].

Definition empty_launch (nd : bool) : launch :=
  mk_launch empty_config empty_payload 1 nd.

Definition empty_start (nd : bool) : grid :=
  start (empty_launch nd) [stale] (mk_global [] [7] [0] [] [0]).

Definition empty_release_final : grid :=
  Eval vm_compute in
    grid_of (exec (empty_launch true) (replicate 8 0%nat) (empty_start true))
            (empty_start true).

(** What build_tracks is given after a search that ended in the grid [s]. *)
Definition assemble_payload (ms : list meas) (seeds : list Z) (s : grid)
  : build_tracks_payload :=
  mk_build_payload ms seeds (links (glob s)) (tips (glob s)).

Definition blank_track : track_candidate :=
  mk_track 0 (mk_quality 0 0 0 0) [].

(** ** A candidate of two holes

    Two holes are allowed, a seed may have five branches and there is no
    minimal length.  The seed finds no measurement at the steps 0, 1 and 2:
    it gets a hole at step 0, a second hole at step 1, and at step 2 the
    second hole becomes a tip.  The counters go from one step to the next as
    they are. *)
Definition holes_config : finding_config := mk_config 5 2 0 5 10.

Definition holes_launch (stp prev curr : Z) : launch :=
  mk_launch holes_config (mk_payload stp 1 prev curr [] [7] [1] [] []) 1 false.

Definition holes_step (stp prev curr : Z) (g : global_mem) : grid :=
  grid_of (exec (holes_launch stp prev curr) (replicate 9 0%nat)
                (start (holes_launch stp prev curr) [stale] g))
          (start (holes_launch stp prev curr) [stale] g).

Definition holes_after_0 : grid :=
  Eval vm_compute in holes_step 0 0 0 (mk_global [] [0] [0] [] [0]).

Definition holes_after_1 : grid :=
  Eval vm_compute in holes_step 1 0 1 (glob holes_after_0).

Definition holes_after_2 : grid :=
  Eval vm_compute in holes_step 2 1 2 (glob holes_after_1).

(** ** A track with a hole in the middle *)

Definition middle_links : list candidate_link :=
  [mk_link 0 0 0 0 0 3; mk_link 1 0 hole_idx 0 1 s_max; mk_link 2 1 1 0 1 4].

Definition middle_payload : build_tracks_payload :=
  mk_build_payload [mk_meas 7 2 3; mk_meas 9 1 4] [7] middle_links [2].

(** ** A slot on a surface without measurements

    The two measurements are on surface 5; the slot is on surface 3. *)
Definition absent_payload : find_tracks_payload :=
  mk_payload 0 1 0 0 [mk_meas 5 2 1; mk_meas 5 2 2] [3] [1] [5] [2].

(** ** The race of two slots, from the start to the end *)

Definition race_whole : list nat := race_fill ++ race_first ++ race_rest.

(** ** A first step that is the last one

    A candidate has at most one measurement, so that step 0 is the last
    step; the liveness flags of the output are set before the launch. *)
Definition closing_config : finding_config := mk_config 2 1 1 1 10.

Definition closing_launch : launch := mk_launch closing_config first_payload 4 false.

Definition closing_global : global_mem :=
  mk_global [] [0; 0; 0; 0] [1; 1; 1; 1] [] [0].

Definition closing_start : grid := start closing_launch [stale] closing_global.

Definition closing_final : grid :=
  Eval vm_compute in
    grid_of (exec closing_launch first_sched closing_start) closing_start.

(** ** Two blocks of two threads

    Four slots on surface 7, which has five measurements, in two blocks of
    two threads; a seed may have five branches. *)
Definition blocks_config : finding_config := mk_config 5 1 1 5 10.

Definition blocks_payload : find_tracks_payload :=
  mk_payload 0 4 0 0
    [mk_meas 7 2 1; mk_meas 7 2 2; mk_meas 7 2 3; mk_meas 7 2 4; mk_meas 7 2 5]
    [7; 7; 7; 7] [1; 1; 1; 1] [7] [5].

Definition blocks_launch : launch := mk_launch blocks_config blocks_payload 2 false.

Definition blocks_global : global_mem :=
  mk_global [] (replicate 20 0) (replicate 20 0) [] [0; 0; 0; 0].

(** Every thread in turn until the threads of both blocks fill their
    buffer. *)
Definition blocks_sched : list nat := round_robin 4 6.

Definition blocks_filling : grid :=
  Eval vm_compute in
    grid_of (exec blocks_launch blocks_sched
                  (start blocks_launch [stale; stale] blocks_global))
            (start blocks_launch [stale; stale] blocks_global).

(** ** The pair of thread 0 in the race, up to the append

    Thread 0 has tested its pair, counted it and incremented the counter of
    the seed: it is at line 252. *)
Definition race_at_append : grid :=
  Eval vm_compute in
    grid_of (exec race_launch [0; 0; 0]%nat race_filled) race_filled.

Definition race_appended : grid :=
  Eval vm_compute in
    grid_of (exec race_launch [0%nat] race_at_append) race_at_append.

(** ** A search of two steps

    Step 0 is the launch of the seed with three compatible measurements,
    of which two become links.  At step 1 the two links are the parameters,
    on surface 8, which has two measurements; the counter of the seed is
    what step 0 left. *)
Definition two_stage_0 : stage (measurement := meas) :=
  mk_stage first_payload 4 false [stale] [0; 0; 0; 0] [0; 0; 0; 0] first_sched.

Definition two_payload_1 : find_tracks_payload :=
  mk_payload 1 2 0 2
    [mk_meas 8 2 1; mk_meas 8 2 2]
    [8; 8] [1; 1] [8] [2].

Definition two_stage_1 : stage (measurement := meas) :=
  mk_stage two_payload_1 4 false [stale] [0; 0; 0; 0] [0; 0; 0; 0] first_sched.

Definition two_stages : list (stage (measurement := meas)) :=
  [two_stage_0; two_stage_1].

Definition two_final : global_mem :=
  Eval vm_compute in
    match search surface updater first_config two_stages (search_start 1) with
    | Ok g => g
    | Fault _ => search_start 1
    end.

End Examples.

(** * Proofs *)

Section Proofs.

Context {scalar : Type} `{ScalarOps scalar}.
Context {bound_track_parameters measurement : Type}.
Variable surface_link : bound_track_parameters -> Z.
Variable meas_dim : measurement -> Z.
Variable gain_matrix_updater :
  bound_track_parameters -> measurement ->
  track_state (scalar := scalar) (bound_track_parameters := bound_track_parameters).

Abbreviation thread_step_with := (thread_step surface_link).
Abbreviation thread_step := (thread_step surface_link gain_matrix_updater).
Abbreviation grid_step := (grid_step surface_link gain_matrix_updater).
Abbreviation run := (run surface_link gain_matrix_updater).
Abbreviation search := (search surface_link gain_matrix_updater).
Abbreviation stage :=
  (stage (bound_track_parameters := bound_track_parameters)
         (measurement := measurement)).
Abbreviation candidate_link := (candidate_link (scalar := scalar)).
Abbreviation finding_config := (finding_config (scalar := scalar)).
Abbreviation find_tracks_payload :=
  (find_tracks_payload (bound_track_parameters := bound_track_parameters)
                       (measurement := measurement)).
Abbreviation global_mem :=
  (global_mem (bound_track_parameters := bound_track_parameters) (scalar := scalar)).
Abbreviation track_state :=
  (track_state (bound_track_parameters := bound_track_parameters) (scalar := scalar)).
Abbreviation pick :=
  (pick (bound_track_parameters := bound_track_parameters) (scalar := scalar)).
Abbreviation pc :=
  (pc (bound_track_parameters := bound_track_parameters) (scalar := scalar)).
Abbreviation build_tracks_payload :=
  (build_tracks_payload (bound_track_parameters := bound_track_parameters)
                        (measurement := measurement) (scalar := scalar)).
Abbreviation track_candidate :=
  (track_candidate (bound_track_parameters := bound_track_parameters)
                   (measurement := measurement) (scalar := scalar)).
Abbreviation walk :=
  (walk (bound_track_parameters := bound_track_parameters)
        (measurement := measurement) (scalar := scalar)).
Abbreviation build_tracks := (build_tracks meas_dim).
Abbreviation fill_candidates := (fill_candidates meas_dim).
Abbreviation thread := (thread (bound_track_parameters := bound_track_parameters) (scalar := scalar)).
Abbreviation grid := (grid (bound_track_parameters := bound_track_parameters) (scalar := scalar)).
Abbreviation launch := (launch (bound_track_parameters := bound_track_parameters)
                           (measurement := measurement) (scalar := scalar)).

(** ** Results and vectors *)

Lemma bind_Ok {A B : Type} (r : result A) (k : A -> result B) (b : B) :
  (r ≫= k) = Ok b <-> exists a, r = Ok a /\ k a = Ok b.
Proof.
  destruct r as [a|f]; simpl; split.
  - intros Hk. exists a. auto.
  - intros (a' & Ha & Hk). congruence.
  - discriminate.
  - intros (a' & Ha & _). discriminate.
Qed.

Lemma vat_Ok {A : Type} (v : list A) (i : Z) (a : A) :
  vat v i = Ok a <-> 0 <= i /\ v !! Z.to_nat i = Some a.
Proof.
  unfold vat. destruct (Z.leb_spec 0 i) as [Hi|Hi].
  - destruct (v !! Z.to_nat i) eqn:E; split.
    + intros [= ->]. auto.
    + intros [_ [= ->]]. reflexivity.
    + discriminate.
    + intros [_ [=]].
  - split; [discriminate | lia].
Qed.

Lemma vset_Ok {A : Type} (v v' : list A) (i : Z) (a : A) :
  vset v i a = Ok v' <->
  0 <= i < vsize v /\ v' = <[Z.to_nat i := a]> v.
Proof.
  unfold vset, vsize.
  destruct (Z.leb_spec 0 i), (Z.ltb_spec i (Z.of_nat (length v))); simpl;
    split; try discriminate; try lia.
  - intros [= <-]. auto with lia.
  - intros [_ ->]. reflexivity.
Qed.

Lemma vat_vset {A : Type} (v v' : list A) (i j : Z) (a : A) :
  vset v i a = Ok v' -> 0 <= j ->
  vat v' j = if bool_decide (j = i) then Ok a else vat v j.
Proof.
  intros [Hi ->]%vset_Ok Hj. unfold vat, vsize in *.
  destruct (Z.leb_spec 0 j); [|lia].
  case_bool_decide as Hji.
  - subst j. rewrite list_lookup_insert_eq; [reflexivity | lia].
  - rewrite list_lookup_insert_ne; [reflexivity | lia].
Qed.

Lemma vat_nonneg {A : Type} (v : list A) (i : Z) (a : A) :
  vat v i = Ok a -> 0 <= i.
Proof. intros [? _]%vat_Ok. assumption. Qed.

Lemma vat_Fault {A : Type} (v : list A) (i : Z) (f : fault) :
  vat v i = Fault f -> f = OutOfRange.
Proof.
  unfold vat. destruct (0 <=? i); [destruct (v !! Z.to_nat i)|]; congruence.
Qed.

Lemma vset_Fault {A : Type} (v : list A) (i : Z) (a : A) (f : fault) :
  vset v i a = Fault f -> f = OutOfRange.
Proof. unfold vset. destruct (_ && _); congruence. Qed.

Lemma fetch_add_Ok (v v' : list Z) (i old : Z) :
  fetch_add v i = Ok (old, v') <->
  vat v i = Ok old /\ v' = <[Z.to_nat i := wrap (old + 1)]> v.
Proof.
  unfold fetch_add. rewrite bind_Ok. split.
  - intros (a & Ha & Hk). apply bind_Ok in Hk as (w & Hw & Hr).
    injection Hr as -> ->. apply vset_Ok in Hw as [_ ->]. auto.
  - intros [Ha ->]. exists old. split; [assumption|].
    apply bind_Ok. eexists. split; [|reflexivity].
    apply vset_Ok. split; [|reflexivity].
    apply vat_Ok in Ha as [? Hl]. apply lookup_lt_Some in Hl.
    unfold vsize. lia.
Qed.

Lemma vat_fetch_add (v v' : list Z) (i old j : Z) :
  fetch_add v i = Ok (old, v') -> 0 <= j ->
  vat v' j = if bool_decide (j = i) then Ok (wrap (old + 1)) else vat v j.
Proof.
  intros [Ha ->]%fetch_add_Ok Hj.
  apply (vat_vset v _ i j (wrap (old + 1))); [|assumption].
  apply vset_Ok. split; [|reflexivity].
  apply vat_Ok in Ha as [? Hl]. apply lookup_lt_Some in Hl. unfold vsize. lia.
Qed.

Lemma wrap_small (x : Z) : 0 <= x <= UINT_MAX -> wrap x = x.
Proof. unfold wrap, UINT_MAX. intros. apply Z.mod_small. lia. Qed.

Lemma wrap_range (x : Z) : 0 <= wrap x <= UINT_MAX.
Proof. unfold wrap, UINT_MAX. pose proof (Z.mod_pos_bound x 4294967296). lia. Qed.


(** Decomposes a hypothesis stating that a computation of the kernel
    returned. *)
Ltac inv_ok :=
  repeat match goal with
  | Hok : Ok _ = Ok _ |- _ => injection Hok as Hok; subst
  | Hok : (_, _) = (_, _) |- _ => injection Hok as ? ?; subst
  | Hok : Fault _ = Ok _ |- _ => discriminate Hok
  | Hok : mret _ = Ok _ |- _ => unfold mret, result_ret in Hok
  | Hok : (?r ≫= _) = Ok _ |- _ =>
      let a := fresh "a" in let Ha := fresh "Ha" in
      apply bind_Ok in Hok as (a & Ha & Hok)
  | Hok : (if ?c then _ else _) = Ok _ |- _ =>
      let Hc := fresh "Hc" in destruct c eqn:Hc
  | Hok : (let '(_, _) := ?p in _) = Ok _ |- _ => destruct p
  | Hok : assert _ _ _ = Ok _ |- _ => clear Hok
  end.

(** ** The branch budget is kept by every transition *)

Lemma count_seed_app (seed : Z) (ls : list candidate_link) (l : candidate_link) :
  count_seed seed (ls ++ [l]) =
  count_seed seed ls + (if bool_decide (seed_idx l = seed) then 1 else 0).
Proof.
  unfold count_seed. rewrite filter_app, length_app.
  rewrite filter_cons, filter_nil.
  case_bool_decide; destruct (decide _); simpl; try contradiction; lia.
Qed.

Lemma append_link_Ok (P : find_tracks_payload) (g g' : global_mem)
    (l : candidate_link) par live l_pos :
  append_link (bound_track_parameters := bound_track_parameters)
              (measurement := measurement) P g l par live = Ok (l_pos, g') ->
  links g' = links g ++ [l] /\ tips g' = tips g /\
  n_tracks_per_seed g' = n_tracks_per_seed g /\ l_pos = vsize (links g).
Proof. unfold append_link. intros Hok. inv_ok. simpl. auto. Qed.

Lemma room_reserve (cap n : Z) :
  n < cap -> room cap (n + 1) + 1 = room cap n.
Proof. unfold room. lia. Qed.

Lemma room_saturated (cap n : Z) :
  cap <= n -> room cap (n + 1) = 0 /\ room cap n = 0.
Proof. unfold room. lia. Qed.

Lemma counters_below_vat (k : Z) (cs : list Z) :
  counters_below k cs <->
  forall seed n, vat cs seed = Ok n -> 0 <= n /\ n + k <= UINT_MAX.
Proof.
  unfold counters_below. rewrite Forall_lookup. split.
  - intros Hall seed n [_ Hn]%vat_Ok. exact (Hall _ _ Hn).
  - intros Hall i n Hn. apply (Hall (Z.of_nat i)).
    apply vat_Ok. rewrite Nat2Z.id. split; [lia | assumption].
Qed.

Lemma reserve_counter (cs cs' : list Z) (i old seed n' : Z) :
  fetch_add cs i = Ok (old, cs') ->
  counters_below 1 cs ->
  vat cs' seed = Ok n' ->
  exists n, vat cs seed = Ok n /\
    ((seed = i /\ n = old /\ n' = n + 1) \/ (seed <> i /\ n' = n)).
Proof.
  intros Hfa Hbelow Hn'.
  pose proof (vat_nonneg _ _ _ Hn') as Hseed.
  rewrite (vat_fetch_add _ _ _ _ _ Hfa Hseed) in Hn'.
  apply fetch_add_Ok in Hfa as [Hold _].
  case_bool_decide as Hi.
  - subst i. exists old. split; [assumption|]. left.
    destruct (proj1 (counters_below_vat _ _) Hbelow _ _ Hold) as [Hlo Hhi].
    injection Hn' as <-. rewrite wrap_small by lia. auto.
  - exists n'. auto.
Qed.

Ltac budget_arith :=
  unfold holds; simpl;
  repeat match goal with
  | Hc : (_ <? _) = true |- _ => apply Z.ltb_lt in Hc
  | Hc : (_ <? _) = false |- _ => apply Z.ltb_ge in Hc
  end;
  repeat case_bool_decide; unfold room; lia.

Lemma thread_step_budget (L : launch) bid lid (g g' : global_mem) sh sh'
    (t t' : thread) :
  thread_step L bid lid g sh t = Ok (g', sh', t') ->
  counters_below 1 (n_tracks_per_seed g) ->
  forall seed n', vat (n_tracks_per_seed g') seed = Ok n' ->
    exists n, vat (n_tracks_per_seed g) seed = Ok n /\ n <= n' <= n + 1 /\
      count_seed seed (links g') + holds seed t' +
        room (max_num_branches_per_seed (cfg L)) n' <=
      count_seed seed (links g) + holds seed t +
        room (max_num_branches_per_seed (cfg L)) n.
Proof.
  intros Hstep Hbelow seed n' Hn'.
  unfold thread_step in Hstep.
  destruct t as [p im nm cm]; destruct p; simpl in Hstep; inv_ok.
  all: try (exists n'; split; [assumption|]; budget_arith).
  all: try match goal with
    | Hfa : fetch_add _ _ = Ok _ |- _ =>
        simpl in Hn';
        destruct (reserve_counter _ _ _ _ _ _ Hfa Hbelow Hn')
          as (n & Hn & [(? & ? & ?)|(Hne & ?)]);
        exists n; (split; [assumption|]); subst; simpl; budget_arith
    end.
  all: match goal with
    | Hap : append_link _ _ _ _ _ = Ok _ |- _ =>
        apply append_link_Ok in Hap as (Hl & Ht & Hcs & ->);
        simpl in Hn' |- *; rewrite ?Hcs in Hn';
        exists n'; (split; [assumption|]); rewrite Hl, count_seed_app;
        simpl; budget_arith
    end.
Qed.

Lemma pending_insert (seed : Z) (ts : list thread) (i : nat) (t t' : thread) :
  ts !! i = Some t ->
  pending seed (<[i := t']> ts) = pending seed ts - holds seed t + holds seed t'.
Proof.
  revert i. induction ts as [|x ts IH]; intros [|i] Hi; simpl in *;
    try discriminate.
  - injection Hi as ->. lia.
  - rewrite (IH i Hi). lia.
Qed.

Lemma pending_imap (seed : Z) (f : nat -> thread -> thread) (ts : list thread) :
  (forall j t, holds seed (f j t) = holds seed t) ->
  pending seed (imap f ts) = pending seed ts.
Proof.
  revert f. induction ts as [|x ts IH]; intros f Hf; simpl; [reflexivity|].
  rewrite Hf, IH; [reflexivity|]. intros j t. apply Hf.
Qed.

Lemma holds_waiting (seed : Z) (t : thread) (bar : barrier) (any : bool) :
  waiting (t_pc t) = Some bar ->
  holds seed (goto t (after bar any)) = holds seed t.
Proof.
  destruct t as [p im nm cm]; destruct p; try discriminate;
    intros [= <-]; destruct any; reflexivity.
Qed.

Lemma pending_release (L : launch) (b : Z) (bar : barrier) (seed : Z)
    (ts : list thread) :
  pending seed (release L b bar ts) = pending seed ts.
Proof.
  unfold release. apply pending_imap. intros j t.
  destruct (in_block L b j); simpl; [|reflexivity].
  case_bool_decide as Hw; [|reflexivity].
  apply holds_waiting. assumption.
Qed.

(** The effect of one transition of the grid on the budget of a seed. *)
Lemma grid_step_budget (L : launch) (i : nat) (s s' : grid) :
  grid_step L i s = Ok s' ->
  counters_below 1 (n_tracks_per_seed (glob s)) ->
  forall seed n', vat (n_tracks_per_seed (glob s')) seed = Ok n' ->
    exists n, vat (n_tracks_per_seed (glob s)) seed = Ok n /\ n <= n' <= n + 1 /\
      count_seed seed (links (glob s')) + pending seed (threads s') +
        room (max_num_branches_per_seed (cfg L)) n' <=
      count_seed seed (links (glob s)) + pending seed (threads s) +
        room (max_num_branches_per_seed (cfg L)) n.
Proof.
  intros Hstep Hbelow seed n' Hn'. unfold grid_step in Hstep.
  destruct (threads s !! i) as [t|] eqn:Ht.
  - destruct (waiting (t_pc t)) as [bar|] eqn:Hw.
    + destruct (all_arrived _ _ _ _); inv_ok; simpl in *;
        exists n'; rewrite ?pending_release; auto with lia.
    + apply bind_Ok in Hstep as (sh & Hsh & Hstep).
      apply bind_Ok in Hstep as ([[g1 sh1] t1] & Hts & Hstep).
      injection Hstep as <-. simpl in *.
      destruct (thread_step_budget _ _ _ _ _ _ _ _ _ Hts Hbelow seed n' Hn')
        as (n & Hn & Hnn & Hle).
      exists n. rewrite (pending_insert _ _ _ _ _ Ht). auto with lia.
  - inv_ok. exists n'. auto with lia.
Qed.

Lemma run_budget (L : launch) (sched : list nat) (s s' : grid) :
  run L sched s = Ok s' ->
  counters_below (Z.of_nat (length sched)) (n_tracks_per_seed (glob s)) ->
  forall seed n', vat (n_tracks_per_seed (glob s')) seed = Ok n' ->
    exists n, vat (n_tracks_per_seed (glob s)) seed = Ok n /\
      n <= n' <= n + Z.of_nat (length sched) /\
      count_seed seed (links (glob s')) + pending seed (threads s') +
        room (max_num_branches_per_seed (cfg L)) n' <=
      count_seed seed (links (glob s)) + pending seed (threads s) +
        room (max_num_branches_per_seed (cfg L)) n.
Proof.
  revert s. induction sched as [|i sched IH]; intros s Hrun Hbelow seed n' Hn';
    simpl in Hrun.
  - inv_ok. exists n'. simpl. auto with lia.
  - apply bind_Ok in Hrun as (a & Ha & Hrun).
    assert (Hb1 : counters_below 1 (n_tracks_per_seed (glob s))).
    { apply counters_below_vat. intros sd n Hsd.
      destruct (proj1 (counters_below_vat _ _) Hbelow sd n Hsd).
      simpl length in *. lia. }
    assert (Hb2 : counters_below (Z.of_nat (length sched))
                    (n_tracks_per_seed (glob a))).
    { apply counters_below_vat. intros sd n1 Hsd.
      destruct (grid_step_budget _ _ _ _ Ha Hb1 sd n1 Hsd) as (n0 & Hn0 & Hr & _).
      destruct (proj1 (counters_below_vat _ _) Hbelow sd n0 Hn0).
      simpl length in *. lia. }
    destruct (IH a Hrun Hb2 seed n' Hn') as (n1 & Hn1 & Hr1 & Hle1).
    destruct (grid_step_budget _ _ _ _ Ha Hb1 seed n1 Hn1) as (n0 & Hn0 & Hr0 & Hle0).
    exists n0. simpl length. split; [assumption|]. lia.
Qed.

Lemma count_seed_meas_le (seed : Z) (ls : list candidate_link) :
  count_seed_meas seed ls <= count_seed seed ls.
Proof.
  unfold count_seed_meas, count_seed.
  induction ls as [|l ls IH]; simpl; [lia|].
  rewrite !filter_cons.
  destruct (decide (seed_idx l = seed /\ meas_idx l <> hole_idx)) as [[? ?]|?];
    destruct (decide (seed_idx l = seed)); simpl length; try tauto; lia.
Qed.

Lemma pending_nonneg (seed : Z) (ts : list thread) : 0 <= pending seed ts.
Proof.
  induction ts as [|t ts IH]; simpl; [lia|].
  unfold holds. destruct (t_pc t); repeat case_bool_decide; lia.
Qed.

(** The transition on line 248: the counter is incremented whatever its
    value, and the value before the increment decides. *)
Lemma reserve_step (L : launch) bid lid (g : global_mem) sh (t : thread) k n :
  t_pc t = PReserve k ->
  vat (n_tracks_per_seed g) (pk_seed_idx k) = Ok n ->
  thread_step L bid lid g sh t =
  Ok (set_counters g (<[Z.to_nat (pk_seed_idx k) := wrap (n + 1)]> (n_tracks_per_seed g)),
      sh,
      goto t (if n <? max_num_branches_per_seed (cfg L) then PAppend k else PBarrier2)).
Proof.
  intros Hpc Hn. unfold thread_step. rewrite Hpc.
  assert (Hfa : fetch_add (n_tracks_per_seed g) (pk_seed_idx k) =
                Ok (n, <[Z.to_nat (pk_seed_idx k) := wrap (n + 1)]> (n_tracks_per_seed g))).
  { apply fetch_add_Ok. auto. }
  rewrite Hfa. simpl. destruct (n <? _); reflexivity.
Qed.

(** ** The transitions of the dequeue phase *)

(** The transition of lines 193-242 for a pair that passes the checked
    accesses. *)
Lemma pick_step (upd : bound_track_parameters -> measurement -> track_state)
    (L : launch) bid lid (g : global_mem) sh (t : thread)
    m o in_par meas seed n :
  t_pc t = PPick ->
  dequeues L bid lid g sh m o in_par meas seed n ->
  thread_step_with upd L bid lid g sh t =
  Ok (g, sh,
      goto t (if n <? max_num_branches_per_seed (cfg L)
              then if accepted (cfg L) (upd in_par meas)
                   then PCount (pick_of L bid m o seed (upd in_par meas))
                   else PBarrier2
              else PSaturated o)).
Proof.
  intros Hpc (Hlt & Hentry & Hlive & Hseed & Hpar & Hmeas & Hn).
  unfold thread_step. rewrite Hpc.
  apply Z.ltb_lt in Hlt. rewrite Hlt, Hentry. simpl.
  destruct (ndebug L) eqn:Hnd; simpl.
  - rewrite Hseed. simpl. rewrite Hpar. simpl. rewrite Hmeas. simpl.
    rewrite Hn. simpl. unfold accepted, pick_of.
    destruct (n <? _); [|reflexivity].
    destruct (is_success _ && s_ltb _ _); reflexivity.
  - destruct Hlive as (lv & Hlv & Hnz); [reflexivity|].
    rewrite Hlv. simpl. apply Z.eqb_neq in Hnz. rewrite Hnz. simpl.
    rewrite Hseed. simpl. rewrite Hpar. simpl. rewrite Hmeas. simpl.
    rewrite Hn. simpl. unfold accepted, pick_of.
    destruct (n <? _); [|reflexivity].
  destruct (is_success _ && s_ltb _ _); reflexivity.
Qed.

(** The transitions of lines 241 and 246: the count of candidates of the
    owning thread goes up by one. *)
Lemma count_step (L : launch) bid lid (g : global_mem) sh (t : thread) p o c :
  t_pc t = p ->
  (p = PSaturated o \/ exists k, p = PCount k /\ owner_local_thread_id k = o) ->
  vat (shared_num_candidates sh) o = Ok c ->
  thread_step L bid lid g sh t =
  Ok (g, set_num_candidates sh (<[Z.to_nat o := wrap (c + 1)]> (shared_num_candidates sh)),
      goto t (match p with PCount k => PReserve k | _ => PBarrier2 end)).
Proof.
  intros Hpc Hp Hc. unfold thread_step. rewrite Hpc.
  assert (Hfa : fetch_add (shared_num_candidates sh) o =
                Ok (c, <[Z.to_nat o := wrap (c + 1)]> (shared_num_candidates sh))).
  { apply fetch_add_Ok. auto. }
  destruct Hp as [->|(k & -> & <-)]; rewrite Hfa; reflexivity.
Qed.

(** The transition of lines 310-313 for a thread whose count of candidates
    is not zero. *)
Lemma hole_test_skips (L : launch) bid lid (g : global_mem) sh (t : thread) c lv :
  t_pc t = PHoleTest ->
  vat (in_params_liveness_view (payload L)) (global_thread_id L bid lid) = Ok lv ->
  vat (shared_num_candidates sh) lid = Ok c ->
  c <> 0 ->
  thread_step L bid lid g sh t = Ok (g, sh, goto t PDone).
Proof.
  intros Hpc Hlv Hc Hnz. unfold thread_step. rewrite Hpc, Hlv. simpl.
  destruct (_ <? _); simpl; [|reflexivity].
  destruct (negb _); simpl; [|reflexivity].
  rewrite Hc. simpl. apply Z.eqb_neq in Hnz. rewrite Hnz. reflexivity.
Qed.

(** C1 (as the code has it). A dequeued pair whose seed counter is at or
    above the cap is not given to the Kalman updater: the transition is the
    same for every updater.  The thread then adds one to the count of
    candidates of the owning thread, and a thread whose count is not zero
    leaves the kernel at the test of the hole inserter without reserving a
    branch. *)
Theorem saturated_pair_not_updated (L : launch) bid lid (g : global_mem) sh
    (t : thread) m o in_par meas seed n :
  t_pc t = PPick ->
  dequeues L bid lid g sh m o in_par meas seed n ->
  max_num_branches_per_seed (cfg L) <= n ->
  (forall upd, thread_step_with upd L bid lid g sh t =
               Ok (g, sh, goto t (PSaturated o)))
  /\ (forall (g2 : global_mem) sh2 (t2 : thread) c,
        t_pc t2 = PSaturated o ->
        vat (shared_num_candidates sh2) o = Ok c ->
        0 <= c < UINT_MAX ->
        exists nc,
          thread_step L bid lid g2 sh2 t2 =
            Ok (g2, set_num_candidates sh2 nc, goto t2 PBarrier2) /\
          vat nc o = Ok (c + 1))
  /\ (forall (g3 : global_mem) sh3 (t3 : thread) c lv,
        t_pc t3 = PHoleTest ->
        vat (in_params_liveness_view (payload L)) (global_thread_id L bid o) = Ok lv ->
        vat (shared_num_candidates sh3) o = Ok c ->
        c <> 0 ->
        thread_step L bid o g3 sh3 t3 = Ok (g3, sh3, goto t3 PDone)).
Proof.
  intros Hpc Hdeq Hsat. split; [|split].
  - intros upd. rewrite (pick_step upd _ _ _ _ _ _ _ _ _ _ _ _ Hpc Hdeq).
    apply Z.ltb_ge in Hsat. rewrite Hsat. reflexivity.
  - intros g2 sh2 t2 c Hpc2 Hc Hrange.
    eexists. split.
    + apply (count_step _ _ _ _ _ _ (PSaturated o) o c Hpc2); auto.
    + pose proof (vat_nonneg _ _ _ Hc) as Ho.
      assert (Hset : vset (shared_num_candidates sh2) o (wrap (c + 1)) =
                     Ok (<[Z.to_nat o := wrap (c + 1)]> (shared_num_candidates sh2))).
      { apply vset_Ok. split; [|reflexivity].
        apply vat_Ok in Hc as [_ Hl]. apply lookup_lt_Some in Hl.
        unfold vsize. lia. }
      rewrite (vat_vset _ _ _ _ _ Hset Ho), bool_decide_eq_true_2 by reflexivity.
      rewrite wrap_small by lia. reflexivity.
  - intros g3 sh3 t3 c lv Hpc3 Hlv Hc Hnz.
    exact (hole_test_skips _ _ _ _ _ _ _ _ Hpc3 Hlv Hc Hnz).
Qed.

(** The transition of lines 252-281 appends the link of the accepted pair. *)
Lemma append_step (L : launch) bid lid (g g' : global_mem) sh sh' (t t' : thread) k :
  t_pc t = PAppend k ->
  thread_step L bid lid g sh t = Ok (g', sh', t') ->
  exists skipped,
    skipped_of (payload L) g (pk_prev_link_idx k) = Ok skipped /\
    links g' = links g ++
      [mk_link (p_step (payload L)) (pk_prev_link_idx k) (pk_meas_idx k)
               (pk_seed_idx k) skipped (filtered_chi2 (pk_state k))] /\
    n_tracks_per_seed g' = n_tracks_per_seed g /\
    sh' = sh /\ t' = goto t PBarrier2.
Proof.
  intros Hpc Hstep. unfold thread_step in Hstep. rewrite Hpc in Hstep.
  apply bind_Ok in Hstep as (_ & _ & Hstep).
  apply bind_Ok in Hstep as (skipped & Hsk & Hstep).
  apply bind_Ok in Hstep as ([l_pos g1] & Hap & Hstep).
  apply append_link_Ok in Hap as (Hl & Ht & Hcs & ->).
  exists skipped. split; [assumption|].
  destruct (last_step L && _); injection Hstep as <- <- <-; simpl; auto.
Qed.

(** The transition of lines 252-281 returns when the assertion of line 257
    holds, the previous link can be read and the output vectors have the
    slot of the new link. *)
Lemma append_total (L : launch) bid lid (g : global_mem) sh (t : thread) k skipped :
  t_pc t = PAppend k ->
  ndebug L = true \/ s_leb s_zero (filtered_chi2 (pk_state k)) = true ->
  skipped_of (payload L) g (pk_prev_link_idx k) = Ok skipped ->
  let slot := wrap (vsize (links g) - curr_links_idx (payload L)) in
  0 <= slot < vsize (out_params g) ->
  0 <= slot < vsize (out_params_liveness g) ->
  exists g' : global_mem,
    thread_step L bid lid g sh t = Ok (g', sh, goto t PBarrier2) /\
    links g' = links g ++
      [mk_link (p_step (payload L)) (pk_prev_link_idx k) (pk_meas_idx k)
               (pk_seed_idx k) skipped (filtered_chi2 (pk_state k))] /\
    vat (out_params g') slot = Ok (filtered (pk_state k)) /\
    vat (out_params_liveness g') slot = Ok (if last_step L then 0 else 1) /\
    n_tracks_per_seed g' = n_tracks_per_seed g /\
    tips g' =
      (if last_step L &&
          (min_track_candidates_per_track (cfg L)
             <=? wrap (wrap (p_step (payload L) + 1) - skipped))
       then tips g ++ [vsize (links g)] else tips g).
Proof.
  intros Hpc Hchi Hsk slot Hout Hlive.
  unfold thread_step. rewrite Hpc.
  assert (Hassert : assert (ndebug L) (s_leb s_zero (filtered_chi2 (pk_state k)))
                      AssertChi2 = Ok tt).
  { unfold assert. destruct Hchi as [-> | ->]; [reflexivity|].
    destruct (ndebug L); reflexivity. }
  rewrite Hassert. simpl. rewrite Hsk. simpl.
  unfold append_link. fold slot.
  assert (Hps : vset (out_params g) slot (filtered (pk_state k)) =
                Ok (<[Z.to_nat slot := filtered (pk_state k)]> (out_params g)))
    by (apply vset_Ok; auto).
  assert (Hlv : vset (out_params_liveness g) slot (if last_step L then 0 else 1) =
                Ok (<[Z.to_nat slot := if last_step L then 0 else 1]>
                      (out_params_liveness g)))
    by (apply vset_Ok; auto).
  rewrite Hps. simpl. rewrite Hlv. simpl.
  assert (Hget : forall {A : Type} (v : list A) (x : A),
            0 <= slot < vsize v -> vat (<[Z.to_nat slot := x]> v) slot = Ok x).
  { intros A v x Hr. apply vat_Ok. split; [lia|].
    apply list_lookup_insert_eq. unfold vsize in Hr. lia. }
  destruct (last_step L && _); eexists; (split; [reflexivity|]); simpl;
    repeat split; auto.
Qed.

(** The assertion of line 257. *)
Lemma append_asserts (L : launch) bid lid (g : global_mem) sh (t : thread) k :
  t_pc t = PAppend k ->
  ndebug L = false -> s_leb s_zero (filtered_chi2 (pk_state k)) = false ->
  thread_step L bid lid g sh t = Fault AssertChi2.
Proof.
  intros Hpc Hnd Hchi. unfold thread_step. rewrite Hpc.
  unfold assert. rewrite Hnd, Hchi. reflexivity.
Qed.

(** C4. A dequeued pair whose seed counter is below the cap is given to the
    Kalman updater.  If the update returns an error, or succeeds with a
    chi-square that is not below [chi2_max], the thread goes to the barrier
    and nothing is written: the two rejections are the same transition, and
    no fault is raised.  If it succeeds with a chi-square below [chi2_max],
    the thread counts the candidate and increments the counter of the seed;
    it goes on to line 252 exactly when the counter was below the cap before
    the increment, and there it appends the link of the pair, writes the
    filtered parameters and the liveness of the slot of the link, and
    returns: provided that the chi-square is not negative where the
    assertion of line 257 is checked, that the previous link can be read,
    and that the output vectors have the slot.  A negative chi-square stops
    the thread at that assertion. *)
Theorem link_appended_iff_accepted (L : launch) bid lid (g : global_mem) sh
    (t : thread) m o in_par meas seed n :
  t_pc t = PPick ->
  dequeues L bid lid g sh m o in_par meas seed n ->
  n < max_num_branches_per_seed (cfg L) ->
  let ts := gain_matrix_updater in_par meas in
  let k := pick_of L bid m o seed ts in
  let prev := wrap (prev_links_idx (payload L) + wrap (o + wrap (blockDim L * bid))) in
  thread_step L bid lid g sh t =
    Ok (g, sh, goto t (match ts_status ts with
                       | SUCCESS =>
                           if s_ltb (filtered_chi2 ts) (chi2_max (cfg L))
                           then PCount k else PBarrier2
                       | ERROR _ => PBarrier2
                       end))
  /\ (forall (g2 : global_mem) sh2 (t2 : thread) c,
        t_pc t2 = PCount k ->
        vat (shared_num_candidates sh2) o = Ok c ->
        thread_step L bid lid g2 sh2 t2 =
          Ok (g2, set_num_candidates sh2
                    (<[Z.to_nat o := wrap (c + 1)]> (shared_num_candidates sh2)),
              goto t2 (PReserve k)))
  /\ (forall (g3 : global_mem) sh3 (t3 : thread) n3,
        t_pc t3 = PReserve k ->
        vat (n_tracks_per_seed g3) seed = Ok n3 ->
        thread_step L bid lid g3 sh3 t3 =
          Ok (set_counters g3 (<[Z.to_nat seed := wrap (n3 + 1)]> (n_tracks_per_seed g3)),
              sh3,
              goto t3 (if n3 <? max_num_branches_per_seed (cfg L)
                       then PAppend k else PBarrier2)))
  /\ (forall (g4 : global_mem) sh4 (t4 : thread) skipped,
        t_pc t4 = PAppend k ->
        ndebug L = true \/ s_leb s_zero (filtered_chi2 ts) = true ->
        skipped_of (payload L) g4 prev = Ok skipped ->
        let slot := wrap (vsize (links g4) - curr_links_idx (payload L)) in
        0 <= slot < vsize (out_params g4) ->
        0 <= slot < vsize (out_params_liveness g4) ->
        exists g4' : global_mem,
          thread_step L bid lid g4 sh4 t4 = Ok (g4', sh4, goto t4 PBarrier2) /\
          links g4' = links g4 ++
            [mk_link (p_step (payload L)) prev m seed skipped (filtered_chi2 ts)] /\
          vat (out_params g4') slot = Ok (filtered ts) /\
          vat (out_params_liveness g4') slot = Ok (if last_step L then 0 else 1) /\
          n_tracks_per_seed g4' = n_tracks_per_seed g4)
  /\ (forall (g4 : global_mem) sh4 (t4 : thread),
        t_pc t4 = PAppend k ->
        ndebug L = false -> s_leb s_zero (filtered_chi2 ts) = false ->
        thread_step L bid lid g4 sh4 t4 = Fault AssertChi2).
Proof.
  intros Hpc Hdeq Hn ts k prev. split; [|split; [|split; [|split]]].
  - rewrite (pick_step _ _ _ _ _ _ _ _ _ _ _ _ _ Hpc Hdeq).
    apply Z.ltb_lt in Hn. rewrite Hn. unfold accepted. fold ts k.
    destruct (ts_status ts); reflexivity.
  - intros g2 sh2 t2 c Hpc2 Hc.
    apply (count_step _ _ _ _ _ _ (PCount k) o c Hpc2); [|assumption].
    right. exists k. auto.
  - intros g3 sh3 t3 n3 Hpc3 Hn3.
    apply (reserve_step _ _ _ _ _ _ k n3 Hpc3 Hn3).
  - intros g4 sh4 t4 skipped Hpc4 Hchi Hsk slot Hout Hlive.
    destruct (append_total L bid lid g4 sh4 t4 k skipped Hpc4 Hchi Hsk Hout Hlive)
      as (g4' & Hstep & Hl & Hp & Hv & Hc & _).
    exists g4'. auto.
  - intros g4 sh4 t4 Hpc4 Hnd Hchi.
    exact (append_asserts L bid lid g4 sh4 t4 k Hpc4 Hnd Hchi).
Qed.

(** ** The counter only grows *)

(** The transition of lines 315-321. *)
Lemma hole_reserve_step (L : launch) bid lid (g : global_mem) sh (t : thread) seed n :
  t_pc t = PHoleReserve ->
  let prev := wrap (prev_links_idx (payload L) + global_thread_id L bid lid) in
  seed_of (payload L) g prev (global_thread_id L bid lid) = Ok seed ->
  vat (n_tracks_per_seed g) seed = Ok n ->
  thread_step L bid lid g sh t =
  Ok (set_counters g (<[Z.to_nat seed := wrap (n + 1)]> (n_tracks_per_seed g)),
      sh,
      goto t (if n <? max_num_branches_per_seed (cfg L)
              then PHoleEmit prev seed else PDone)).
Proof.
  intros Hpc prev Hseed Hn. unfold thread_step. rewrite Hpc.
  fold prev. rewrite Hseed. simpl.
  assert (Hfa : fetch_add (n_tracks_per_seed g) seed =
                Ok (n, <[Z.to_nat seed := wrap (n + 1)]> (n_tracks_per_seed g))).
  { apply fetch_add_Ok. auto. }
  rewrite Hfa. simpl. destruct (n <? _); reflexivity.
Qed.

Lemma vat_insert_same (cs : list Z) (i n x : Z) :
  vat cs i = Ok n -> vat (<[Z.to_nat i := x]> cs) i = Ok x.
Proof.
  intros [Hi Hl]%vat_Ok. apply vat_Ok. split; [assumption|].
  apply list_lookup_insert_eq. apply lookup_lt_Some in Hl. assumption.
Qed.

(** C9. No transition of the grid lowers a counter.  Both the acceptance
    path (line 248) and the hole path (line 321) add one to the counter of
    the seed before they compare the value they found with the cap, so an
    attempt that is then rejected has used an increment: it leaves the
    counter above the cap and the link table as it was. *)
Theorem branch_counter_increment_only (L : launch) :
  let cap := max_num_branches_per_seed (cfg L) in
  (forall (i : nat) (s s' : grid),
     grid_step L i s = Ok s' ->
     counters_below 1 (n_tracks_per_seed (glob s)) ->
     forall seed n', vat (n_tracks_per_seed (glob s')) seed = Ok n' ->
       exists n, vat (n_tracks_per_seed (glob s)) seed = Ok n /\ n <= n' <= n + 1)
  /\ (forall bid lid (g : global_mem) sh (t : thread) k n,
        t_pc t = PReserve k ->
        vat (n_tracks_per_seed g) (pk_seed_idx k) = Ok n ->
        0 <= n < UINT_MAX ->
        exists (g' : global_mem) (t' : thread),
          thread_step L bid lid g sh t = Ok (g', sh, t') /\
          vat (n_tracks_per_seed g') (pk_seed_idx k) = Ok (n + 1) /\
          links g' = links g /\
          (cap <= n -> t_pc t' = PBarrier2 /\ cap < n + 1))
  /\ (forall bid lid (g : global_mem) sh (t : thread) seed n,
        t_pc t = PHoleReserve ->
        seed_of (payload L) g
                (wrap (prev_links_idx (payload L) + global_thread_id L bid lid))
                (global_thread_id L bid lid) = Ok seed ->
        vat (n_tracks_per_seed g) seed = Ok n ->
        0 <= n < UINT_MAX ->
        exists (g' : global_mem) (t' : thread),
          thread_step L bid lid g sh t = Ok (g', sh, t') /\
          vat (n_tracks_per_seed g') seed = Ok (n + 1) /\
          links g' = links g /\
          (cap <= n -> t_pc t' = PDone /\ cap < n + 1)).
Proof.
  intros cap. split; [|split].
  - intros i s s' Hstep Hbelow seed n' Hn'.
    destruct (grid_step_budget _ _ _ _ Hstep Hbelow seed n' Hn') as (n & Hn & Hr & _).
    eauto.
  - intros bid lid g sh t k n Hpc Hn Hr.
    do 2 eexists. split; [apply (reserve_step _ _ _ _ _ _ k n Hpc Hn)|].
    simpl. rewrite (vat_insert_same _ _ _ _ Hn), wrap_small by lia.
    split; [reflexivity|]. split; [reflexivity|].
    intros Hcap. apply Z.ltb_ge in Hcap as Hcap'. fold cap. rewrite Hcap'.
    split; [reflexivity | lia].
  - intros bid lid g sh t seed n Hpc Hseed Hn Hr.
    do 2 eexists. split; [apply (hole_reserve_step _ _ _ _ _ _ seed n Hpc Hseed Hn)|].
    simpl. rewrite (vat_insert_same _ _ _ _ Hn), wrap_small by lia.
    split; [reflexivity|]. split; [reflexivity|].
    intros Hcap. apply Z.ltb_ge in Hcap as Hcap'. fold cap. rewrite Hcap'.
    split; [reflexivity | lia].
Qed.

(** ** A saturated slot stops enqueueing *)

(** The transition of lines 161-171 when the counter is at or above the
    cap. *)
Lemma fill_check_saturated (L : launch) bid lid (g : global_mem) sh (t : thread) seed n :
  t_pc t = PFillCheck ->
  (if 0 <? p_step (payload L)
   then l ← vat (links g) (wrap (prev_links_idx (payload L) + global_thread_id L bid lid));
        mret (seed_idx l)
   else mret (global_thread_id L bid lid)) = Ok seed ->
  vat (n_tracks_per_seed g) seed = Ok n ->
  max_num_branches_per_seed (cfg L) <= n ->
  thread_step L bid lid g sh t =
  Ok (g, sh, mk_thread PBarrier1 (init_meas t) (num_meas t) (num_meas t)).
Proof.
  intros Hpc Hseed Hn Hsat. unfold thread_step. rewrite Hpc, Hseed. simpl.
  rewrite Hn. simpl. apply Z.leb_le in Hsat. rewrite Hsat. reflexivity.
Qed.

Lemma thread_step_retired (L : launch) bid lid (g g' : global_mem) sh sh'
    (t t' : thread) :
  thread_step L bid lid g sh t = Ok (g', sh', t') ->
  retired t -> retired t' /\ num_meas t' = num_meas t.
Proof.
  intros Hstep [Hcurr Hpc]. unfold thread_step in Hstep.
  destruct t as [p im nm cm]; simpl in *; subst cm.
  destruct p; try contradiction; simpl in Hstep.
  all: try rewrite Z.ltb_irrefl in Hstep; simpl in Hstep.
  all: inv_ok; repeat split; simpl; auto.
Qed.

Lemma release_retired (L : launch) (b : Z) (bar : barrier) (ts : list thread)
    (i : nat) (t : thread) :
  ts !! i = Some t -> retired t ->
  exists t', release L b bar ts !! i = Some t' /\ retired t' /\
             num_meas t' = num_meas t.
Proof.
  intros Hi [Hcurr Hpc]. unfold release. rewrite list_lookup_imap, Hi. simpl.
  destruct (in_block L b i); simpl;
    [|eexists; split; [reflexivity|repeat split; assumption]].
  case_bool_decide as Hw; [|eexists; split; [reflexivity|repeat split; assumption]].
  eexists. split; [reflexivity|]. split; [|reflexivity]. split; [assumption|].
  destruct t as [p im nm cm]; destruct p; simpl in *; try discriminate;
    try contradiction; injection Hw as <-; simpl;
    try match goal with |- context [if ?c then _ else _] => destruct c end;
    exact I.
Qed.

Lemma grid_step_retired (L : launch) (j : nat) (s s' : grid) (i : nat) (t : thread) :
  grid_step L j s = Ok s' ->
  threads s !! i = Some t -> retired t ->
  exists t', threads s' !! i = Some t' /\ retired t' /\ num_meas t' = num_meas t.
Proof.
  intros Hstep Hi Hret. unfold grid_step in Hstep.
  destruct (threads s !! j) as [tj|] eqn:Hj.
  - destruct (waiting (t_pc tj)) as [bar|] eqn:Hw.
    + destruct (all_arrived _ _ _ _); injection Hstep as <-; simpl.
      * apply (release_retired _ _ _ _ _ t); assumption.
      * eauto.
    + apply bind_Ok in Hstep as (sh & Hsh & Hstep).
      apply bind_Ok in Hstep as ([[g1 sh1] t1] & Hts & Hstep).
      injection Hstep as <-. simpl.
      destruct (decide (i = j)) as [->|Hne].
      * rewrite list_lookup_insert_eq by (apply lookup_lt_Some in Hj; assumption).
        rewrite Hi in Hj. injection Hj as <-.
        eexists. split; [reflexivity|].
        exact (thread_step_retired _ _ _ _ _ _ _ _ _ Hts Hret).
      * rewrite list_lookup_insert_ne by auto. eauto.
  - injection Hstep as <-. eauto.
Qed.

Lemma run_retired (L : launch) (sched : list nat) (s s' : grid) (i : nat) (t : thread) :
  run L sched s = Ok s' ->
  threads s !! i = Some t -> retired t ->
  exists t', threads s' !! i = Some t' /\ retired t' /\ num_meas t' = num_meas t.
Proof.
  revert s t. induction sched as [|j sched IH]; intros s t Hrun Hi Hret;
    simpl in Hrun.
  - injection Hrun as <-. eauto.
  - apply bind_Ok in Hrun as (s1 & Hstep & Hrun).
    destruct (grid_step_retired _ _ _ _ _ _ Hstep Hi Hret) as (t1 & Hi1 & Hret1 & Hnm1).
    destruct (IH _ _ Hrun Hi1 Hret1) as (t2 & Hi2 & Hret2 & Hnm2).
    exists t2. rewrite Hnm2, Hnm1. auto.
Qed.

(** C10. A thread that finds the counter of its seed at or above the cap in
    the enqueue loop sets its cursor to the end of its range and leaves the
    loop without touching the shared buffer.  From then on, whatever the
    schedule, its cursor stays at the end of the range and the thread is
    never again at the push of line 172: the measurements it had left are
    not enqueued in this launch. *)
Theorem saturated_slot_stops_enqueueing (L : launch) (i : nat) (s : grid)
    (t : thread) sh seed n :
  threads s !! i = Some t ->
  t_pc t = PFillCheck ->
  vat (blocks s) (block_of L i) = Ok sh ->
  (if 0 <? p_step (payload L)
   then l ← vat (links (glob s))
              (wrap (prev_links_idx (payload L) +
                     global_thread_id L (block_of L i) (local_of L i)));
        mret (seed_idx l)
   else mret (global_thread_id L (block_of L i) (local_of L i))) = Ok seed ->
  vat (n_tracks_per_seed (glob s)) seed = Ok n ->
  max_num_branches_per_seed (cfg L) <= n ->
  grid_step L i s =
    Ok (mk_grid (glob s) (blocks s)
          (<[i := mk_thread PBarrier1 (init_meas t) (num_meas t) (num_meas t)]>
             (threads s)))
  /\ forall sched s',
       run L (i :: sched) s = Ok s' ->
       exists t', threads s' !! i = Some t' /\ retired t' /\
                  curr_meas t' = num_meas t /\ t_pc t' <> PFillPush.
Proof.
  intros Hi Hpc Hsh Hseed Hn Hsat.
  assert (Hstep : grid_step L i s =
    Ok (mk_grid (glob s) (blocks s)
          (<[i := mk_thread PBarrier1 (init_meas t) (num_meas t) (num_meas t)]>
             (threads s)))).
  { unfold grid_step. rewrite Hi, Hpc. simpl. rewrite Hsh. simpl.
    rewrite (fill_check_saturated _ _ _ _ _ _ seed n Hpc Hseed Hn Hsat). simpl.
    apply vat_Ok in Hsh as [_ Hsh]. rewrite (list_insert_id _ _ _ Hsh).
    reflexivity. }
  split; [assumption|].
  intros sched s' Hrun. simpl in Hrun. rewrite Hstep in Hrun. simpl in Hrun.
  set (t1 := mk_thread PBarrier1 (init_meas t) (num_meas t) (num_meas t)) in *.
  assert (Hret : retired t1) by (split; [reflexivity | exact I]).
  assert (Hi1 : (<[i := t1]> (threads s)) !! i = Some t1).
  { apply list_lookup_insert_eq. apply lookup_lt_Some in Hi. assumption. }
  destruct (run_retired L sched _ s' i t1 Hrun Hi1 Hret) as (t' & Hi' & Hret' & Hnm).
  exists t'. split; [assumption|]. split; [assumption|].
  destruct Hret' as [Hcurr Hpc']. split.
  - rewrite Hcurr, Hnm. reflexivity.
  - intros Heq. rewrite Heq in Hpc'. exact Hpc'.
Qed.

(** ** The chains of a well-formed link table *)

Lemma wf_links_lookup nd n_meas n_seeds (ls : list candidate_link) (i : nat)
    (l : candidate_link) :
  wf_links nd n_meas n_seeds ls = true ->
  ls !! i = Some l ->
  n_meas <= UINT_MAX /\ link_ok nd n_meas n_seeds ls i l = true.
Proof.
  unfold wf_links. intros [Hn Hall]%andb_true_iff Hi.
  split; [apply Z.leb_le; assumption|].
  rewrite forallb_forall in Hall.
  apply (Hall (i, l)). apply list_elem_of_In.
  apply list_elem_of_lookup. exists i.
  rewrite list_lookup_imap, Hi. reflexivity.
Qed.

Lemma wf_node_ok nd (P : build_tracks_payload) (i : nat) (l : candidate_link) :
  wf_links nd (vsize (bt_measurements P)) (vsize (bt_seeds P)) (bt_links P) = true ->
  bt_links P !! i = Some l ->
  node_ok nd P l.
Proof.
  intros Hwf Hi. destruct (wf_links_lookup _ _ _ _ _ _ Hwf Hi) as [Hn Hok].
  unfold link_ok in Hok.
  repeat (apply andb_true_iff in Hok as [Hok ?]).
  unfold node_ok. split; [lia|]. split.
  - destruct (is_hole l) eqn:Hh.
    + unfold is_hole, hole_idx in Hh. lia.
    + simpl in *.
      repeat match goal with
      | Hc : (_ && _) = true |- _ => apply andb_true_iff in Hc as [? ?]
      end.
      split.
      * assert (Hlt : (Z.to_nat (meas_idx l) < length (bt_measurements P))%nat)
          by (unfold vsize in *; lia).
        apply lookup_lt_is_Some_2 in Hlt as [m Hm]. exists m.
        apply vat_Ok. split; [lia | assumption].
      * intros ->. simpl in *.
        match goal with
        | Hc : (_ && _) = true |- _ => apply andb_true_iff in Hc as [? ?]
        end. auto.
  - assert (Hlt : (Z.to_nat (seed_idx l) < length (bt_seeds P))%nat)
      by (unfold vsize in *; lia).
    apply lookup_lt_is_Some_2 in Hlt as [sd Hsd]. exists sd.
    apply vat_Ok. split; [lia | assumption].
Qed.

Lemma wf_chain nd (P : build_tracks_payload) :
  wf_links nd (vsize (bt_measurements P)) (vsize (bt_seeds P)) (bt_links P) = true ->
  forall (i : Z) (l : candidate_link),
    vat (bt_links P) i = Ok l -> exists ch, chain_from nd P i l ch.
Proof.
  intros Hwf i. remember (Z.to_nat i) as n eqn:Hn.
  revert i Hn. induction n as [n IH] using lt_wf_ind. intros i -> l Hl.
  pose proof Hl as [Hi Hlk]%vat_Ok.
  pose proof (wf_node_ok _ _ _ _ Hwf Hlk) as Hnode.
  destruct (wf_links_lookup _ _ _ _ _ _ Hwf Hlk) as [_ Hok].
  unfold link_ok in Hok. apply andb_true_iff in Hok as [_ Hpar].
  destruct (Z.eqb_spec (step l) 0) as [H0|H0].
  - exists [(i, l)]. apply chain_root; auto. lia.
  - repeat match type of Hpar with
    | (_ && _) = true => apply andb_true_iff in Hpar as [Hpar ?]
    end.
    destruct (bt_links P !! Z.to_nat (previous_candidate_idx l)) as [p|] eqn:Hp;
      [|discriminate].
    repeat match goal with
    | Hc : (_ && _) = true |- _ => apply andb_true_iff in Hc as [? ?]
    end.
    assert (Hlt : (Z.to_nat (previous_candidate_idx l) < Z.to_nat i)%nat).
    { match goal with Hc : (_ <? _)%nat = true |- _ => apply Nat.ltb_lt in Hc end.
      assumption. }
    assert (Hvp : vat (bt_links P) (previous_candidate_idx l) = Ok p).
    { apply vat_Ok. split; [lia | assumption]. }
    destruct (IH _ Hlt (previous_candidate_idx l) eq_refl p Hvp) as (rest & Hrest).
    exists ((i, l) :: rest).
    apply (chain_step nd P i l p rest); auto; lia.
Qed.

Lemma chain_head nd (P : build_tracks_payload) i l ch :
  chain_from nd P i l ch ->
  exists rest, ch = (i, l) :: rest /\ vat (bt_links P) i = Ok l /\ node_ok nd P l.
Proof. intros Hch. destruct Hch; eauto. Qed.

(** A chain has one record per step, and as many without a measurement as
    its first record has skipped. *)
Lemma chain_count nd (P : build_tracks_payload) i l ch :
  chain_from nd P i l ch ->
  Z.of_nat (length ch) = step l + 1 /\
  Z.of_nat (length (with_measurement ch)) = step l + 1 - n_skipped l.
Proof.
  unfold with_measurement.
  induction 1 as [i l Hl Hnode H0 Hsk | i l p rest Hl Hnode H0 Hprev Hstep Hsk Hch [IH1 IH2]];
    simpl; unfold hole_count in *.
  - destruct (is_hole l); simpl; lia.
  - destruct (is_hole l); simpl length; lia.
Qed.

(** The indices of a chain decrease. *)
Lemma chain_indices nd (P : build_tracks_payload) i l ch :
  chain_from nd P i l ch ->
  Forall (fun il => 0 <= il.1 <= i) ch /\ NoDup (map fst ch).
Proof.
  induction 1 as [i l Hl Hnode H0 Hsk | i l p rest Hl Hnode H0 Hprev Hstep Hsk Hch [IH1 IH2]];
    simpl.
  - apply vat_nonneg in Hl. split.
    + repeat constructor; simpl; lia.
    + apply NoDup_singleton.
  - apply vat_nonneg in Hl. split.
    + constructor; [simpl; lia|].
      eapply Forall_impl; [exact IH1|]. simpl. intros. lia.
    + apply NoDup_cons. split; [|assumption].
      intros Hin. apply list_elem_of_fmap in Hin as ([j lj] & Hj & Hin).
      rewrite Forall_forall in IH1. specialize (IH1 _ Hin). simpl in *. lia.
Qed.

Lemma chain_ancestors nd (P : build_tracks_payload) i l ch :
  chain_from nd P i l ch ->
  forall fuel, (length ch <= fuel)%nat -> ancestors fuel (bt_links P) i = ch.
Proof.
  induction 1 as [i l Hl Hnode H0 Hsk | i l p rest Hl Hnode H0 Hprev Hstep Hsk Hch IH];
    intros [|fuel] Hfuel; simpl in *; try lia; rewrite Hl.
  - apply Z.eqb_eq in H0. rewrite H0. reflexivity.
  - apply Z.eqb_neq in H0. rewrite H0. rewrite IH by lia. reflexivity.
Qed.

Lemma chain_short nd (P : build_tracks_payload) i l ch :
  chain_from nd P i l ch -> (length ch <= S (Z.to_nat i))%nat.
Proof.
  induction 1 as [i l Hl Hnode H0 Hsk | i l p rest Hl Hnode H0 Hprev Hstep Hsk Hch IH];
    simpl; lia.
Qed.

Lemma chain_is_chain nd (P : build_tracks_payload) i l ch :
  chain_from nd P i l ch -> chain (bt_links P) i = ch.
Proof.
  intros Hch. unfold chain. apply (chain_ancestors _ _ _ _ _ Hch).
  pose proof (chain_short _ _ _ _ _ Hch) as Hshort.
  destruct (chain_head _ _ _ _ _ Hch) as (_ & _ & [_ Hl]%vat_Ok & _).
  apply lookup_lt_Some in Hl. lia.
Qed.

(** The loop of lines 59-62 on a chain: it drops the leading records
    without a measurement, and stops at a record with one or at step 0. *)
Lemma skip_holes_chain nd (P : build_tracks_payload) i l ch :
  chain_from nd P i l ch ->
  forall fuel vis, (Z.to_nat i < fuel)%nat ->
  exists hs i' l' ch',
    ch = hs ++ ch' /\ chain_from nd P i' l' ch' /\
    with_measurement hs = [] /\
    (is_hole l' = false \/ step l' = 0) /\
    (Z.to_nat i' <= Z.to_nat i)%nat /\
    skip_holes fuel (bt_links P) (vsize (bt_measurements P)) l (i :: vis) =
      Ok (l', i' :: rev (map fst hs) ++ vis).
Proof.
  induction 1 as [i l Hl Hnode H0 Hsk | i l p rest Hl Hnode H0 Hprev Hstep Hsk Hch IH];
    intros fuel vis Hfuel.
  - exists [], i, l, [(i, l)]. split; [reflexivity|].
    split; [apply chain_root; assumption|]. split; [reflexivity|].
    split; [right; assumption|]. split; [lia|].
    destruct fuel; simpl; apply Z.eqb_eq in H0; rewrite H0, andb_false_r;
      reflexivity.
  - destruct (is_hole l) eqn:Hh.
    + destruct fuel as [|fuel]; [lia|].
      destruct (IH fuel (i :: vis)) as (hs & i' & l' & ch' & -> & Hch' & Hhs & Hstop & Hle & Hskip);
        [lia|].
      exists ((i, l) :: hs), i', l', ch'. split; [reflexivity|].
      split; [assumption|]. split.
      { unfold with_measurement in *. simpl. rewrite Hh. simpl. assumption. }
      split; [assumption|]. split; [lia|].
      simpl. destruct Hnode as (_ & Hm & _). rewrite Hh in Hm.
      apply Z.leb_le in Hm. rewrite Hm.
      apply Z.eqb_neq in H0. rewrite H0. simpl.
      destruct (chain_head _ _ _ _ _ Hch) as (_ & _ & Hp & _).
      rewrite Hp. simpl. rewrite Hskip. rewrite <- app_assoc. reflexivity.
    + exists [], i, l, ((i, l) :: rest). split; [reflexivity|].
      split; [apply (chain_step nd P i l p rest); assumption|].
      split; [reflexivity|]. split; [left; assumption|]. split; [lia|].
      destruct Hnode as (_ & Hm & _). rewrite Hh in Hm.
      destruct Hm as [[m Hm] _]. apply vat_Ok in Hm as [? Hm].
      apply lookup_lt_Some in Hm.
      assert (Hlt : (vsize (bt_measurements P) <=? meas_idx l) = false).
      { apply Z.leb_gt. unfold vsize. lia. }
      destruct fuel; simpl; rewrite Hlt; reflexivity.
Qed.

Lemma with_measurement_app (hs ch : list (Z * candidate_link)) :
  with_measurement (hs ++ ch) = with_measurement hs ++ with_measurement ch.
Proof. unfold with_measurement. apply List.filter_app. Qed.

Lemma assert_true (nd : bool) (c : bool) (f : fault) :
  (nd = false -> c = true) -> assert nd c f = Ok tt.
Proof. unfold assert. destruct nd; [reflexivity|]. intros ->; reflexivity. Qed.

(** The loop of lines 56-87 on a chain with [k] records that carry a
    measurement. *)
Lemma fill_chain nd (P : build_tracks_payload) (k : nat) :
  forall i l ch (w : walk) vis0,
    chain_from nd P i l ch ->
    length (with_measurement ch) = k ->
    w_link w = l -> visited w = i :: vis0 ->
    exists (w' : walk) pre post,
      fill_candidates nd P k w = Ok w' /\
      ch = pre ++ post /\
      visited w' = rev (map fst pre) ++ vis0 /\
      w_items w' = rev (measurements_of (bt_measurements P) (with_measurement ch))
                   ++ w_items w /\
      num_inserted w' = num_inserted w + Z.of_nat k /\
      ndf_sum w' = foldl (fun acc m => s_add acc (s_of_uint (meas_dim m))) (ndf_sum w)
                     (measurements_of (bt_measurements P) (with_measurement ch)) /\
      chi2_sum w' = foldl (fun acc il => s_add acc (chi2 il.2)) (chi2_sum w)
                      (with_measurement ch) /\
      match last (with_measurement ch) with
      | None => w_seed w' = w_seed w /\ w_quality w' = w_quality w
      | Some il =>
          vat (bt_seeds P) (seed_idx il.2) = Ok (w_seed w') /\
          w_quality w' =
            mk_quality (s_sub (ndf_sum w') s_five) (chi2_sum w')
                       (prob (chi2_sum w') (s_sub (ndf_sum w') s_five))
                       (n_skipped il.2)
      end.
Proof.
  induction k as [|k IH]; intros i l ch w vis0 Hch Hk Hw Hvis.
  - exists w, [(i, l)].
    destruct (chain_head _ _ _ _ _ Hch) as (rest & -> & _ & _).
    exists rest. apply length_zero_iff_nil in Hk. rewrite Hk. simpl.
    rewrite Z.add_0_r. auto 10.
  - destruct (chain_head _ _ _ _ _ Hch) as (_ & _ & [_ Hli]%vat_Ok & _).
    apply lookup_lt_Some in Hli.
    destruct (skip_holes_chain _ _ _ _ _ Hch (length (bt_links P)) vis0 Hli)
      as (hs & i' & l' & ch' & -> & Hch' & Hhs & Hstop & _ & Hskip).
    rewrite with_measurement_app, Hhs in Hk |- *. simpl app in Hk |- *.
    destruct (chain_head _ _ _ _ _ Hch') as (rest' & -> & Hl' & Hnode).
    assert (Hh : is_hole l' = false).
    { destruct Hstop as [?|H0]; [assumption|].
      destruct (is_hole l') eqn:Hh; [|reflexivity].
      inversion Hch'; subst; [|contradiction].
      unfold with_measurement in Hk. simpl in Hk. rewrite Hh in Hk. discriminate. }
    unfold with_measurement in Hk |- *. simpl List.filter in Hk |- *.
    rewrite Hh in Hk |- *. simpl negb in Hk |- *. cbv iota in Hk |- *.
    fold (with_measurement rest') in Hk |- *.
    simpl length in Hk. injection Hk as Hk.
    destruct Hnode as (Hstep & Hm & [sd Hsd]). rewrite Hh in Hm.
    destruct Hm as [[m Hm] Hchi].
    pose proof Hm as [Hm0 Hmlk]%vat_Ok.
    assert (Hmo : measurements_of (bt_measurements P) ((i', l') :: with_measurement rest')
                  = m :: measurements_of (bt_measurements P) (with_measurement rest')).
    { unfold measurements_of. simpl. rewrite Hmlk. reflexivity. }
    rewrite Hmo.
    assert (Hbody : forall K,
      ('(l0, vis) ← skip_holes (length (bt_links P)) (bt_links P)
                      (vsize (bt_measurements P)) (w_link w) (visited w);
       _ ← assert nd (meas_idx l0 <? vsize (bt_measurements P)) AssertMeasIdx;
       m0 ← vat (bt_measurements P) (meas_idx l0);
       _ ← assert nd (s_ltb (chi2 l0) s_max) AssertChi2;
       _ ← assert nd (s_leb s_zero (chi2 l0)) AssertChi2;
       K l0 vis m0) = K l' (i' :: rev (map fst hs) ++ vis0) m :> result walk).
    { intros K. rewrite Hw, Hvis, Hskip. simpl.
      rewrite (assert_true nd (meas_idx l' <? vsize (bt_measurements P)) AssertMeasIdx).
      2:{ intros _. apply Z.ltb_lt. apply lookup_lt_Some in Hmlk.
          unfold vsize. lia. }
      simpl. rewrite Hm. simpl.
      rewrite (assert_true nd (s_ltb (chi2 l') s_max) AssertChi2)
        by (intros Hnd; apply Hchi; assumption).
      simpl.
      rewrite (assert_true nd (s_leb s_zero (chi2 l')) AssertChi2)
        by (intros Hnd; apply Hchi; assumption).
      reflexivity. }
    destruct k as [|k].
    + (* the iterator is at the first candidate *)
      apply length_zero_iff_nil in Hk.
      simpl fill_candidates.
      rewrite (Hbody (fun l0 vis m0 => _)). rewrite Hsd. simpl.
      eexists. exists (hs ++ [(i', l')]), rest'.
      split; [reflexivity|]. rewrite Hk. simpl.
      split; [rewrite <- app_assoc; reflexivity|].
      split; [rewrite map_app, rev_app_distr; reflexivity|].
      repeat split; auto.
    + (* one more candidate to fill *)
      assert (Hne : rest' <> []).
      { intros ->. discriminate. }
      inversion Hch' as [| ? ? p rest Hl0 Hnode0 H0 Hprev Hps Hsk Hrest]; subst;
        [contradiction|].
      destruct (chain_head _ _ _ _ _ Hrest) as (_ & _ & Hp & _).
      set (vis1 := i' :: rev (map fst hs) ++ vis0).
      set (w1 := mk_walk p (s_add (ndf_sum w) (s_of_uint (meas_dim m)))
                   (s_add (chi2_sum w) (chi2 l')) (num_inserted w + 1)
                   (w_seed w) (w_quality w) (m :: w_items w)
                   (previous_candidate_idx l' :: vis1)).
      destruct (IH (previous_candidate_idx l') p rest' w1 vis1 Hrest Hk eq_refl eq_refl)
        as (w' & pre & post & Hfill & Hsplit & Hv & Hit & Hnum & Hndf & Hchi2 & Hlast).
      exists w', (hs ++ (i', l') :: pre), post.
      split.
      { change (fill_candidates nd P (S (S k)) w) with
          ('(l0, vis) ← skip_holes (length (bt_links P)) (bt_links P)
                          (vsize (bt_measurements P)) (w_link w) (visited w);
           _ ← assert nd (meas_idx l0 <? vsize (bt_measurements P)) AssertMeasIdx;
           m0 ← vat (bt_measurements P) (meas_idx l0);
           _ ← assert nd (s_ltb (chi2 l0) s_max) AssertChi2;
           _ ← assert nd (s_leb s_zero (chi2 l0)) AssertChi2;
           (fun l0 vis m0 =>
              l1 ← vat (bt_links P) (previous_candidate_idx l0);
              fill_candidates nd P (S k)
                (mk_walk l1 (s_add (ndf_sum w) (s_of_uint (meas_dim m0)))
                   (s_add (chi2_sum w) (chi2 l0)) (num_inserted w + 1)
                   (w_seed w) (w_quality w) (m0 :: w_items w)
                   (previous_candidate_idx l0 :: vis))) l0 vis m0).
        rewrite Hbody. rewrite Hp. simpl. exact Hfill. }
      split; [rewrite Hsplit, <- app_assoc; reflexivity|].
      split.
      { rewrite Hv. unfold vis1. rewrite map_app, rev_app_distr. simpl.
        rewrite <- !app_assoc. reflexivity. }
      split.
      { rewrite Hit. simpl. rewrite <- app_assoc. reflexivity. }
      split; [rewrite Hnum; simpl; lia|].
      split; [rewrite Hndf; reflexivity|].
      split; [rewrite Hchi2; reflexivity|].
      destruct (with_measurement rest') as [|x xs] eqn:Hwm; [discriminate|].
      exact Hlast.
Qed.

Lemma chain_measurements_length nd (P : build_tracks_payload) i l ch :
  chain_from nd P i l ch ->
  length (measurements_of (bt_measurements P) (with_measurement ch)) =
  length (with_measurement ch).
Proof.
  unfold measurements_of, with_measurement.
  induction 1 as [i l Hl Hnode H0 Hsk | i l p rest Hl Hnode H0 Hprev Hstep Hsk Hch IH];
    simpl; destruct Hnode as (_ & Hm & _); destruct (is_hole l); simpl; auto;
    destruct Hm as [[m [_ Hm]%vat_Ok] _]; rewrite Hm; simpl; auto.
Qed.

(** build_tracks on the tip of a well-formed link table. *)
Lemma build_tracks_chain nd (P : build_tracks_payload) (gi tip : Z)
    (l : candidate_link) (tc : track_candidate) :
  wf_links nd (vsize (bt_measurements P)) (vsize (bt_seeds P)) (bt_links P) = true ->
  vat (bt_tips P) gi = Ok tip ->
  vat (bt_links P) tip = Ok l ->
  let em := with_measurement (chain (bt_links P) tip) in
  exists (tc' : track_candidate) vis,
    build_tracks nd gi P tc = Ok (tc', vis) /\
    NoDup vis /\
    (forall j, j ∈ vis -> j ∈ map fst (chain (bt_links P) tip)) /\
    items tc' = rev (measurements_of (bt_measurements P) em) /\
    Z.of_nat (length (items tc')) = step l + 1 - n_skipped l /\
    match last em with
    | None => seed_params tc' = seed_params tc /\ trk_quality tc' = trk_quality tc
    | Some il =>
        vat (bt_seeds P) (seed_idx il.2) = Ok (seed_params tc') /\
        trk_quality tc' =
          let n := s_sub (sum_dims meas_dim (measurements_of (bt_measurements P) em)) s_five in
          mk_quality n (sum_chi2 em) (prob (sum_chi2 em) n) (n_skipped il.2)
    end.
Proof.
  intros Hwf Htip Hl em.
  destruct (wf_chain _ _ Hwf tip l Hl) as (ch & Hch).
  pose proof (chain_is_chain _ _ _ _ _ Hch) as Hchain.
  pose proof (chain_count _ _ _ _ _ Hch) as [Hlen Hcnt].
  pose proof (chain_indices _ _ _ _ _ Hch) as [_ Hnd].
  pose proof (chain_measurements_length _ _ _ _ _ Hch) as Hml.
  destruct (chain_head _ _ _ _ _ Hch) as (_ & _ & _ & (Hstep & _)).
  subst em. rewrite Hchain.
  set (k := length (with_measurement ch)) in *.
  set (w0 := mk_walk l s_zero s_zero 0 (seed_params tc) (trk_quality tc)
                    ([] : list measurement) [tip]).
  destruct (fill_chain nd P k tip l ch w0 [] Hch eq_refl eq_refl eq_refl)
    as (w' & pre & post & Hfill & Hsplit & Hv & Hit & Hnum & Hndf & Hchi2 & Hlast).
  assert (Hkle : (k <= length ch)%nat) by apply List.filter_length_le.
  assert (Hn : wrap (wrap (step l + 1) - n_skipped l) = Z.of_nat k).
  { rewrite (wrap_small (step l + 1)) by (unfold UINT_MAX in *; lia).
    rewrite wrap_small by (unfold UINT_MAX in *; lia). lia. }
  exists (mk_track (w_seed w') (w_quality w') (w_items w')), (visited w').
  split.
  { unfold build_tracks.
    pose proof Htip as [Hgi Hlk]%vat_Ok. apply lookup_lt_Some in Hlk.
    assert (Hge : (vsize (bt_tips P) <=? gi) = false)
      by (apply Z.leb_gt; unfold vsize; lia).
    rewrite Hge, Htip. simpl. rewrite Hl. simpl.
    rewrite Hn, Nat2Z.id. fold w0. rewrite Hfill. simpl.
    rewrite assert_true; [reflexivity|].
    intros _. rewrite Hnum. simpl. apply Z.eqb_eq. lia. }
  assert (Hpre : NoDup (map fst pre)).
  { rewrite Hsplit, map_app in Hnd. apply NoDup_app in Hnd. tauto. }
  simpl in Hit, Hndf, Hchi2, Hlast. rewrite app_nil_r in Hit, Hv.
  split.
  { rewrite Hv. apply NoDup_ListNoDup, List.NoDup_rev, NoDup_ListNoDup.
    assumption. }
  split.
  { intros j Hj. rewrite Hv in Hj.
    apply list_elem_of_In, List.in_rev, list_elem_of_In in Hj.
    rewrite Hsplit, map_app. apply elem_of_app. left. assumption. }
  split; [assumption|].
  split.
  { simpl. rewrite Hit, length_rev, Hml. fold k. lia. }
  simpl. destruct (last (with_measurement ch)) as [il|].
  - destruct Hlast as [Hsd Hq]. split; [assumption|].
    rewrite Hq. unfold sum_dims, sum_chi2. rewrite Hndf, Hchi2. reflexivity.
  - assumption.
Qed.

(** C3. On a link table that the search has written, the walk from a tip
    reads no index of the table twice and only indices of the chain of the
    tip; the candidates of the track are the measurements of the records of
    the chain that are not holes, the oldest first, and there are
    [step + 1 - n_skipped] of them, [step] and [n_skipped] being those of
    the tip: the kernel fills exactly the candidates it has reserved. *)
Theorem backtrace_emits_chain nd (P : build_tracks_payload) (gi tip : Z)
    (l : candidate_link) (tc : track_candidate) :
  wf_links nd (vsize (bt_measurements P)) (vsize (bt_seeds P)) (bt_links P) = true ->
  vat (bt_tips P) gi = Ok tip ->
  vat (bt_links P) tip = Ok l ->
  exists (tc' : track_candidate) vis,
    build_tracks nd gi P tc = Ok (tc', vis) /\
    NoDup vis /\
    (forall j, j ∈ vis -> j ∈ map fst (chain (bt_links P) tip)) /\
    items tc' = rev (measurements_of (bt_measurements P)
                       (with_measurement (chain (bt_links P) tip))) /\
    Forall (fun il => meas_idx il.2 <> hole_idx)
           (with_measurement (chain (bt_links P) tip)) /\
    Z.of_nat (length (items tc')) = step l + 1 - n_skipped l.
Proof.
  intros Hwf Htip Hl.
  destruct (build_tracks_chain nd P gi tip l tc Hwf Htip Hl)
    as (tc' & vis & Hbt & Hnd & Hsub & Hit & Hlen & _).
  exists tc', vis. repeat split; try assumption.
  unfold with_measurement. apply Forall_forall. intros il Hin.
  apply list_elem_of_In, List.filter_In in Hin as [_ Hh].
  unfold is_hole in Hh. apply negb_true_iff, Z.eqb_neq in Hh. assumption.
Qed.

(** C8 (as the code has it). On a link table that the search has written,
    for a tip whose chain has at least one measurement: the degrees of
    freedom of the track are the sum of the dimensions of its measurements,
    accumulated from the newest to the oldest, minus 5; its chi-square is
    the sum of the chi-squares of the records of the chain that are not
    holes; its p-value is [prob] of the two; its number of holes is
    [n_skipped] of the oldest record with a measurement, whose seed is the
    seed of the track. *)
Theorem track_summary nd (P : build_tracks_payload) (gi tip : Z)
    (l : candidate_link) (tc : track_candidate) :
  wf_links nd (vsize (bt_measurements P)) (vsize (bt_seeds P)) (bt_links P) = true ->
  vat (bt_tips P) gi = Ok tip ->
  vat (bt_links P) tip = Ok l ->
  0 < step l + 1 - n_skipped l ->
  let em := with_measurement (chain (bt_links P) tip) in
  exists (tc' : track_candidate) vis il,
    build_tracks nd gi P tc = Ok (tc', vis) /\
    last em = Some il /\
    ndf (trk_quality tc') = s_sub (sum_dims meas_dim (rev (items tc'))) s_five /\
    tq_chi2 (trk_quality tc') = sum_chi2 em /\
    pval (trk_quality tc') = prob (tq_chi2 (trk_quality tc')) (ndf (trk_quality tc')) /\
    n_holes (trk_quality tc') = n_skipped il.2 /\
    vat (bt_seeds P) (seed_idx il.2) = Ok (seed_params tc').
Proof.
  intros Hwf Htip Hl Hpos em.
  destruct (build_tracks_chain nd P gi tip l tc Hwf Htip Hl)
    as (tc' & vis & Hbt & _ & _ & Hit & Hlen & Hlast).
  fold em in Hit, Hlast.
  destruct (last em) as [il|] eqn:Hem.
  - destruct Hlast as [Hsd Hq]. exists tc', vis, il.
    rewrite Hit, rev_involutive, Hq. simpl. auto 10.
  - apply last_None in Hem. rewrite Hem in Hit. simpl in Hit.
    rewrite Hit in Hlen. simpl in Hlen. lia.
Qed.

(** ** Schedules in sequence *)

Lemma run_app (L : launch) (s1 s2 : list nat) (s : grid) :
  run L (s1 ++ s2) s = run L s1 s ≫= run L s2.
Proof.
  revert s. induction s1 as [|i s1 IH]; intros s; simpl; [reflexivity|].
  destruct (grid_step L i s); simpl; [apply IH | reflexivity].
Qed.

(** * Further properties of the kernels *)

(** ** The transitions of the grid, by cases *)

Lemma grid_step_cases (L : launch) (i : nat) (s s' : grid) :
  grid_step L i s = Ok s' ->
  s' = s
  \/ (exists b bar, s' = mk_grid (glob s) (blocks s) (release L b bar (threads s)))
  \/ (exists (t t' : thread) sh sh' (g' : global_mem),
        threads s !! i = Some t /\ waiting (t_pc t) = None /\
        vat (blocks s) (block_of L i) = Ok sh /\
        thread_step L (block_of L i) (local_of L i) (glob s) sh t = Ok (g', sh', t') /\
        s' = mk_grid g' (<[Z.to_nat (block_of L i) := sh']> (blocks s))
                     (<[i := t']> (threads s))).
Proof.
  intros Hstep. unfold grid_step in Hstep.
  destruct (threads s !! i) as [t|] eqn:Ht.
  - destruct (waiting (t_pc t)) as [bar|] eqn:Hw.
    + destruct (all_arrived _ _ _ _); injection Hstep as <-; eauto.
    + apply bind_Ok in Hstep as (sh & Hsh & Hstep).
      apply bind_Ok in Hstep as ([[g1 sh1] t1] & Hts & Hstep).
      injection Hstep as <-. right. right.
      exists t, t1, sh, sh1, g1. auto.
  - injection Hstep as <-. auto.
Qed.

Lemma run_invariant (L : launch) (I : grid -> Prop) :
  (forall i s s', I s -> grid_step L i s = Ok s' -> I s') ->
  forall sched s s', I s -> run L sched s = Ok s' -> I s'.
Proof.
  intros Hstep sched. induction sched as [|i sched IH]; intros s s' Hs Hrun;
    simpl in Hrun.
  - injection Hrun as <-. assumption.
  - apply bind_Ok in Hrun as (s1 & Hs1 & Hrun).
    exact (IH _ _ (Hstep _ _ _ Hs Hs1) Hrun).
Qed.

(** ** The link table and the tips are append-only *)

Lemma thread_step_appends (L : launch) bid lid (g g' : global_mem) sh sh'
    (t t' : thread) :
  thread_step L bid lid g sh t = Ok (g', sh', t') ->
  (links g' = links g \/ exists l, links g' = links g ++ [l]) /\
  (tips g' = tips g \/ exists x, tips g' = tips g ++ [x]) /\
  length (n_tracks_per_seed g') = length (n_tracks_per_seed g) /\
  length (out_params g') = length (out_params g) /\
  length (out_params_liveness g') = length (out_params_liveness g).
Proof.
  intros Hstep. unfold thread_step in Hstep.
  destruct t as [p im nm cm]; destruct p; simpl in Hstep; inv_ok.
  all: repeat match goal with
    | Hfa : fetch_add _ _ = Ok _ |- _ =>
        apply fetch_add_Ok in Hfa as [_ ->]
    | Hap : append_link _ _ _ _ _ = Ok _ |- _ =>
        unfold append_link in Hap; inv_ok
    | Hv : vset _ _ _ = Ok _ |- _ => apply vset_Ok in Hv as [_ ->]
    end.
  all: simpl; rewrite ?length_insert; eauto 10.
Qed.

Lemma grid_step_grown (L : launch) (i : nat) (s0 s s' : grid) :
  grown s0 s -> grid_step L i s = Ok s' -> grown s0 s'.
Proof.
  intros (Hl & Ht & Hc & Ho & Hv) Hstep.
  destruct (grid_step_cases _ _ _ _ Hstep)
    as [->|[(b & bar & ->)|(t & t' & sh & sh' & g' & _ & _ & _ & Hts & ->)]];
    try (repeat split; assumption).
  destruct (thread_step_appends _ _ _ _ _ _ _ _ _ Hts) as (Hl' & Ht' & Hc' & Ho' & Hv').
  unfold grown. simpl. rewrite Hc', Ho', Hv'.
  repeat split; try assumption.
  - destruct Hl' as [->|[l ->]]; [assumption|].
    apply prefix_app_r. assumption.
  - destruct Ht' as [->|[x ->]]; [assumption|].
    apply prefix_app_r. assumption.
Qed.

(** X1. Whatever the schedule, a launch keeps every record of the link
    table and every tip where it was and only adds records after them; the
    vector of counters and the two output vectors keep their sizes. *)
Theorem launch_appends_only (L : launch) (sched : list nat) (s0 s : grid) :
  run L sched s0 = Ok s ->
  grown s0 s /\
  (forall i l, links (glob s0) !! i = Some l -> links (glob s) !! i = Some l) /\
  (forall i x, tips (glob s0) !! i = Some x -> tips (glob s) !! i = Some x).
Proof.
  intros Hrun.
  assert (Hg : grown s0 s).
  { apply (run_invariant L (grown s0) (fun i s1 s2 => grid_step_grown L i s0 s1 s2)
             sched s0 s); [|assumption].
    repeat split; reflexivity. }
  split; [assumption|]. destruct Hg as ([k1 Hl] & [k2 Ht] & _).
  split; intros i x Hi.
  - rewrite Hl. apply lookup_app_l_Some. assumption.
  - rewrite Ht. apply lookup_app_l_Some. assumption.
Qed.

(** ** The cap on the branches of a seed, over the search *)

(** The links of every seed are covered by its counter, and by the cap. *)
Lemma counters_below_le (k k' : Z) (cs : list Z) :
  k' <= k -> counters_below k cs -> counters_below k' cs.
Proof.
  intros Hk Hc. unfold counters_below in *.
  apply (Forall_impl _ _ _ Hc). intros n [H0 Hn]. lia.
Qed.

Lemma pending_fresh (seed : Z) (k : nat) :
  pending seed (replicate k (fresh_thread : thread)) = 0.
Proof. induction k as [|k IH]; simpl; [reflexivity|]. rewrite IH. reflexivity. Qed.

Lemma stage_budget (C : finding_config) (st : stage) (g : global_mem) (s : grid)
    (rest : Z) :
  run (stage_launch C st) (st_sched st) (stage_start C st g) = Ok s ->
  counters_below (Z.of_nat (length (st_sched st)) + rest) (n_tracks_per_seed g) ->
  0 <= rest ->
  (forall seed n, vat (n_tracks_per_seed g) seed = Ok n ->
     count_seed seed (links g) <= Z.min n (max_num_branches_per_seed C)) ->
  counters_below rest (n_tracks_per_seed (glob s)) /\
  length (n_tracks_per_seed (glob s)) = length (n_tracks_per_seed g) /\
  (forall seed n, vat (n_tracks_per_seed (glob s)) seed = Ok n ->
     count_seed seed (links (glob s)) <= Z.min n (max_num_branches_per_seed C)).
Proof.
  intros Hrun Hbelow Hrest Hinv.
  assert (Hb0 : counters_below (Z.of_nat (length (st_sched st)))
                  (n_tracks_per_seed (glob (stage_start C st g))))
    by (apply (counters_below_le (Z.of_nat (length (st_sched st)) + rest));
        [lia|exact Hbelow]).
  pose proof (run_budget _ _ _ _ Hrun Hb0) as Hbud.
  split; [|split].
  - apply counters_below_vat. intros seed n' Hn'.
    destruct (Hbud seed n' Hn') as (n0 & Hn0 & Hr & _).
    destruct (proj1 (counters_below_vat _ _) Hbelow seed n0 Hn0). lia.
  - assert (Hg : grown (stage_start C st g) s).
    { apply (run_invariant (stage_launch C st) (grown (stage_start C st g))
               (fun i s1 s2 => grid_step_grown _ i _ s1 s2)
               (st_sched st) (stage_start C st g) s); [|assumption].
      repeat split; reflexivity. }
    destruct Hg as (_ & _ & Hc & _). exact Hc.
  - intros seed n' Hn'.
    destruct (Hbud seed n' Hn') as (n0 & Hn0 & Hr & Hle).
    specialize (Hinv seed n0 Hn0).
    pose proof (pending_nonneg seed (threads s)).
    unfold stage_start, start in Hle. simpl in Hle.
    rewrite pending_fresh in Hle. unfold room in Hle. lia.
Qed.

Lemma search_budget (C : finding_config) (stages : list stage) :
  forall (g g' : global_mem),
    search C stages g = Ok g' ->
    counters_below (Z.of_nat (search_length stages)) (n_tracks_per_seed g) ->
    (forall seed n, vat (n_tracks_per_seed g) seed = Ok n ->
       count_seed seed (links g) <= Z.min n (max_num_branches_per_seed C)) ->
    length (n_tracks_per_seed g') = length (n_tracks_per_seed g) /\
    (forall seed n, vat (n_tracks_per_seed g') seed = Ok n ->
       count_seed seed (links g') <= Z.min n (max_num_branches_per_seed C)).
Proof.
  induction stages as [|st rest IH]; intros g g' Hs Hbelow Hinv; simpl in Hs.
  - injection Hs as <-. auto.
  - apply bind_Ok in Hs as (s & Hrun & Hs). simpl in Hbelow.
    rewrite Nat2Z.inj_add in Hbelow.
    destruct (stage_budget C st g s _ Hrun Hbelow ltac:(lia) Hinv)
      as (Hb' & Hlen & Hinv').
    destruct (IH _ _ Hs Hb' Hinv') as [Hlen' Hfin].
    split; [congruence|assumption].
Qed.

(** C2. At every point of the search, whatever the payloads, the
    dimensions of the grids, the contents of the shared memory and the
    schedules of the steps: the links of a seed, holes included, are at most
    as many as the increments of its counter, and those that carry a
    measurement never exceed [max_num_branches_per_seed].  An attempt that
    finds the counter at or above the cap when it increments it (lines
    248-249) goes to the barrier without a link.  The search is as long as
    a counter can count. *)
Theorem branch_cap_respected (C : finding_config) (stages : list stage)
    (n_seeds : nat) (g : global_mem) :
  0 <= max_num_branches_per_seed C ->
  Z.of_nat (search_length stages) <= UINT_MAX ->
  search C stages (search_start n_seeds) = Ok g ->
  (forall seed, 0 <= seed < Z.of_nat n_seeds ->
     count_seed_meas seed (links g) <= max_num_branches_per_seed C /\
     exists n, vat (n_tracks_per_seed g) seed = Ok n /\
               count_seed seed (links g) <= n)
  /\ (forall (st : stage) bid lid (g1 : global_mem) sh (t : thread) k n,
        t_pc t = PReserve k ->
        vat (n_tracks_per_seed g1) (pk_seed_idx k) = Ok n ->
        max_num_branches_per_seed C <= n ->
        exists cs, thread_step (stage_launch C st) bid lid g1 sh t =
                   Ok (set_counters g1 cs, sh, goto t PBarrier2)).
Proof.
  intros Hcap Hlen Hsearch. split.
  - assert (Hb0 : counters_below (Z.of_nat (search_length stages))
                    (n_tracks_per_seed (search_start n_seeds : global_mem))).
    { unfold counters_below, search_start. simpl. apply Forall_forall.
      intros n [-> _]%elem_of_replicate. lia. }
    assert (Hi0 : forall seed n,
              vat (n_tracks_per_seed (search_start n_seeds : global_mem)) seed = Ok n ->
              count_seed seed (links (search_start n_seeds : global_mem))
                <= Z.min n (max_num_branches_per_seed C)).
    { intros seed n [_ [-> _]%lookup_replicate]%vat_Ok.
      unfold count_seed. simpl. lia. }
    destruct (search_budget C stages _ _ Hsearch Hb0 Hi0) as [Hcs Hinv].
    intros seed Hseed.
    assert (Hin : (Z.to_nat seed < length (n_tracks_per_seed g))%nat).
    { rewrite Hcs. unfold search_start. simpl. rewrite length_replicate. lia. }
    apply lookup_lt_is_Some_2 in Hin as [n Hn].
    assert (Hvn : vat (n_tracks_per_seed g) seed = Ok n)
      by (apply vat_Ok; split; [lia|assumption]).
    specialize (Hinv seed n Hvn).
    pose proof (count_seed_meas_le seed (links g)).
    split; [lia|]. exists n. split; [assumption|lia].
  - intros st bid lid g1 sh t k n Hpc Hn Hge.
    rewrite (reserve_step _ _ _ _ _ _ _ _ Hpc Hn).
    apply Z.ltb_ge in Hge. simpl. rewrite Hge. eauto.
Qed.

(** ** The links a launch appends *)

Lemma vat_app_l {A : Type} (v k : list A) (i : Z) (a : A) :
  vat v i = Ok a -> vat (v ++ k) i = Ok a.
Proof.
  intros [Hi Hl]%vat_Ok. apply vat_Ok. split; [assumption|].
  apply lookup_app_l_Some. assumption.
Qed.

Lemma parent_ok_mono (P : find_tracks_payload) (ls k : list candidate_link) prev seed :
  parent_ok P ls prev seed -> parent_ok P (ls ++ k) prev seed.
Proof.
  intros [H0|(p & Hp & Hs)]; [left; assumption|].
  right. exists p. split; [apply vat_app_l|]; assumption.
Qed.

Lemma regs_ok_mono (L : launch) (ls k : list candidate_link) (p : pc) :
  regs_ok L ls p -> regs_ok L (ls ++ k) p.
Proof.
  destruct p; simpl; auto using parent_ok_mono;
    intros (Hp & Hm & Ha); auto using parent_ok_mono.
Qed.

Lemma appended_ok_mono (L : launch) (ls k : list candidate_link) (i : nat)
    (l : candidate_link) :
  appended_ok L ls i l -> appended_ok L (ls ++ k) i l.
Proof.
  intros (Hstep & base & Hpar & Hkind). split; [assumption|].
  exists base. split; [|assumption].
  destruct Hpar as [?|(Hne & p & H0 & Hlt & Hp & Hs & Hb)]; [left; assumption|].
  right. split; [assumption|]. exists p.
  repeat split; try assumption. apply lookup_app_l_Some. assumption.
Qed.

Lemma seed_of_parent (P : find_tracks_payload) (g : global_mem) prev id seed :
  seed_of P g prev id = Ok seed -> parent_ok P (links g) prev seed.
Proof.
  unfold seed_of, parent_ok. destruct (Z.eqb_spec (p_step P) 0) as [H0|H0].
  - auto.
  - intros Hok. apply bind_Ok in Hok as (l & Hl & Hok). injection Hok as <-.
    right. eauto.
Qed.

Lemma skipped_of_parent (P : find_tracks_payload) (g : global_mem) prev seed skipped
    (k : list candidate_link) :
  skipped_of P g prev = Ok skipped ->
  parent_ok P (links g) prev seed ->
  (p_step P = 0 /\ skipped = 0) \/
  (p_step P <> 0 /\
   exists p, 0 <= prev /\
             (Z.to_nat prev < length (links g))%nat /\
             (links g ++ k) !! Z.to_nat prev = Some p /\
             seed_idx p = seed /\ skipped = n_skipped p).
Proof.
  unfold skipped_of. intros Hsk Hpar.
  destruct (Z.eqb_spec (p_step P) 0) as [H0|H0].
  - injection Hsk as <-. auto.
  - apply bind_Ok in Hsk as (p & Hp & Hsk). injection Hsk as <-.
    destruct Hpar as [?|(p' & Hp' & Hs)]; [contradiction|].
    rewrite Hp in Hp'. injection Hp' as <-.
    right. split; [assumption|]. exists p.
    apply vat_Ok in Hp as [Hi Hl].
    repeat split; auto.
    + apply lookup_lt_Some in Hl. assumption.
    + apply lookup_app_l_Some. assumption.
Qed.

Lemma thread_step_regs (L : launch) bid lid (g g' : global_mem) sh sh'
    (t t' : thread) :
  thread_step L bid lid g sh t = Ok (g', sh', t') ->
  regs_ok L (links g) (t_pc t) ->
  regs_ok L (links g') (t_pc t') /\
  (links g' = links g \/
   exists l, links g' = links g ++ [l] /\
             appended_ok L (links g') (length (links g)) l).
Proof.
  intros Hstep Hregs. unfold thread_step in Hstep.
  destruct t as [p im nm cm].
  destruct p as [| | | |v| | | | | |o|k|k|k| | | | |prev seed|];
    simpl in Hstep, Hregs.
  1-9, 11-12, 15-17, 20: solve [inv_ok; simpl; auto].
  - (* PPick *)
    destruct (lid <? _); [|inv_ok; simpl; auto].
    apply bind_Ok in Hstep as ([m o] & Hentry & Hstep). simpl in Hstep.
    apply bind_Ok in Hstep as (_ & _ & Hstep).
    apply bind_Ok in Hstep as (seed & Hseed & Hstep).
    apply bind_Ok in Hstep as (in_par & Hpar & Hstep).
    apply bind_Ok in Hstep as (meas & Hmeas & Hstep).
    apply bind_Ok in Hstep as (n & Hn & Hstep).
    destruct (n <? _); [|inv_ok; simpl; auto].
    destruct (is_success _ && s_ltb _ _) eqn:Hacc; inv_ok; simpl; [|auto].
    split; [|left; reflexivity].
    split; [exact (seed_of_parent _ _ _ _ _ Hseed)|].
    split; [|exact Hacc].
    apply vat_Ok in Hmeas as [? Hl]. apply lookup_lt_Some in Hl.
    unfold vsize. lia.
  - (* PReserve *)
    inv_ok; simpl; auto.
  - (* PAppend *)
    destruct Hregs as (Hpar & Hm & Hacc).
    apply bind_Ok in Hstep as (_ & _ & Hstep).
    apply bind_Ok in Hstep as (skipped & Hsk & Hstep).
    apply bind_Ok in Hstep as ([l_pos g1] & Hap & Hstep).
    apply append_link_Ok in Hap as (Hl & Ht & Hcs & ->).
    assert (Hboth : links g' = links g1 /\ t_pc t' = PBarrier2).
    { destruct (last_step L && _); unfold mret, result_ret in Hstep;
        injection Hstep as <- <- <-; split; reflexivity. }
    destruct Hboth as [Hlinks Hpc].
    rewrite Hpc, Hlinks, Hl. split; [exact I|]. right.
    eexists. split; [reflexivity|]. split; [reflexivity|].
    exists skipped. split.
    + exact (skipped_of_parent _ _ _ _ _ _ Hsk Hpar).
    + right. simpl. unfold accepted in Hacc.
      apply andb_true_iff in Hacc as [_ Hacc]. auto.
  - (* PHoleReserve *)
    apply bind_Ok in Hstep as (seed & Hseed & Hstep).
    apply bind_Ok in Hstep as ([s_pos cs] & Hfa & Hstep).
    destruct (s_pos <? _); unfold mret, result_ret in Hstep;
      injection Hstep as <- <- <-; simpl;
      (split; [|left; reflexivity]); [|exact I].
    exact (seed_of_parent _ _ _ _ _ Hseed).
  - (* PHoleEmit *)
    apply bind_Ok in Hstep as (skipped & Hsk & Hstep).
    destruct (_ || last_step L).
    + destruct (_ <=? _); inv_ok; simpl; auto.
    + apply bind_Ok in Hstep as (par & Hpar & Hstep).
      apply bind_Ok in Hstep as ([l_pos g1] & Hap & Hstep).
      apply append_link_Ok in Hap as (Hl & Ht & Hcs & ->).
      unfold mret, result_ret in Hstep.
      injection Hstep as <- <- <-. simpl. split; [exact I|]. right.
      rewrite Hl. eexists. split; [reflexivity|]. split; [reflexivity|].
      exists skipped. split.
      * exact (skipped_of_parent _ _ _ _ _ _ Hsk Hregs).
      * left. simpl. auto.
Qed.

Lemma release_regs (L : launch) (b : Z) (bar : barrier) (ls : list candidate_link)
    (ts : list thread) :
  Forall (fun t => regs_ok L ls (t_pc t)) ts ->
  Forall (fun t => regs_ok L ls (t_pc t)) (release L b bar ts).
Proof.
  rewrite !Forall_lookup. intros Hall j t Hj. unfold release in Hj.
  rewrite list_lookup_imap in Hj.
  destruct (ts !! j) as [t0|] eqn:Ht0; [|discriminate]. simpl in Hj.
  injection Hj as <-.
  destruct (in_block L b j && _); [|exact (Hall _ _ Ht0)].
  destruct bar; simpl; try exact I.
  match goal with |- context [if ?c then _ else _] => destruct c end; exact I.
Qed.

Lemma grid_step_appended (L : launch) (n0 : nat) (i : nat) (s s' : grid) :
  appended_inv L n0 s -> grid_step L i s = Ok s' -> appended_inv L n0 s'.
Proof.
  intros [Hregs Hnew] Hstep.
  destruct (grid_step_cases _ _ _ _ Hstep)
    as [->|[(b & bar & ->)|(t & t' & sh & sh' & g' & Ht & _ & _ & Hts & ->)]].
  - split; assumption.
  - split; [apply release_regs|]; assumption.
  - pose proof (proj1 (Forall_lookup _ _) Hregs _ _ Ht) as Hrt.
    destruct (thread_step_regs _ _ _ _ _ _ _ _ _ Hts Hrt) as [Hrt' Hl].
    split; simpl.
    + apply Forall_insert; [|assumption].
      destruct Hl as [->|(l & -> & _)]; [assumption|].
      eapply Forall_impl; [exact Hregs|]. intros t0. apply regs_ok_mono.
    + destruct Hl as [->|(l & Hl & Hok)]; [assumption|].
      intros j lj Hj Hn0. rewrite Hl in Hj |- *.
      apply lookup_app_Some in Hj as [Hj|[Hlen Hj]].
      * apply appended_ok_mono. apply Hnew; assumption.
      * destruct (j - length (links (glob s)))%nat as [|d] eqn:Hd;
          simpl in Hj; [|discriminate].
        injection Hj as <-.
        assert (j = length (links (glob s))) as -> by lia.
        rewrite <- Hl. assumption.
Qed.

(** X2. Whatever the schedule, every record that a launch adds to the link
    table has the step of the launch; after step 0 its parent is an earlier
    record of the table, whose seed it has; it is either a hole, with the
    maximal chi-square and one more skipped than its parent, or it carries a
    measurement of the payload whose chi-square passed the test, and has
    skipped what its parent has. *)
Theorem appended_links_inherit (L : launch) (sched : list nat) (s0 s : grid) :
  run L sched s0 = Ok s ->
  Forall (fun t => regs_ok L (links (glob s0)) (t_pc t)) (threads s0) ->
  forall i l,
    links (glob s) !! i = Some l ->
    (length (links (glob s0)) <= i)%nat ->
    appended_ok L (links (glob s)) i l.
Proof.
  intros Hrun Hregs.
  assert (Hinv : appended_inv L (length (links (glob s0))) s).
  { apply (run_invariant L (appended_inv L (length (links (glob s0))))
             (fun i s1 s2 => grid_step_appended L _ i s1 s2) sched s0 s);
      [|assumption].
    split; [assumption|]. intros i l Hi Hle.
    apply lookup_lt_Some in Hi. lia. }
  exact (proj2 Hinv).
Qed.

(** ** The tips a launch records *)

Lemma thread_step_tips (L : launch) bid lid (g g' : global_mem) sh sh'
    (t t' : thread) :
  thread_step L bid lid g sh t = Ok (g', sh', t') ->
  p_step (payload L) <> 0 \/ ndebug L = false ->
  (length (links g) <= length (links g'))%nat /\
  (tips g' = tips g \/
   exists x, tips g' = tips g ++ [x] /\ 0 <= x < vsize (links g')).
Proof.
  intros Hstep Hcond. unfold thread_step in Hstep.
  destruct t as [p im nm cm].
  destruct p as [| | | |v| | | | | |o|k|k|k| | | | |prev seed|];
    simpl in Hstep.
  1-13, 15-18, 20: solve [inv_ok; simpl; auto].
  - (* PAppend *)
    apply bind_Ok in Hstep as (_ & _ & Hstep).
    apply bind_Ok in Hstep as (skipped & Hsk & Hstep).
    apply bind_Ok in Hstep as ([l_pos g1] & Hap & Hstep).
    apply append_link_Ok in Hap as (Hl & Ht & Hcs & ->).
    destruct (last_step L && _); unfold mret, result_ret in Hstep;
      injection Hstep as <- <- <-; simpl; rewrite Hl, length_app; simpl;
      (split; [lia|]); [right | left; assumption].
    exists (vsize (links g)). rewrite Ht. split; [reflexivity|].
    unfold vsize. rewrite length_app. simpl. lia.
  - (* PHoleEmit *)
    unfold skipped_of in Hstep.
    destruct (Z.eqb_spec (p_step (payload L)) 0) as [H0|H0].
    + destruct Hcond as [?|Hnd]; [contradiction|].
      simpl in Hstep. rewrite Hnd, H0 in Hstep. simpl in Hstep.
      destruct (_ || last_step L).
      * destruct (_ <=? _); simpl in Hstep; [discriminate|].
        inv_ok. auto.
      * apply bind_Ok in Hstep as (par & Hpar & Hstep).
        apply bind_Ok in Hstep as ([l_pos g1] & Hap & Hstep).
        apply append_link_Ok in Hap as (Hl & Ht & _).
        unfold mret, result_ret in Hstep. injection Hstep as <- <- <-.
        rewrite Hl, length_app. split; [lia | left; assumption].
    + apply bind_Ok in Hstep as (skipped & Hsk & Hstep).
      apply bind_Ok in Hsk as (p & Hp & Hsk). injection Hsk as <-.
      destruct (_ || last_step L).
      * destruct (_ <=? _); inv_ok; simpl; split; auto.
        right. exists prev. split; [reflexivity|].
        apply vat_Ok in Hp as [? Hp]. apply lookup_lt_Some in Hp.
        unfold vsize. lia.
      * apply bind_Ok in Hstep as (par & Hpar & Hstep).
        apply bind_Ok in Hstep as ([l_pos g1] & Hap & Hstep).
        apply append_link_Ok in Hap as (Hl & Ht & _).
        unfold mret, result_ret in Hstep. injection Hstep as <- <- <-.
        rewrite Hl, length_app. split; [lia | left; assumption].
Qed.

Lemma grid_step_tips (L : launch) (n0 : nat) (i : nat) (s s' : grid) :
  p_step (payload L) <> 0 \/ ndebug L = false ->
  tips_inv n0 s -> grid_step L i s = Ok s' -> tips_inv n0 s'.
Proof.
  intros Hcond Hinv Hstep.
  destruct (grid_step_cases _ _ _ _ Hstep)
    as [->|[(b & bar & ->)|(t & t' & sh & sh' & g' & Ht & _ & _ & Hts & ->)]];
    try assumption.
  destruct (thread_step_tips _ _ _ _ _ _ _ _ _ Hts Hcond) as [Hlen Htips].
  unfold tips_inv in *. intros j x Hj Hn0. simpl in *. unfold vsize in *.
  destruct Htips as [Heq|(y & Heq & Hy)]; rewrite Heq in Hj.
  - specialize (Hinv j x Hj Hn0). lia.
  - apply lookup_app_Some in Hj as [Hj|[_ Hj]].
    + specialize (Hinv j x Hj Hn0). lia.
    + destruct (j - length (tips (glob s)))%nat; simpl in Hj; [|discriminate].
      injection Hj as <-. assumption.
Qed.

(** X3. At a step after the first, or with the assertions checked, every
    tip that a launch records is the index of a record of the link table,
    whatever the schedule. *)
Theorem recorded_tips_index_links (L : launch) (sched : list nat) (s0 s : grid) :
  run L sched s0 = Ok s ->
  p_step (payload L) <> 0 \/ ndebug L = false ->
  forall j x,
    tips (glob s) !! j = Some x ->
    (length (tips (glob s0)) <= j)%nat ->
    exists l, vat (links (glob s)) x = Ok l.
Proof.
  intros Hrun Hcond j x Hj Hle.
  assert (Hinv : tips_inv (length (tips (glob s0))) s).
  { apply (run_invariant L (tips_inv (length (tips (glob s0))))
             (fun i s1 s2 => grid_step_tips L _ i s1 s2 Hcond) sched s0 s);
      [|assumption].
    intros j' x' Hj' Hle'. apply lookup_lt_Some in Hj'. lia. }
  destruct (Hinv j x Hj Hle) as [H0 Hlt]. unfold vsize in Hlt.
  assert (Hlk : (Z.to_nat x < length (links (glob s)))%nat) by lia.
  apply lookup_lt_is_Some_2 in Hlk as [l Hl]. exists l.
  apply vat_Ok. auto.
Qed.

(** ** The last step *)

Lemma thread_step_last (L : launch) bid lid (g g' : global_mem) sh sh'
    (t t' : thread) :
  last_step L = true ->
  regs_ok L (links g) (t_pc t) ->
  thread_step L bid lid g sh t = Ok (g', sh', t') ->
  (forall j v, out_params_liveness g' !! j = Some v ->
     out_params_liveness g !! j = Some v \/ v = 0) /\
  tips g `prefix_of` tips g' /\
  (links g' = links g \/
   exists l, links g' = links g ++ [l] /\
     0 <= meas_idx l < vsize (measurements_view (payload L)) /\
     (min_track_candidates_per_track (cfg L) <= n_cands_of L l ->
      Z.of_nat (length (links g)) ∈ tips g')).
Proof.
  intros Hlast Hregs Hstep. unfold thread_step in Hstep.
  destruct t as [p im nm cm].
  destruct p as [| | | |v| | | | | |o|k|k|k| | | | |prev seed|];
    simpl in Hstep, Hregs.
  1-13, 15-18, 20: solve [inv_ok; simpl; auto].
  - (* PAppend *)
    destruct Hregs as (_ & Hm & _).
    apply bind_Ok in Hstep as (_ & _ & Hstep).
    apply bind_Ok in Hstep as (skipped & Hsk & Hstep).
    apply bind_Ok in Hstep as ([l_pos g1] & Hap & Hstep).
    rewrite Hlast in Hap, Hstep. simpl in Hstep.
    assert (Hlv : forall j v, out_params_liveness g1 !! j = Some v ->
                    out_params_liveness g !! j = Some v \/ v = 0).
    { unfold append_link in Hap.
      apply bind_Ok in Hap as (ps & Hps & Hap).
      apply bind_Ok in Hap as (lv & Hlv & Hap).
      unfold mret, result_ret in Hap. injection Hap as _ <-. simpl.
      apply vset_Ok in Hlv as [_ ->]. intros j v Hj.
      destruct (decide (j = Z.to_nat (wrap (vsize (links g) - curr_links_idx (payload L)))))
        as [->|Hne].
      - apply list_lookup_insert_Some in Hj as [(_ & <- & _)|[? _]]; [auto|contradiction].
      - rewrite list_lookup_insert_ne in Hj by auto. auto. }
    apply append_link_Ok in Hap as (Hl & Ht & Hcs & ->).
    destruct (_ <=? _) eqn:Hmin; unfold mret, result_ret in Hstep;
      injection Hstep as <- <- <-; simpl.
    + split; [assumption|]. split; [rewrite Ht; apply prefix_app_r; reflexivity|].
      right. eexists. split; [exact Hl|]. split; [exact Hm|].
      intros _. rewrite Ht. apply elem_of_app. right.
      unfold vsize. apply list_elem_of_singleton. reflexivity.
    + split; [assumption|]. split; [rewrite Ht; reflexivity|].
      right. eexists. split; [exact Hl|]. split; [exact Hm|].
      unfold n_cands_of. simpl. apply Z.leb_gt in Hmin. lia.
  - (* PHoleEmit *)
    apply bind_Ok in Hstep as (skipped & Hsk & Hstep).
    rewrite Hlast, orb_true_r in Hstep.
    destruct (_ <=? _); inv_ok; simpl; repeat split; auto.
    apply prefix_app_r. reflexivity.
Qed.

Lemma grid_step_last (L : launch) (n0 : nat) (lv0 : list Z) (i : nat) (s s' : grid) :
  last_step L = true ->
  last_inv L n0 lv0 s -> grid_step L i s = Ok s' -> last_inv L n0 lv0 s'.
Proof.
  intros Hlast (Hregs & Hnew & Hlv) Hstep.
  destruct (grid_step_cases _ _ _ _ Hstep)
    as [->|[(b & bar & ->)|(t & t' & sh & sh' & g' & Ht & _ & _ & Hts & ->)]].
  - split; [assumption|]. split; assumption.
  - split; [apply release_regs; assumption|]. split; assumption.
  - pose proof (proj1 (Forall_lookup _ _) Hregs _ _ Ht) as Hrt.
    destruct (thread_step_regs _ _ _ _ _ _ _ _ _ Hts Hrt) as [Hrt' Hl].
    destruct (thread_step_last _ _ _ _ _ _ _ _ _ Hlast Hrt Hts)
      as (Hlv' & [kt Htips] & Hlast').
    split; [|split]; simpl.
    + apply Forall_insert; [|assumption].
      destruct Hl as [->|(l & -> & _)]; [assumption|].
      eapply Forall_impl; [exact Hregs|]. intros t0. apply regs_ok_mono.
    + intros j lj Hj Hn0.
      destruct Hlast' as [Heq|(l & Heq & Hm & Htip)]; rewrite Heq in Hj.
      * destruct (Hnew j lj Hj Hn0) as [Hmj Htj]. split; [assumption|].
        intros Hmin. rewrite Htips. apply elem_of_app. left. auto.
      * apply lookup_app_Some in Hj as [Hj|[Hlen Hj]].
        -- destruct (Hnew j lj Hj Hn0) as [Hmj Htj]. split; [assumption|].
           intros Hmin. rewrite Htips. apply elem_of_app. left. auto.
        -- destruct (j - length (links (glob s)))%nat as [|d] eqn:Hd;
             simpl in Hj; [|discriminate].
           injection Hj as <-.
           assert (j = length (links (glob s))) as -> by lia.
           split; assumption.
    + intros j v Hj. destruct (Hlv' j v Hj) as [Hold|?]; auto.
Qed.

(** X4. On the last step, whatever the schedule: no hole is appended, every
    record that the launch appends carries a measurement of the payload; a
    record whose candidate has the minimal length is a tip; and no output
    parameter is marked live, every flag of the liveness vector is what it
    was or zero. *)
Theorem last_step_closes_branches (L : launch) (sched : list nat) (s0 s : grid) :
  run L sched s0 = Ok s ->
  last_step L = true ->
  Forall (fun t => regs_ok L (links (glob s0)) (t_pc t)) (threads s0) ->
  (forall i l,
     links (glob s) !! i = Some l ->
     (length (links (glob s0)) <= i)%nat ->
     0 <= meas_idx l < vsize (measurements_view (payload L)) /\
     (min_track_candidates_per_track (cfg L) <= n_cands_of L l ->
      Z.of_nat i ∈ tips (glob s))) /\
  (forall j v,
     out_params_liveness (glob s) !! j = Some v ->
     out_params_liveness (glob s0) !! j = Some v \/ v = 0).
Proof.
  intros Hrun Hlast Hregs.
  assert (Hinv : last_inv L (length (links (glob s0)))
                   (out_params_liveness (glob s0)) s).
  { apply (run_invariant L
             (last_inv L (length (links (glob s0))) (out_params_liveness (glob s0)))
             (fun i s1 s2 => grid_step_last L _ _ i s1 s2 Hlast) sched s0 s);
      [|assumption].
    split; [assumption|]. split; [|auto].
    intros i l Hi Hle. apply lookup_lt_Some in Hi. lia. }
  destruct Hinv as (_ & Hnew & Hlv). auto.
Qed.

(** ** Assembling twice, and with or without assertions *)

Lemma link_ok_ndebug n_meas n_seeds (ls : list candidate_link) (i : nat)
    (l : candidate_link) :
  link_ok false n_meas n_seeds ls i l = true ->
  link_ok true n_meas n_seeds ls i l = true.
Proof.
  unfold link_ok. simpl.
  destruct (s_ltb (chi2 l) s_max && s_leb s_zero (chi2 l)); [auto|].
  rewrite andb_false_r, orb_false_r.
  destruct (is_hole l); simpl; [auto|].
  rewrite andb_false_r. simpl. discriminate.
Qed.

Lemma wf_links_ndebug n_meas n_seeds (ls : list candidate_link) :
  wf_links false n_meas n_seeds ls = true ->
  wf_links true n_meas n_seeds ls = true.
Proof.
  unfold wf_links. intros [Hn Hall]%andb_true_iff.
  apply andb_true_iff. split; [assumption|].
  rewrite forallb_forall in Hall |- *. intros il Hin.
  apply link_ok_ndebug. auto.
Qed.

(** Two runs of build_tracks on one payload give one track, if they start
    from the same header or if the chain has a measurement. *)
Lemma build_tracks_agree nd1 nd2 (P : build_tracks_payload) (gi tip : Z)
    (l : candidate_link) (tc1 tc2 : track_candidate) :
  wf_links nd1 (vsize (bt_measurements P)) (vsize (bt_seeds P)) (bt_links P) = true ->
  wf_links nd2 (vsize (bt_measurements P)) (vsize (bt_seeds P)) (bt_links P) = true ->
  vat (bt_tips P) gi = Ok tip ->
  vat (bt_links P) tip = Ok l ->
  (seed_params tc1 = seed_params tc2 /\ trk_quality tc1 = trk_quality tc2) \/
  0 < step l + 1 - n_skipped l ->
  exists (tc' : track_candidate) v1 v2,
    build_tracks nd1 gi P tc1 = Ok (tc', v1) /\
    build_tracks nd2 gi P tc2 = Ok (tc', v2).
Proof.
  intros Hwf1 Hwf2 Htip Hl Hsame.
  destruct (build_tracks_chain nd1 P gi tip l tc1 Hwf1 Htip Hl)
    as (t1 & v1 & Hb1 & _ & _ & Hit1 & Hlen1 & Hlast1).
  destruct (build_tracks_chain nd2 P gi tip l tc2 Hwf2 Htip Hl)
    as (t2 & v2 & Hb2 & _ & _ & Hit2 & _ & Hlast2).
  exists t1, v1, v2. split; [assumption|].
  assert (Heq : t2 = t1); [|rewrite <- Heq; assumption].
  destruct t1 as [sd1 q1 it1], t2 as [sd2 q2 it2]. simpl in *.
  assert (it2 = it1) as -> by congruence.
  destruct (last _) as [il|] eqn:Hem.
  - destruct Hlast1 as [Hs1 ->], Hlast2 as [Hs2 ->].
    rewrite Hs1 in Hs2. injection Hs2 as ->. reflexivity.
  - destruct Hlast1 as [-> ->], Hlast2 as [-> ->].
    destruct Hsame as [[-> ->]|Hpos]; [reflexivity|].
    apply last_None in Hem. rewrite Hem in Hit1. simpl in Hit1. subst it1.
    simpl in Hlen1. lia.
Qed.

Lemma chain_emitted_count nd (P : build_tracks_payload) (tip : Z) (l : candidate_link) :
  wf_links nd (vsize (bt_measurements P)) (vsize (bt_seeds P)) (bt_links P) = true ->
  vat (bt_links P) tip = Ok l ->
  Z.of_nat (length (with_measurement (chain (bt_links P) tip))) =
  step l + 1 - n_skipped l.
Proof.
  intros Hwf Hl. destruct (wf_chain _ _ Hwf tip l Hl) as (ch & Hch).
  rewrite (chain_is_chain _ _ _ _ _ Hch).
  exact (proj2 (chain_count _ _ _ _ _ Hch)).
Qed.

(** X5. On a link table that the search has written, assembling a tip a
    second time, over the track of the first time, gives the same track;
    and when the chain of the tip has a measurement, the track does not
    depend on what the element of the container held before. *)
Theorem assembly_repeatable nd (P : build_tracks_payload) (gi tip : Z)
    (l : candidate_link) (tc : track_candidate) :
  wf_links nd (vsize (bt_measurements P)) (vsize (bt_seeds P)) (bt_links P) = true ->
  vat (bt_tips P) gi = Ok tip ->
  vat (bt_links P) tip = Ok l ->
  exists (tc' : track_candidate) vis,
    build_tracks nd gi P tc = Ok (tc', vis) /\
    (exists vis', build_tracks nd gi P tc' = Ok (tc', vis')) /\
    (0 < step l + 1 - n_skipped l ->
     forall tc2 : track_candidate,
       exists vis2, build_tracks nd gi P tc2 = Ok (tc', vis2)).
Proof.
  intros Hwf Htip Hl.
  destruct (build_tracks_chain nd P gi tip l tc Hwf Htip Hl)
    as (t1 & v1 & Hb1 & _ & _ & Hit1 & _ & Hlast1).
  pose proof (chain_emitted_count nd P tip l Hwf Hl) as Hcount.
  exists t1, v1. split; [assumption|]. split.
  - destruct (build_tracks_agree nd nd P gi tip l tc t1 Hwf Hwf Htip Hl)
      as (t' & w1 & w2 & Hw1 & Hw2).
    + destruct (with_measurement (chain (bt_links P) tip)) as [|x xs] eqn:Hem.
      * left. simpl in Hlast1. destruct Hlast1. auto.
      * right. simpl length in Hcount. lia.
    + rewrite Hb1 in Hw1. injection Hw1 as <- <-. eauto.
  - intros Hpos tc2.
    destruct (build_tracks_agree nd nd P gi tip l tc tc2 Hwf Hwf Htip Hl)
      as (t' & w1 & w2 & Hw1 & Hw2); [auto|].
    rewrite Hb1 in Hw1. injection Hw1 as <- <-. eauto.
Qed.

(** X6. On a link table that the search has written and that passes the
    checks of the chi-square, no assertion of build_tracks fails: the build
    with assertions and the build without them assemble the same track. *)
Theorem assertions_do_not_fire (P : build_tracks_payload) (gi tip : Z)
    (l : candidate_link) (tc : track_candidate) :
  wf_links false (vsize (bt_measurements P)) (vsize (bt_seeds P)) (bt_links P) = true ->
  vat (bt_tips P) gi = Ok tip ->
  vat (bt_links P) tip = Ok l ->
  exists (tc' : track_candidate) v1 v2,
    build_tracks false gi P tc = Ok (tc', v1) /\
    build_tracks true gi P tc = Ok (tc', v2).
Proof.
  intros Hwf Htip Hl.
  apply (build_tracks_agree false true P gi tip l tc tc Hwf
           (wf_links_ndebug _ _ _ Hwf) Htip Hl).
  left. auto.
Qed.

(** ** The range of measurements of a slot *)

Lemma increasing_le (v : list Z) (i j : nat) x y :
  increasing v -> (i <= j)%nat -> v !! i = Some x -> v !! j = Some y -> x <= y.
Proof.
  intros Hinc Hij Hx Hy. destruct (decide (i = j)) as [->|Hne].
  - rewrite Hx in Hy. injection Hy as ->. lia.
  - pose proof (Hinc i j x y ltac:(lia) Hx Hy). lia.
Qed.

(** The binary search returns the first position of the range whose
    element is not less than the value. *)
Lemma lower_bound_from_spec (v : list Z) (value : Z) :
  increasing v ->
  forall (fuel : nat) (first len : Z),
    0 <= first -> 0 <= len -> first + len <= vsize v -> len < Z.of_nat fuel ->
    let r := lower_bound_from fuel v first len value in
    first <= r <= first + len /\
    (forall i x, first <= i < r -> v !! Z.to_nat i = Some x -> x < value) /\
    (forall i x, r <= i < first + len -> v !! Z.to_nat i = Some x -> value <= x).
Proof.
  intros Hinc fuel. induction fuel as [|fuel IH]; intros first len Hf Hl Hsz Hfuel;
    [lia|].
  simpl. destruct (Z.ltb_spec 0 len) as [Hpos|Hzero].
  - assert (Hhalf : 0 <= len / 2 < len).
    { split; [apply Z.div_pos; lia | apply Z.div_lt_upper_bound; lia]. }
    assert (Hmid : (Z.to_nat (first + len / 2) < length v)%nat)
      by (unfold vsize in Hsz; lia).
    apply lookup_lt_is_Some_2 in Hmid as [xm Hxm]. rewrite Hxm.
    destruct (Z.ltb_spec xm value) as [Hlt|Hge].
    + destruct (IH (first + len / 2 + 1) (len - len / 2 - 1)) as (Hr & Hlo & Hhi);
        try lia.
      split; [lia|]. split.
      * intros i x Hi Hx.
        destruct (Z_lt_le_dec i (first + len / 2 + 1)) as [Hs|Hs].
        -- pose proof (increasing_le v (Z.to_nat i) (Z.to_nat (first + len / 2))
                         x xm Hinc ltac:(lia) Hx Hxm). lia.
        -- apply (Hlo i x); [lia | assumption].
      * intros i x Hi Hx. apply (Hhi i x); [lia | assumption].
    + destruct (IH first (len / 2)) as (Hr & Hlo & Hhi); try lia.
      split; [lia|]. split.
      * intros i x Hi Hx. apply (Hlo i x); [lia | assumption].
      * intros i x Hi Hx.
        destruct (Z_lt_le_dec i (first + len / 2)) as [Hs|Hs].
        -- apply (Hhi i x); [lia | assumption].
        -- pose proof (increasing_le v (Z.to_nat (first + len / 2)) (Z.to_nat i)
                         xm x Hinc ltac:(lia) Hxm Hx). lia.
  - split; [lia|]. split; intros i x Hi Hx; lia.
Qed.

Lemma lower_bound_spec (v : list Z) (value : Z) :
  increasing v ->
  0 <= lower_bound v value <= vsize v /\
  (forall i x, 0 <= i < lower_bound v value -> v !! Z.to_nat i = Some x -> x < value) /\
  (forall i x, lower_bound v value <= i < vsize v -> v !! Z.to_nat i = Some x ->
               value <= x).
Proof.
  intros Hinc. unfold lower_bound.
  apply (lower_bound_from_spec v value Hinc (S (length v)) 0 (vsize v));
    unfold vsize; lia.
Qed.

Lemma lower_bound_found (v : list Z) (value : Z) (k : nat) :
  increasing v -> v !! k = Some value -> lower_bound v value = Z.of_nat k.
Proof.
  intros Hinc Hk. destruct (lower_bound_spec v value Hinc) as (Hr & Hlo & Hhi).
  pose proof (lookup_lt_Some _ _ _ Hk) as Hlen. unfold vsize in *.
  destruct (Z_lt_le_dec (Z.of_nat k) (lower_bound v value)) as [Hs|Hs].
  - pose proof (Hlo (Z.of_nat k) value ltac:(lia)
                  ltac:(rewrite Nat2Z.id; assumption)). lia.
  - destruct (Z_lt_le_dec (lower_bound v value) (Z.of_nat k)) as [Hs'|Hs']; [|lia].
    assert (Hr' : (Z.to_nat (lower_bound v value) < length v)%nat) by lia.
    apply lookup_lt_is_Some_2 in Hr' as [x Hx].
    pose proof (Hhi (lower_bound v value) x ltac:(lia) Hx).
    pose proof (Hinc (Z.to_nat (lower_bound v value)) k x value ltac:(lia) Hx Hk).
    lia.
Qed.

Lemma lower_bound_past_end (v : list Z) (value : Z) :
  increasing v -> Forall (fun x => x < value) v -> lower_bound v value = vsize v.
Proof.
  intros Hinc Hall. destruct (lower_bound_spec v value Hinc) as (Hr & Hlo & Hhi).
  destruct (Z_lt_le_dec (lower_bound v value) (vsize v)) as [Hs|Hs]; [|lia].
  assert (Hr' : (Z.to_nat (lower_bound v value) < length v)%nat)
    by (unfold vsize in *; lia).
  apply lookup_lt_is_Some_2 in Hr' as [x Hx].
  pose proof (Hhi (lower_bound v value) x ltac:(lia) Hx).
  rewrite Forall_lookup in Hall. pose proof (Hall _ _ Hx). simpl in *. lia.
Qed.

(** X7. For a live slot whose surface is entry [k] of the table of
    barcodes, in increasing order, the range of measurements starts at the
    upper bound of entry [k - 1] (at 0 for the first entry) and has as many
    measurements as the upper bound of entry [k] exceeds that. *)
Theorem range_of_listed_surface (P : find_tracks_payload) (id lv : Z)
    (par : bound_track_parameters) (k : nat) (init ub : Z) :
  id < n_in_params P ->
  vat (in_params_liveness_view P) id = Ok lv -> 0 < lv ->
  vat (in_params_view P) id = Ok par ->
  increasing (barcodes_view P) ->
  barcodes_view P !! k = Some (surface_link par) ->
  upper_bounds_view P !! k = Some ub ->
  (if decide (k = 0%nat) then init = 0
   else upper_bounds_view P !! (k - 1)%nat = Some init) ->
  measurement_range surface_link P id = Ok (init, wrap (ub - init)).
Proof.
  intros Hid Hlv Hlive Hpar Hinc Hk Hub Hinit.
  unfold measurement_range.
  apply Z.ltb_lt in Hid. rewrite Hid, Hlv. simpl.
  apply Z.ltb_lt in Hlive. rewrite Hlive, Hpar. simpl.
  rewrite (lower_bound_found _ _ _ Hinc Hk).
  pose proof (lookup_lt_Some _ _ _ Hk) as Hlen.
  assert (Hne : (Z.of_nat k =? vsize (barcodes_view P)) = false)
    by (apply Z.eqb_neq; unfold vsize; lia).
  rewrite Hne.
  assert (Hvub : vat (upper_bounds_view P) (Z.of_nat k) = Ok ub)
    by (apply vat_Ok; rewrite Nat2Z.id; split; [lia | assumption]).
  destruct (decide (k = 0%nat)) as [->|Hk0].
  - subst init. simpl. simpl in Hvub. rewrite Hvub. reflexivity.
  - assert (Hz : (Z.of_nat k =? 0) = false) by (apply Z.eqb_neq; lia).
    rewrite Hz.
    assert (Hvi : vat (upper_bounds_view P) (Z.of_nat k - 1) = Ok init).
    { apply vat_Ok. split; [lia|].
      replace (Z.to_nat (Z.of_nat k - 1)) with (k - 1)%nat by lia. assumption. }
    rewrite Hvi. simpl. rewrite Hvub. reflexivity.
Qed.

(** X8. A slot gets no measurement when its thread is beyond the
    parameters of the step, when it is not live, or when its surface comes
    after every barcode of the table; the first case reads no vector. *)
Theorem range_of_idle_slot (P : find_tracks_payload) (id : Z) :
  (n_in_params P <= id -> measurement_range surface_link P id = Ok (0, 0)) /\
  (id < n_in_params P ->
   vat (in_params_liveness_view P) id = Ok 0 ->
   measurement_range surface_link P id = Ok (0, 0)) /\
  (forall lv par,
     id < n_in_params P ->
     vat (in_params_liveness_view P) id = Ok lv -> 0 < lv ->
     vat (in_params_view P) id = Ok par ->
     increasing (barcodes_view P) ->
     Forall (fun b => b < surface_link par) (barcodes_view P) ->
     measurement_range surface_link P id = Ok (0, 0)).
Proof.
  unfold measurement_range. split; [|split].
  - intros Hid. apply Z.ltb_ge in Hid. rewrite Hid. reflexivity.
  - intros Hid Hlv. apply Z.ltb_lt in Hid. rewrite Hid, Hlv. reflexivity.
  - intros lv par Hid Hlv Hlive Hpar Hinc Hall.
    apply Z.ltb_lt in Hid. rewrite Hid, Hlv. simpl.
    apply Z.ltb_lt in Hlive. rewrite Hlive, Hpar. simpl.
    rewrite (lower_bound_past_end _ _ Hinc Hall), Z.eqb_refl. reflexivity.
Qed.

(** ** The shared buffer does not overflow *)

Lemma in_block_range (L : launch) (b : Z) (j : nat) :
  0 < blockDim L ->
  in_block L b j = true <->
  b * blockDim L <= Z.of_nat j < (b + 1) * blockDim L.
Proof.
  intros Hbd. unfold in_block, block_of. rewrite Z.eqb_eq. split.
  - intros <-. pose proof (Z.mul_div_le (Z.of_nat j) (blockDim L) Hbd).
    pose proof (Z.mul_succ_div_gt (Z.of_nat j) (blockDim L) Hbd). lia.
  - intros Hr. symmetry. apply (Z.div_unique _ _ b (Z.of_nat j - b * blockDim L)); lia.
Qed.

(** A block has at most [blockDim] threads, so at most [blockDim - 1]
    besides one that is not filling. *)
Lemma pend_from_bound (L : launch) (b : Z) (ts : list thread) :
  0 < blockDim L ->
  forall j, pend_from L b j ts <=
            Z.max 0 ((b + 1) * blockDim L - Z.max (Z.of_nat j) (b * blockDim L)).
Proof.
  intros Hbd. induction ts as [|t ts IH]; intros j; simpl; [lia|].
  specialize (IH (S j)).
  destruct (in_block L b j) eqn:Hin; simpl.
  - apply in_block_range in Hin; [|assumption].
    destruct (filling (t_pc t)); lia.
  - lia.
Qed.

Lemma pend_from_other (L : launch) (b : Z) (ts : list thread) (i : nat) (t : thread) :
  0 < blockDim L ->
  forall j, ts !! i = Some t -> in_block L b (j + i) = true ->
            filling (t_pc t) = false ->
            pend_from L b j ts <=
            Z.max 0 ((b + 1) * blockDim L - Z.max (Z.of_nat j) (b * blockDim L)) - 1.
Proof.
  intros Hbd. revert i. induction ts as [|t0 ts IH]; intros i j Hi Hin Hf;
    [discriminate|].
  simpl. destruct i as [|i]; simpl in Hi.
  - injection Hi as ->. rewrite Nat.add_0_r in Hin. rewrite Hin, Hf. simpl.
    pose proof (pend_from_bound L b ts Hbd (S j)).
    apply in_block_range in Hin; [|assumption]. lia.
  - specialize (IH i (S j) Hi).
    replace (S j + i)%nat with (j + S i)%nat in IH by lia.
    specialize (IH Hin Hf).
    destruct (in_block L b j) eqn:Hinj; simpl.
    + apply in_block_range in Hinj; [|assumption].
      destruct (filling (t_pc t0)); lia.
    + lia.
Qed.

Lemma pend_from_insert (L : launch) (b : Z) (ts : list thread) (i : nat)
    (t t' : thread) :
  forall j, ts !! i = Some t ->
    pend_from L b j (<[i := t']> ts) =
    pend_from L b j ts
    - (if in_block L b (j + i) && filling (t_pc t) then 1 else 0)
    + (if in_block L b (j + i) && filling (t_pc t') then 1 else 0).
Proof.
  revert i. induction ts as [|t0 ts IH]; intros i j Hi; [discriminate|].
  destruct i as [|i]; simpl in *.
  - injection Hi as ->. rewrite Nat.add_0_r. lia.
  - rewrite (IH i (S j) Hi).
    replace (S j + i)%nat with (j + S i)%nat by lia. lia.
Qed.

Lemma pend_from_imap (L : launch) (b : Z) (ts : list thread) :
  forall j (f : nat -> thread -> thread),
    (forall n t, filling (t_pc (f n t)) = filling (t_pc t)) ->
    pend_from L b j (imap f ts) = pend_from L b j ts.
Proof.
  induction ts as [|t ts IH]; intros j f Hf; [reflexivity|].
  simpl. rewrite Hf. rewrite IH; [reflexivity|].
  intros n t0. apply Hf.
Qed.

Lemma pend_from_release (L : launch) (b b' : Z) (bar : barrier) (ts : list thread) :
  pend_from L b 0 (release L b' bar ts) = pend_from L b 0 ts.
Proof.
  unfold release. apply pend_from_imap. intros n t.
  destruct (in_block L b' n); simpl; [|reflexivity].
  destruct (bool_decide (waiting (t_pc t) = Some bar)) eqn:Hw; [|reflexivity].
  apply bool_decide_eq_true in Hw.
  assert (Ht : filling (t_pc t) = false)
    by (destruct (t_pc t); simpl in *; try discriminate; reflexivity).
  rewrite Ht. destruct bar; simpl; try reflexivity.
  destruct (any_vote L b' ts); reflexivity.
Qed.

Ltac buffer_same :=
  simpl;
  repeat match goal with Hpc : t_pc ?t = _ |- context [t_pc ?t] => rewrite Hpc end;
  split; [assumption|]; split; [assumption|]; left; simpl; lia.

(** What one transition does to the buffer of the block: the number of
    entries and of threads about to add one does not grow, except when a
    thread that has seen fewer than [blockDim] entries starts to fill. *)
Lemma thread_step_buffer (L : launch) (bid lid : Z) (g g' : global_mem)
    (sh sh' : shared_mem) (t t' : thread) :
  0 < blockDim L -> 2 * blockDim L <= UINT_MAX ->
  thread_step L bid lid g sh t = Ok (g', sh', t') ->
  vsize (shared_candidates sh) = 2 * blockDim L ->
  0 <= shared_candidates_size sh <= 2 * blockDim L - 1 ->
  (filling (t_pc t) = true -> shared_candidates_size sh <= 2 * blockDim L - 2) ->
  vsize (shared_candidates sh') = 2 * blockDim L /\
  0 <= shared_candidates_size sh' /\
  (shared_candidates_size sh' + (if filling (t_pc t') then 1 else 0)
     <= shared_candidates_size sh + (if filling (t_pc t) then 1 else 0)
   \/ (filling (t_pc t) = false /\ filling (t_pc t') = true /\
       shared_candidates_size sh' = shared_candidates_size sh /\
       shared_candidates_size sh < blockDim L)).
Proof.
  intros Hbd Hmax Hstep Hlen [H0 Hub] Hfill. unfold thread_step in Hstep.
  destruct (t_pc t) as [| | | |v| | | | | |o|k|k|k| | | | |prev seed|] eqn:Hpc;
    simpl in Hfill.
  - (* PInit *)
    apply bind_Ok in Hstep as (nc & Hnc & Hstep).
    unfold mret, result_ret in Hstep. injection Hstep as <- <- <-. simpl.
    split; [assumption|]. destruct (lid =? 0); split; try lia; left; lia.
  - inv_ok. simpl. buffer_same.
  - (* PRange *)
    apply bind_Ok in Hstep as ([im nm] & Hr & Hstep).
    unfold mret, result_ret in Hstep. injection Hstep as <- <- <-. simpl.
    buffer_same.
  - inv_ok. simpl. buffer_same.
  - inv_ok. simpl. buffer_same.
  - (* PFillTest *)
    destruct (curr_meas t <? num_meas t); simpl in Hstep.
    + destruct (Z.ltb_spec (shared_candidates_size sh) (blockDim L));
        unfold mret, result_ret in Hstep; injection Hstep as <- <- <-; simpl.
      * split; [assumption|]. split; [assumption|]. right. auto.
      * buffer_same.
    + unfold mret, result_ret in Hstep; injection Hstep as <- <- <-; simpl.
      buffer_same.
  - (* PFillCheck *)
    apply bind_Ok in Hstep as (seed & Hseed & Hstep).
    apply bind_Ok in Hstep as (n & Hn & Hstep).
    destruct (max_num_branches_per_seed (cfg L) <=? n);
      unfold mret, result_ret in Hstep; injection Hstep as <- <- <-; simpl;
      buffer_same.
  - (* PFillPush *)
    apply bind_Ok in Hstep as (cands & Hc & Hstep).
    unfold mret, result_ret in Hstep. injection Hstep as <- <- <-. simpl.
    apply vset_Ok in Hc as [_ ->]. specialize (Hfill eq_refl).
    rewrite (wrap_small (shared_candidates_size sh + 1)) by lia.
    unfold vsize in *. rewrite length_insert.
    split; [assumption|]. split; [lia|]. left. lia.
  - inv_ok. simpl. buffer_same.
  - (* PPick *)
    destruct (lid <? shared_candidates_size sh).
    + apply bind_Ok in Hstep as (entry & He & Hstep).
      apply bind_Ok in Hstep as (u & Hu & Hstep).
      apply bind_Ok in Hstep as (seed & Hseed & Hstep).
      apply bind_Ok in Hstep as (par & Hpar & Hstep).
      apply bind_Ok in Hstep as (m & Hm & Hstep).
      apply bind_Ok in Hstep as (n & Hn & Hstep).
      destruct (n <? max_num_branches_per_seed (cfg L)).
      * destruct (is_success _ && s_ltb _ _);
          unfold mret, result_ret in Hstep; injection Hstep as <- <- <-; simpl;
          buffer_same.
      * unfold mret, result_ret in Hstep; injection Hstep as <- <- <-; simpl;
          buffer_same.
    + unfold mret, result_ret in Hstep; injection Hstep as <- <- <-; simpl;
        buffer_same.
  - (* PSaturated *)
    apply bind_Ok in Hstep as ([old nc] & Hf & Hstep).
    unfold mret, result_ret in Hstep. injection Hstep as <- <- <-. simpl.
    buffer_same.
  - (* PCount *)
    apply bind_Ok in Hstep as ([old nc] & Hf & Hstep).
    unfold mret, result_ret in Hstep. injection Hstep as <- <- <-. simpl.
    buffer_same.
  - (* PReserve *)
    apply bind_Ok in Hstep as ([s_pos cs] & Hf & Hstep).
    destruct (s_pos <? max_num_branches_per_seed (cfg L));
      unfold mret, result_ret in Hstep; injection Hstep as <- <- <-; simpl;
      buffer_same.
  - (* PAppend *)
    apply bind_Ok in Hstep as (u & Hu & Hstep).
    apply bind_Ok in Hstep as (sk & Hsk & Hstep).
    apply bind_Ok in Hstep as ([l_pos g1] & Happ & Hstep).
    destruct (last_step L && _);
      unfold mret, result_ret in Hstep; injection Hstep as <- <- <-; simpl;
      buffer_same.
  - inv_ok. simpl. buffer_same.
  - (* PCompact *)
    apply bind_Ok in Hstep as (spill & Hsp & Hstep).
    apply bind_Ok in Hstep as (cands & Hc & Hstep).
    unfold mret, result_ret in Hstep. injection Hstep as <- <- <-. simpl.
    apply vset_Ok in Hc as [_ ->]. unfold vsize in *. rewrite length_insert.
    split; [assumption|].
    destruct (lid =? 0); [|split; [assumption|]; left; lia].
    destruct (Z.leb_spec (blockDim L) (shared_candidates_size sh)).
    + rewrite (wrap_small (shared_candidates_size sh - blockDim L)) by lia.
      split; [lia|]. left. lia.
    + split; [lia|]. left. lia.
  - (* PHoleTest *)
    apply bind_Ok in Hstep as (live & Hlive & Hstep).
    destruct live.
    + apply bind_Ok in Hstep as (nc & Hnc & Hstep).
      destruct (nc =? 0);
        unfold mret, result_ret in Hstep; injection Hstep as <- <- <-; simpl;
        buffer_same.
    + unfold mret, result_ret in Hstep; injection Hstep as <- <- <-; simpl;
        buffer_same.
  - (* PHoleReserve *)
    apply bind_Ok in Hstep as (seed & Hseed & Hstep).
    apply bind_Ok in Hstep as ([s_pos cs] & Hf & Hstep).
    destruct (s_pos <? max_num_branches_per_seed (cfg L));
      unfold mret, result_ret in Hstep; injection Hstep as <- <- <-; simpl;
      buffer_same.
  - (* PHoleEmit *)
    apply bind_Ok in Hstep as (sk & Hsk & Hstep).
    destruct ((max_num_skipping_per_cand (cfg L) <=? sk) || last_step L).
    + destruct (min_track_candidates_per_track (cfg L) <=? _).
      * apply bind_Ok in Hstep as (u & Hu & Hstep).
        unfold mret, result_ret in Hstep; injection Hstep as <- <- <-; simpl;
          buffer_same.
      * unfold mret, result_ret in Hstep; injection Hstep as <- <- <-; simpl;
          buffer_same.
    + apply bind_Ok in Hstep as (par & Hpar & Hstep).
      apply bind_Ok in Hstep as ([l_pos g1] & Happ & Hstep).
      unfold mret, result_ret in Hstep; injection Hstep as <- <- <-; simpl;
        buffer_same.
  - inv_ok. simpl. buffer_same.
Qed.

Lemma pend_from_nonneg (L : launch) (b : Z) (ts : list thread) :
  forall j, 0 <= pend_from L b j ts.
Proof.
  induction ts as [|t ts IH]; intros j; simpl; [lia|].
  specialize (IH (S j)). destruct (in_block L b j && filling (t_pc t)); lia.
Qed.

Lemma block_of_nonneg (L : launch) (i : nat) :
  0 < blockDim L -> 0 <= block_of L i.
Proof. intros Hbd. unfold block_of. apply Z.div_pos; lia. Qed.

(** ** The table stays well formed *)

(** Decomposes the result of a transition into its components. *)
Ltac step_ok Hstep :=
  repeat match type of Hstep with
  | (_ ≫= _) = Ok _ =>
      let x := fresh "x" in
      let Hx := fresh "Hx" in
      apply bind_Ok in Hstep as (x & Hx & Hstep)
  | (let '(_, _) := ?p in _) = Ok _ => destruct p
  | (if ?c then _ else _) = Ok _ => destruct c eqn:?
  | mret _ = Ok _ => unfold mret, result_ret in Hstep
  | Ok _ = Ok _ => injection Hstep as <- <- <-
  | Fault _ = Ok _ => discriminate Hstep
  end.

Lemma thread_step_phase (L : launch) bid lid (g g' : global_mem) sh sh'
    (t t' : thread) :
  thread_step L bid lid g sh t = Ok (g', sh', t') ->
  phase (t_pc t') = phase (t_pc t).
Proof.
  intros Hstep. unfold thread_step in Hstep.
  destruct (t_pc t) eqn:Hpc; step_ok Hstep; simpl; try rewrite Hpc; reflexivity.
Qed.

(** What a transition does to the buffer of the block. *)
Lemma thread_step_shared (L : launch) bid lid (g g' : global_mem) sh sh'
    (t t' : thread) :
  0 < blockDim L ->
  thread_step L bid lid g sh t = Ok (g', sh', t') ->
  0 <= shared_candidates_size sh <= UINT_MAX ->
  0 <= shared_candidates_size sh' <= UINT_MAX /\
  match t_pc t with
  | PInit =>
      shared_candidates sh' = shared_candidates sh /\
      shared_candidates_size sh' =
        (if lid =? 0 then 0 else shared_candidates_size sh) /\
      t_pc t' = PBarrier0
  | PFillPush =>
      shared_candidates sh' =
        <[Z.to_nat (shared_candidates_size sh) :=
            (wrap (init_meas t + curr_meas t), lid)]> (shared_candidates sh) /\
      shared_candidates_size sh' = wrap (shared_candidates_size sh + 1)
  | PCompact =>
      (exists spill,
         shared_candidates sh !! Z.to_nat (wrap (lid + blockDim L)) = Some spill /\
         shared_candidates sh' = <[Z.to_nat lid := spill]> (shared_candidates sh)) /\
      shared_candidates_size sh' =
        (if lid =? 0
         then if blockDim L <=? shared_candidates_size sh
              then shared_candidates_size sh - blockDim L
              else 0
         else shared_candidates_size sh) /\
      t_pc t' = PLoopTest
  | _ =>
      shared_candidates sh' = shared_candidates sh /\
      shared_candidates_size sh' = shared_candidates_size sh
  end.
Proof.
  intros Hbd Hstep Hsize. unfold thread_step in Hstep.
  destruct (t_pc t) eqn:Hpc; step_ok Hstep; simpl; auto.
  - (* PInit *) destruct (lid =? 0); auto with lia.
  - (* PFillPush *)
    apply vset_Ok in Hx as [_ ->].
    split; [apply wrap_range|auto].
  - (* PCompact *)
    apply vset_Ok in Hx0 as [_ ->]. apply vat_Ok in Hx as [_ Hx].
    destruct (lid =? 0); [|eauto 6].
    destruct (Z.leb_spec (blockDim L) (shared_candidates_size sh)).
    + rewrite (wrap_small (shared_candidates_size sh - blockDim L)) by lia.
      split; [lia|]. eauto.
    + split; [lia|]. eauto.
Qed.

Lemma measurement_range_idle (P : find_tracks_payload) (id im nm : Z) :
  measurement_range surface_link P id = Ok (im, nm) ->
  0 <= nm /\ (0 < nm -> id < n_in_params P).
Proof.
  unfold measurement_range. intros Hr.
  destruct (Z.ltb_spec id (n_in_params P)) as [Hid|Hid].
  - split; [|auto].
    step_ok Hr.
    all: repeat match goal with
         | Heq : (_, _) = (_, _) |- _ => injection Heq as ? ?; subst
         | Heq : Ok _ = Ok _ |- _ => injection Heq as ? ?; subst
         end; try lia; try apply wrap_range.
  - simpl in Hr. injection Hr as _ <-. lia.
Qed.

Lemma thread_step_local (L : launch) bid lid (g g' : global_mem) sh sh'
    (t t' : thread) :
  thread_step L bid lid g sh t = Ok (g', sh', t') ->
  thread_local L (global_thread_id L bid lid) t ->
  thread_local L (global_thread_id L bid lid) t'.
Proof.
  intros Hstep (Hnum & Hcurr & Hlive & Hpcs). unfold thread_step in Hstep.
  unfold thread_local.
  destruct (t_pc t) eqn:Hpc; step_ok Hstep; simpl; try rewrite Hpc; auto.
  - (* PRange *)
    destruct (measurement_range_idle _ _ _ _ Hx). repeat split; auto with lia.
  - (* PFillTest, room *)
    apply andb_true_iff in Heqb as [Hlt _]. apply Z.ltb_lt in Hlt.
    repeat split; auto. apply Hlive. lia.
  - (* PFillPush *)
    repeat split; auto. apply wrap_range.
  - (* PHoleTest *)
    repeat split; auto.
    destruct (Z.ltb_spec (global_thread_id L bid lid) (n_in_params (payload L)));
      [assumption|].
    step_ok Hx. discriminate.
Qed.

Lemma fetch_add_range (v v' : list Z) (i old : Z) :
  fetch_add v i = Ok (old, v') -> 0 <= i < vsize v /\ vsize v' = vsize v.
Proof.
  intros [[Hi Hlk]%vat_Ok ->]%fetch_add_Ok. unfold vsize.
  rewrite length_insert. apply lookup_lt_Some in Hlk. lia.
Qed.

(** The previous link and the seed that a thread holds, and the record it
    appends. *)
Lemma thread_step_held (L : launch) bid lid (g g' : global_mem) sh sh'
    (t t' : thread) :
  thread_step L bid lid g sh t = Ok (g', sh', t') ->
  held_ok L (vsize (n_tracks_per_seed g)) (t_pc t) ->
  thread_local L (global_thread_id L bid lid) t ->
  (t_pc t = PPick -> lid < shared_candidates_size sh ->
   forall e, shared_candidates sh !! Z.to_nat lid = Some e -> owner_ok L bid e) ->
  vsize (n_tracks_per_seed g') = vsize (n_tracks_per_seed g) /\
  held_ok L (vsize (n_tracks_per_seed g)) (t_pc t') /\
  (links g' = links g \/
   exists l, links g' = links g ++ [l] /\
             sourced L (vsize (n_tracks_per_seed g)) l).
Proof.
  intros Hstep Hheld (_ & _ & _ & Hpcs) Hview. unfold thread_step in Hstep.
  destruct (t_pc t) eqn:Hpc; simpl in Hheld, Hpcs.
  1-9, 11-12, 15-17, 20:
    solve [step_ok Hstep; simpl; try rewrite Hpc; simpl; auto].
  - (* PPick *)
    destruct (Z.ltb_spec lid (shared_candidates_size sh)) as [Hlt|Hge];
      [|step_ok Hstep; simpl; auto].
    apply bind_Ok in Hstep as (entry & He & Hstep).
    apply vat_Ok in He as [_ He].
    specialize (Hview eq_refl Hlt entry He). unfold owner_ok in Hview.
    step_ok Hstep; simpl; auto.
    split; [reflexivity|]. split; [|auto].
    eexists. split; [|reflexivity].
    split; [apply wrap_range|assumption].
  - (* PReserve *)
    apply bind_Ok in Hstep as ([s_pos cs] & Hf & Hstep).
    apply fetch_add_range in Hf as [Hseed Hlen].
    destruct (s_pos <? _); step_ok Hstep; simpl; auto.
  - (* PAppend *)
    destruct Hheld as [Horigin Hseed].
    apply bind_Ok in Hstep as (u & Hu & Hstep).
    apply bind_Ok in Hstep as (sk & Hsk & Hstep).
    apply bind_Ok in Hstep as ([l_pos g1] & Happ & Hstep).
    apply append_link_Ok in Happ as (Hl & _ & Hc & _).
    assert (Hsrc : sourced L (vsize (n_tracks_per_seed g))
                     (mk_link (p_step (payload L)) (pk_prev_link_idx k)
                        (pk_meas_idx k) (pk_seed_idx k) sk
                        (filtered_chi2 (pk_state k)))).
    { split; [assumption|]. split; [assumption|]. simpl. intros Hnd _.
      unfold assert in Hu. rewrite Hnd in Hu.
      destruct (s_leb s_zero _); [reflexivity|discriminate]. }
    destruct (last_step L && _); step_ok Hstep; simpl; rewrite Hc;
      (split; [reflexivity|]); (split; [exact I|]); right; eauto.
  - (* PHoleReserve *)
    apply bind_Ok in Hstep as (seed & Hs & Hstep).
    apply bind_Ok in Hstep as ([s_pos cs] & Hf & Hstep).
    apply fetch_add_range in Hf as [Hseed Hlen].
    destruct (s_pos <? _); step_ok Hstep; simpl; auto.
    split; [assumption|]. split; [|auto]. split; [|assumption].
    eexists. split; [|reflexivity].
    split; [apply wrap_range|assumption].
  - (* PHoleEmit *)
    destruct Hheld as [Horigin Hseed].
    apply bind_Ok in Hstep as (sk & Hsk & Hstep).
    destruct ((max_num_skipping_per_cand (cfg L) <=? sk) || last_step L).
    + step_ok Hstep; simpl; auto.
    + apply bind_Ok in Hstep as (par & Hpar & Hstep).
      apply bind_Ok in Hstep as ([l_pos g1] & Happ & Hstep).
      apply append_link_Ok in Happ as (Hl & _ & Hc & _).
      step_ok Hstep. simpl. rewrite Hc.
      split; [reflexivity|]. split; [exact I|]. right.
      eexists. split; [eassumption|].
      split; [assumption|]. split; [assumption|]. simpl.
      intros _ Hh. unfold is_hole in Hh. simpl in Hh.
      try rewrite Z.eqb_refl in Hh. discriminate.
Qed.

(** *** The threads of a block *)

Lemma local_of_range (L : launch) (i : nat) :
  0 < blockDim L -> 0 <= local_of L i < blockDim L.
Proof. intros Hbd. unfold local_of. apply Z.mod_pos_bound. assumption. Qed.

Lemma block_local (L : launch) (i : nat) :
  0 < blockDim L ->
  Z.of_nat i = block_of L i * blockDim L + local_of L i.
Proof.
  intros Hbd. unfold block_of, local_of.
  pose proof (Z.div_mod (Z.of_nat i) (blockDim L)). lia.
Qed.

Lemma block_of_nth (L : launch) (b j : Z) :
  0 < blockDim L -> 0 <= b -> 0 <= j < blockDim L ->
  block_of L (Z.to_nat (b * blockDim L + j)) = b /\
  local_of L (Z.to_nat (b * blockDim L + j)) = j.
Proof.
  intros Hbd Hb Hj. unfold block_of, local_of.
  rewrite Z2Nat.id by nia. split.
  - symmetry. apply (Z.div_unique _ _ b j); lia.
  - symmetry. apply (Z.mod_unique _ _ b j); lia.
Qed.

Lemma same_block_local (L : launch) (i j : nat) :
  0 < blockDim L ->
  block_of L i = block_of L j -> local_of L i = local_of L j -> i = j.
Proof.
  intros Hbd Hb Hl.
  pose proof (block_local L i Hbd). pose proof (block_local L j Hbd). lia.
Qed.

Lemma block_thread_exists (L : launch) (nb : nat) (ts : list thread) (i : nat)
    (t : thread) (j : Z) :
  0 < blockDim L ->
  length ts = (nb * Z.to_nat (blockDim L))%nat ->
  ts !! i = Some t -> 0 <= j < blockDim L ->
  exists tj, ts !! Z.to_nat (block_of L i * blockDim L + j) = Some tj.
Proof.
  intros Hbd Hlen Hi Hj. apply lookup_lt_is_Some_2.
  apply lookup_lt_Some in Hi.
  pose proof (block_local L i Hbd). pose proof (local_of_range L i Hbd).
  pose proof (block_of_nonneg L i Hbd).
  assert (block_of L i < Z.of_nat nb) by nia.
  nia.
Qed.

Lemma all_arrived_spec (L : launch) (b : Z) (bar : barrier) (ts : list thread) :
  all_arrived L b bar ts = true ->
  forall j t, ts !! j = Some t -> in_block L b j = true ->
              waiting (t_pc t) = Some bar.
Proof.
  unfold all_arrived. intros Hall j t Hj Hin.
  rewrite forallb_forall in Hall.
  assert (Hel : List.In (j, t) (imap (fun j t => (j, t)) ts)).
  { apply list_elem_of_In. apply list_elem_of_lookup. exists j.
    rewrite list_lookup_imap, Hj. reflexivity. }
  specialize (Hall _ Hel). simpl in Hall. rewrite Hin in Hall. simpl in Hall.
  apply bool_decide_eq_true in Hall. assumption.
Qed.

Lemma release_lookup (L : launch) (b : Z) (bar : barrier) (ts : list thread)
    (j : nat) (t' : thread) :
  all_arrived L b bar ts = true ->
  release L b bar ts !! j = Some t' ->
  exists t, ts !! j = Some t /\
    ((in_block L b j = true /\ waiting (t_pc t) = Some bar /\
      t' = goto t (after bar (any_vote L b ts))) \/
     (in_block L b j = false /\ t' = t)).
Proof.
  intros Hall Hj. unfold release in Hj. rewrite list_lookup_imap in Hj.
  destruct (ts !! j) as [t|] eqn:Ht; [|discriminate]. simpl in Hj.
  injection Hj as <-. exists t. split; [reflexivity|].
  destruct (in_block L b j) eqn:Hin; simpl; [|auto].
  pose proof (all_arrived_spec _ _ _ _ Hall j t Ht Hin) as Hw.
  rewrite bool_decide_eq_true_2 by assumption. auto.
Qed.

Lemma release_lookup_in (L : launch) (b : Z) (bar : barrier) (ts : list thread)
    (j : nat) (t : thread) :
  all_arrived L b bar ts = true ->
  ts !! j = Some t -> in_block L b j = true ->
  release L b bar ts !! j = Some (goto t (after bar (any_vote L b ts))).
Proof.
  intros Hall Hj Hin. unfold release. rewrite list_lookup_imap, Hj. simpl.
  rewrite Hin. simpl.
  rewrite bool_decide_eq_true_2 by (eapply all_arrived_spec; eauto).
  reflexivity.
Qed.

Lemma release_lookup_out (L : launch) (b : Z) (bar : barrier) (ts : list thread)
    (j : nat) :
  in_block L b j = false -> release L b bar ts !! j = ts !! j.
Proof.
  intros Hin. unfold release. rewrite list_lookup_imap.
  destruct (ts !! j); simpl; [|reflexivity]. rewrite Hin. reflexivity.
Qed.

Lemma grid_step_cases_arrived (L : launch) (i : nat) (s s' : grid) :
  grid_step L i s = Ok s' ->
  s' = s
  \/ (exists bar,
        all_arrived L (block_of L i) bar (threads s) = true /\
        s' = mk_grid (glob s) (blocks s)
                     (release L (block_of L i) bar (threads s)))
  \/ (exists (t t' : thread) sh sh' (g' : global_mem),
        threads s !! i = Some t /\
        vat (blocks s) (block_of L i) = Ok sh /\
        thread_step L (block_of L i) (local_of L i) (glob s) sh t = Ok (g', sh', t') /\
        s' = mk_grid g' (<[Z.to_nat (block_of L i) := sh']> (blocks s))
                     (<[i := t']> (threads s))).
Proof.
  intros Hstep. unfold grid_step in Hstep.
  destruct (threads s !! i) as [t|] eqn:Ht.
  - destruct (waiting (t_pc t)) as [bar|] eqn:Hw.
    + destruct (all_arrived _ _ _ _) eqn:Hall; injection Hstep as <-; eauto.
    + apply bind_Ok in Hstep as (sh & Hsh & Hstep).
      apply bind_Ok in Hstep as ([[g1 sh1] t1] & Hts & Hstep).
      injection Hstep as <-. right. right.
      exists t, t1, sh, sh1, g1. auto.
  - injection Hstep as <-. auto.
Qed.

(** *** The size after the spill-over is moved *)

Lemma post_size_range (L : launch) (b : Z) (sh : shared_mem) (ts : list thread) :
  0 < blockDim L -> 0 <= shared_candidates_size sh ->
  0 <= post_size L b sh ts <= shared_candidates_size sh.
Proof.
  intros Hbd Hsz. unfold post_size.
  destruct (ts !! _) as [t0|]; [|lia].
  destruct (t_pc t0); try lia.
  destruct (Z.leb_spec (blockDim L) (shared_candidates_size sh)); lia.
Qed.

Lemma post_size_ext (L : launch) (b : Z) (sh sh' : shared_mem) (ts ts' : list thread) :
  shared_candidates_size sh' = shared_candidates_size sh ->
  ts' !! Z.to_nat (b * blockDim L) = ts !! Z.to_nat (b * blockDim L) ->
  post_size L b sh' ts' = post_size L b sh ts.
Proof. intros Hsz Hts. unfold post_size. rewrite Hsz, Hts. reflexivity. Qed.

Lemma thread_view_ext (L : launch) (i : nat) (t : thread) (sh sh' : shared_mem)
    (ts ts' : list thread) :
  shared_candidates sh' = shared_candidates sh ->
  shared_candidates_size sh' = shared_candidates_size sh ->
  post_size L (block_of L i) sh' ts' = post_size L (block_of L i) sh ts ->
  thread_view L i t sh ts -> thread_view L i t sh' ts'.
Proof.
  intros Hc Hsz Hpost. unfold thread_view. rewrite Hc, Hsz, Hpost. auto.
Qed.

Lemma thread_view_goto (L : launch) (i : nat) (t t' : thread) (sh : shared_mem)
    (ts : list thread) :
  phase (t_pc t') = phase (t_pc t) -> t_pc t <> PCompact ->
  thread_view L i t sh ts -> thread_view L i t' sh ts.
Proof.
  intros Hph Hnc. unfold thread_view. rewrite Hph.
  destruct (phase (t_pc t)) as [|[|n]]; auto.
  intros [Hlow Hhigh]. split; auto.
Qed.

Lemma block_first (L : launch) (b : Z) :
  0 < blockDim L -> 0 <= b ->
  block_of L (Z.to_nat (b * blockDim L)) = b /\
  local_of L (Z.to_nat (b * blockDim L)) = 0.
Proof.
  intros Hbd Hb. pose proof (block_of_nth L b 0 Hbd Hb ltac:(lia)) as Hn.
  rewrite Z.add_0_r in Hn. assumption.
Qed.

Lemma in_block_true (L : launch) (b : Z) (j : nat) :
  in_block L b j = true <-> block_of L j = b.
Proof. unfold in_block. apply Z.eqb_eq. Qed.

Lemma in_block_false (L : launch) (b : Z) (j : nat) :
  in_block L b j = false <-> block_of L j <> b.
Proof. unfold in_block. apply Z.eqb_neq. Qed.

(** *** A barrier opens *)

Lemma release_origin (L : launch) (nb n0 : nat) (s : grid) (b : Z) (bar : barrier) :
  0 < blockDim L ->
  origin_inv L nb n0 s ->
  all_arrived L b bar (threads s) = true ->
  origin_inv L nb n0 (mk_grid (glob s) (blocks s) (release L b bar (threads s))).
Proof.
  intros Hbd (Hnb & Hlen & Hph & Hth & Hlk) Hall.
  split; [exact Hnb|]. split; [unfold release; simpl; rewrite length_imap; exact Hlen|].
  split; [|split; [|exact Hlk]]; simpl.
  - (* the same part of the kernel *)
    intros i j ti tj Hi Hj Hblk.
    apply (release_lookup _ _ _ _ _ _ Hall) in Hi
      as (ti0 & Hi0 & [(Hini & Hwi & ->)|(Hini & ->)]);
    apply (release_lookup _ _ _ _ _ _ Hall) in Hj
      as (tj0 & Hj0 & [(Hinj & Hwj & ->)|(Hinj & ->)]).
    + reflexivity.
    + apply in_block_true in Hini. apply in_block_false in Hinj. congruence.
    + apply in_block_false in Hini. apply in_block_true in Hinj. congruence.
    + eauto.
  - intros j t' sh Hj Hsh.
    apply (release_lookup _ _ _ _ _ _ Hall) in Hj
      as (t & Ht & [(Hin & Hw & ->)|(Hin & ->)]);
      destruct (Hth j t sh Ht Hsh) as (Hsz & Hview & Hloc & Hheld).
    + (* a thread of the block *)
      apply in_block_true in Hin.
      pose proof (block_of_nonneg L j Hbd) as Hb. rewrite Hin in Hb.
      destruct (block_first L b Hbd Hb) as [Hb0 Hl0].
      destruct (block_thread_exists L nb (threads s) j t 0 Hbd Hlen Ht ltac:(lia))
        as (t0 & Ht0).
      rewrite Hin, Z.add_0_r in Ht0.
      assert (Hw0 : waiting (t_pc t0) = Some bar).
      { apply (all_arrived_spec _ _ _ _ Hall _ _ Ht0). apply in_block_true.
        assumption. }
      assert (Ht0' : release L b bar (threads s) !! Z.to_nat (b * blockDim L)
                     = Some (goto t0 (after bar (any_vote L b (threads s))))).
      { apply release_lookup_in; [assumption|assumption|].
        apply in_block_true. assumption. }
      split; [exact Hsz|]. split; [|split].
      * unfold thread_view in Hview |- *. rewrite Hin in Hview |- *.
        destruct bar; destruct (t_pc t) eqn:Hpc; try discriminate Hw;
          simpl in Hview |- *.
        -- (* the first barrier: thread 0 has set the size *)
           assert (Hzero : shared_candidates_size sh = 0).
           { unfold post_size in Hview. rewrite Ht0 in Hview.
             destruct (t_pc t0); try discriminate Hw0; exact Hview. }
           pose proof (post_size_range L b sh (release L b B0 (threads s)) Hbd
                         ltac:(lia)) as Hpost.
           pose proof (local_of_range L j Hbd).
           split; intros; lia.
        -- (* blockOr *)
           destruct (any_vote L b (threads s)); simpl; [|exact I].
           destruct Hview as [_ Hhigh].
           assert (Hpost : post_size L b sh (threads s) = shared_candidates_size sh).
           { unfold post_size. rewrite Ht0.
             destruct (t_pc t0); try discriminate Hw0; reflexivity. }
           rewrite Hpost in Hhigh.
           intros j' e He Hlt.
           destruct (Z.lt_ge_cases (Z.of_nat j') (blockDim L)) as [Hlow|Hup];
             [|apply (Hhigh j' e He); lia].
           destruct (block_thread_exists L nb (threads s) j t (Z.of_nat j') Hbd
                       Hlen Ht ltac:(lia)) as (tk & Htk).
           rewrite Hin in Htk.
           destruct (block_of_nth L b (Z.of_nat j') Hbd Hb ltac:(lia)) as [Hbk Hlk'].
           assert (Hwk : waiting (t_pc tk) = Some BOr).
           { apply (all_arrived_spec _ _ _ _ Hall _ _ Htk). apply in_block_true.
             assumption. }
           assert (Hshk : blocks s !! Z.to_nat
                            (block_of L (Z.to_nat (b * blockDim L + Z.of_nat j')))
                          = Some sh) by (rewrite Hbk, <- Hin; exact Hsh).
           destruct (Hth _ tk sh Htk Hshk) as (_ & Hvk & _).
           unfold thread_view in Hvk. rewrite Hbk, Hlk' in Hvk.
           destruct (t_pc tk) eqn:Hpck; try discriminate Hwk. simpl in Hvk.
           destruct Hvk as [Hlowk _]. apply Hlowk.
           ++ discriminate.
           ++ rewrite Nat2Z.id. assumption.
           ++ rewrite Hpost. assumption.
        -- (* the barrier after the filling *)
           exact Hview.
        -- (* the barrier after the pairs *)
           split; [intros Hne; contradiction|].
           intros j' e He Hr. apply (Hview j' e He).
           unfold post_size in Hr. rewrite Ht0' in Hr. simpl in Hr.
           destruct (Z.leb_spec (blockDim L) (shared_candidates_size sh)); lia.
      * destruct Hloc as (Hn & Hc & Hl & _). unfold thread_local. simpl.
        repeat split; auto.
        destruct bar; simpl; try exact I.
        destruct (any_vote L b (threads s)); exact I.
      * destruct bar; simpl; try exact I.
        destruct (any_vote L b (threads s)); exact I.
    + (* a thread of another block *)
      split; [exact Hsz|]. split; [|auto].
      apply (thread_view_ext L j t sh sh (threads s)); try reflexivity; [|exact Hview].
      apply post_size_ext; [reflexivity|].
      apply release_lookup_out. apply in_block_false.
      apply in_block_false in Hin.
      destruct (block_first L (block_of L j) Hbd (block_of_nonneg L j Hbd)) as [Hb0 _].
      congruence.
Qed.

(** *** A thread makes a transition *)

Lemma thread_step_not_compact (L : launch) bid lid (g g' : global_mem) sh sh'
    (t t' : thread) :
  thread_step L bid lid g sh t = Ok (g', sh', t') ->
  t_pc t <> PCompact -> t_pc t' <> PCompact.
Proof.
  intros Hstep Hne. unfold thread_step in Hstep.
  destruct (t_pc t) eqn:Hpc; step_ok Hstep; simpl; try rewrite Hpc;
    try discriminate; try contradiction.
Qed.

Lemma post_size_insert_same (L : launch) (b : Z) (sh sh' : shared_mem)
    (ts : list thread) (i : nat) (t t' : thread) :
  shared_candidates_size sh' = shared_candidates_size sh ->
  ts !! i = Some t ->
  t_pc t <> PCompact -> t_pc t' <> PCompact ->
  t_pc t <> PInit -> t_pc t' <> PInit ->
  post_size L b sh' (<[i := t']> ts) = post_size L b sh ts.
Proof.
  intros Hsz Ht Hne Hne' Hni Hni'. unfold post_size. rewrite Hsz.
  destruct (decide (Z.to_nat (b * blockDim L) = i)) as [->|Hk].
  - rewrite list_lookup_insert_eq by (apply lookup_lt_Some in Ht; assumption).
    rewrite Ht.
    destruct (t_pc t) eqn:Hpc; try contradiction;
      destruct (t_pc t') eqn:Hpc'; try contradiction; reflexivity.
  - rewrite list_lookup_insert_ne by congruence. reflexivity.
Qed.

Lemma thread_step_not_init (L : launch) bid lid (g g' : global_mem) sh sh'
    (t t' : thread) :
  thread_step L bid lid g sh t = Ok (g', sh', t') ->
  t_pc t <> PInit -> t_pc t' <> PInit.
Proof.
  intros Hstep Hne. unfold thread_step in Hstep.
  destruct (t_pc t) eqn:Hpc; step_ok Hstep; simpl; try rewrite Hpc;
    try discriminate; try contradiction.
Qed.

Lemma post_size_init (L : launch) (sh sh' : shared_mem) (ts : list thread)
    (i : nat) (t t' : thread) :
  0 < blockDim L ->
  ts !! i = Some t -> t_pc t = PInit -> t_pc t' = PBarrier0 ->
  shared_candidates_size sh' =
    (if local_of L i =? 0 then 0 else shared_candidates_size sh) ->
  post_size L (block_of L i) sh' (<[i := t']> ts) = post_size L (block_of L i) sh ts.
Proof.
  intros Hbd Ht Hpc Hpc' Hsz. unfold post_size.
  pose proof (block_local L i Hbd) as Hi.
  pose proof (block_of_nonneg L i Hbd) as Hb.
  pose proof (local_of_range L i Hbd) as Hl.
  destruct (Z.eqb_spec (local_of L i) 0) as [H0|H0].
  - assert (Hk : Z.to_nat (block_of L i * blockDim L) = i) by lia.
    rewrite Hk.
    rewrite list_lookup_insert_eq by (apply lookup_lt_Some in Ht; assumption).
    rewrite Ht, Hpc, Hpc', Hsz. reflexivity.
  - assert (Hk : Z.to_nat (block_of L i * blockDim L) <> i) by nia.
    rewrite list_lookup_insert_ne by congruence. rewrite Hsz. reflexivity.
Qed.

Lemma post_size_compact (L : launch) (sh sh' : shared_mem) (ts : list thread)
    (i : nat) (t t' : thread) :
  0 < blockDim L ->
  ts !! i = Some t -> t_pc t = PCompact -> t_pc t' = PLoopTest ->
  shared_candidates_size sh' =
    (if local_of L i =? 0
     then if blockDim L <=? shared_candidates_size sh
          then shared_candidates_size sh - blockDim L
          else 0
     else shared_candidates_size sh) ->
  post_size L (block_of L i) sh' (<[i := t']> ts) = post_size L (block_of L i) sh ts.
Proof.
  intros Hbd Ht Hpc Hpc' Hsz. unfold post_size.
  pose proof (block_local L i Hbd) as Hi.
  pose proof (block_of_nonneg L i Hbd) as Hb.
  pose proof (local_of_range L i Hbd) as Hl.
  destruct (Z.eqb_spec (local_of L i) 0) as [H0|H0].
  - assert (Hk : Z.to_nat (block_of L i * blockDim L) = i) by lia.
    rewrite Hk.
    rewrite list_lookup_insert_eq by (apply lookup_lt_Some in Ht; assumption).
    rewrite Ht, Hpc, Hpc', Hsz. reflexivity.
  - assert (Hk : Z.to_nat (block_of L i * blockDim L) <> i) by nia.
    rewrite list_lookup_insert_ne by congruence. rewrite Hsz. reflexivity.
Qed.

Lemma wrap_le (x : Z) : 0 <= x -> wrap x <= x.
Proof. intros Hx. unfold wrap. apply Z.mod_le; lia. Qed.

(** The view of a thread [j] of the block of thread [i] after a
    transition of thread [i] that leaves the pairs and the size of the
    buffer as they are. *)
Lemma view_after_quiet_step (L : launch) (ts : list thread) (i j : nat)
    (t t' tj : thread) (sh sh' : shared_mem) :
  ts !! i = Some t ->
  phase (t_pc t') = phase (t_pc t) ->
  t_pc t <> PCompact -> t_pc t' <> PCompact ->
  t_pc t <> PInit -> t_pc t' <> PInit ->
  shared_candidates sh' = shared_candidates sh ->
  shared_candidates_size sh' = shared_candidates_size sh ->
  thread_view L i t sh ts ->
  (j <> i -> thread_view L j tj sh ts) ->
  <[i := t']> ts !! j = Some tj ->
  thread_view L j tj sh' (<[i := t']> ts).
Proof.
  intros Ht Hph Hne Hne' Hni Hni' Hc Hsz Hview Hother Hj.
  apply (thread_view_ext L j tj sh sh' ts); try assumption.
  - apply (post_size_insert_same L _ sh sh' ts i t t'); assumption.
  - apply list_lookup_insert_Some in Hj as [(<- & <- & _)|(Hji & Hj)].
    + apply (thread_view_goto L i t t' sh ts); assumption.
    + apply Hother. congruence.
Qed.

Lemma step_origin (L : launch) (nb n0 : nat) (s : grid) (i : nat) (t t' : thread)
    (sh sh' : shared_mem) (g' : global_mem) :
  0 < blockDim L -> 2 * blockDim L <= UINT_MAX ->
  origin_inv L nb n0 s ->
  threads s !! i = Some t ->
  vat (blocks s) (block_of L i) = Ok sh ->
  thread_step L (block_of L i) (local_of L i) (glob s) sh t = Ok (g', sh', t') ->
  origin_inv L nb n0
    (mk_grid g' (<[Z.to_nat (block_of L i) := sh']> (blocks s))
             (<[i := t']> (threads s))).
Proof.
  intros Hbd Hmax (Hnb & Hlen & Hph & Hth & Hlk) Ht Hsh Hstep.
  apply vat_Ok in Hsh as [_ Hsh].
  destruct (Hth i t sh Ht Hsh) as (Hsz & Hview & Hloc & Hheld).
  pose proof (thread_step_phase _ _ _ _ _ _ _ _ _ Hstep) as Hphase.
  destruct (thread_step_shared _ _ _ _ _ _ _ _ _ Hbd Hstep Hsz) as [Hsz' Hform].
  pose proof (thread_step_local _ _ _ _ _ _ _ _ _ Hstep Hloc) as Hloc'.
  pose proof (block_of_nonneg L i Hbd) as Hb.
  pose proof (local_of_range L i Hbd) as Hlid.
  assert (Hpick : t_pc t = PPick ->
                  local_of L i < shared_candidates_size sh ->
                  forall e, shared_candidates sh !! Z.to_nat (local_of L i) = Some e ->
                            owner_ok L (block_of L i) e).
  { intros Hpc Hlt e He. unfold thread_view in Hview. rewrite Hpc in Hview.
    simpl in Hview. apply (Hview _ e He). lia. }
  destruct (thread_step_held _ _ _ _ _ _ _ _ _ Hstep Hheld Hloc Hpick)
    as (Hnc & Hheld' & Hlinks).
  split; [simpl; rewrite length_insert; exact Hnb|].
  split; [simpl; rewrite length_insert; exact Hlen|].
  split; [|split]; simpl.
  - (* the same part of the kernel *)
    intros j1 j2 t1 t2 H1 H2 Hblk.
    apply list_lookup_insert_Some in H1 as [(<- & <- & _)|(Hn1 & H1)];
      apply list_lookup_insert_Some in H2 as [(<- & <- & _)|(Hn2 & H2)].
    + reflexivity.
    + rewrite Hphase. apply (Hph i j2 t t2); assumption.
    + rewrite Hphase. apply (Hph j1 i t1 t); assumption.
    + apply (Hph j1 j2 t1 t2); assumption.
  - intros j tj shj Hj Hshj. rewrite Hnc.
    destruct (decide (block_of L j = block_of L i)) as [Hjb|Hjb].
    + (* a thread of the block *)
      rewrite Hjb in Hshj.
      rewrite list_lookup_insert_eq in Hshj
        by (apply lookup_lt_Some in Hsh; assumption).
      injection Hshj as <-.
      assert (Hold : j <> i -> exists tj0, threads s !! j = Some tj0 /\ tj = tj0 /\
                       phase (t_pc tj0) = phase (t_pc t) /\
                       thread_view L j tj0 sh (threads s) /\
                       thread_local L (global_thread_id L (block_of L j) (local_of L j)) tj0 /\
                       held_ok L (vsize (n_tracks_per_seed (glob s))) (t_pc tj0)).
      { intros Hji. apply list_lookup_insert_Some in Hj as [(Heq & _)|(_ & Hj)];
          [congruence|].
        exists tj. split; [assumption|]. split; [reflexivity|].
        split; [apply (Hph j i tj t); assumption|].
        assert (Hshj : blocks s !! Z.to_nat (block_of L j) = Some sh)
          by (rewrite Hjb; exact Hsh).
        destruct (Hth j tj sh Hj Hshj) as (_ & Hv & Hl & Hh). auto. }
      split; [exact Hsz'|]. split; [|split].
      * (* the buffer *)
        destruct (t_pc t) eqn:Hpc.
        2-7, 9-15, 17-20:
          solve [ destruct Hform as [Hc Hs];
                  apply (view_after_quiet_step L (threads s) i j t t' tj sh sh');
                  [ exact Ht
                  | rewrite Hpc; exact Hphase
                  | rewrite Hpc; discriminate
                  | eapply thread_step_not_compact; [exact Hstep|];
                    rewrite Hpc; discriminate
                  | rewrite Hpc; discriminate
                  | eapply thread_step_not_init; [exact Hstep|];
                    rewrite Hpc; discriminate
                  | exact Hc
                  | exact Hs
                  | exact Hview
                  | intros Hji; destruct (Hold Hji) as (tj0 & _ & -> & _ & Hv & _);
                    exact Hv
                  | exact Hj ] ].
        -- (* PInit *)
           destruct Hform as (Hc & Hs & Hpc').
           pose proof (post_size_init L sh sh' (threads s) i t t' Hbd Ht Hpc
                         Hpc' Hs) as Hpost.
           assert (Hphj : phase (t_pc tj) = 0%nat).
           { destruct (decide (j = i)) as [->|Hji].
             - rewrite list_lookup_insert_eq in Hj
                 by (apply lookup_lt_Some in Ht; assumption).
               injection Hj as <-. rewrite Hpc'. reflexivity.
             - destruct (Hold Hji) as (tj0 & _ & -> & Hp & _). rewrite Hp.
               reflexivity. }
           unfold thread_view in Hview |- *. rewrite Hphj.
           rewrite Hpc in Hview. simpl in Hview. rewrite Hjb, Hpost.
           exact Hview.
        -- (* PFillPush *)
           destruct Hform as [Hc Hs].
           assert (Hphj : phase (t_pc tj) = 2%nat).
           { destruct (decide (j = i)) as [->|Hji].
             - rewrite list_lookup_insert_eq in Hj
                 by (apply lookup_lt_Some in Ht; assumption).
               injection Hj as <-. rewrite Hphase. reflexivity.
             - destruct (Hold Hji) as (tj0 & _ & -> & Hp & _). rewrite Hp.
               reflexivity. }
           unfold thread_view in Hview |- *. rewrite Hphj.
           rewrite Hpc in Hview. simpl in Hview. rewrite Hjb.
           intros j' e He Hlt. rewrite Hc in He. rewrite Hs in Hlt.
           pose proof (wrap_le (shared_candidates_size sh + 1) ltac:(lia)).
           apply list_lookup_insert_Some in He as [(Hj' & <- & _)|(Hj' & He)].
           ++ destruct Hloc as (_ & _ & _ & Hgid). rewrite Hpc in Hgid.
              unfold owner_ok. simpl. exact Hgid.
           ++ apply (Hview j' e He). lia.
        -- (* PCompact *)
           destruct Hform as ((spill & Hspill & Hc) & Hs & Hpc').
           pose proof (post_size_compact L sh sh' (threads s) i t t' Hbd Ht Hpc
                         Hpc' Hs) as Hpost.
           rewrite wrap_small in Hspill by lia.
           unfold thread_view in Hview. rewrite Hpc in Hview. simpl in Hview.
           destruct Hview as [_ Hhigh].
           assert (Hhigh' : forall (j' : nat) e,
                     shared_candidates sh' !! j' = Some e ->
                     blockDim L <= Z.of_nat j' <
                       post_size L (block_of L i) sh' (<[i := t']> (threads s))
                       + blockDim L ->
                     owner_ok L (block_of L i) e).
           { intros j' e He Hr. rewrite Hpost in Hr. rewrite Hc in He.
             rewrite list_lookup_insert_ne in He by lia.
             apply (Hhigh j' e He Hr). }
           destruct (decide (j = i)) as [->|Hji].
           ++ rewrite list_lookup_insert_eq in Hj
                by (apply lookup_lt_Some in Ht; assumption).
              injection Hj as <-.
              unfold thread_view. rewrite Hpc'. simpl. split; [|exact Hhigh'].
              intros _ e He Hlt. rewrite Hpost in Hlt. rewrite Hc in He.
              apply list_lookup_insert_Some in He as [(_ & <- & _)|(Hne & _)];
                [|contradiction].
              apply (Hhigh _ spill Hspill). lia.
           ++ destruct (Hold Hji) as (tj0 & Hj0 & -> & Hp & Hvj & _).
              unfold thread_view in Hvj |- *. rewrite Hp in *. simpl in Hvj |- *.
              rewrite Hjb in *. destruct Hvj as [Hlowj _].
              split; [|exact Hhigh'].
              intros Hne e He Hlt. rewrite Hpost in Hlt. rewrite Hc in He.
              assert (Hll : local_of L j <> local_of L i).
              { intros Heq. apply Hji. apply (same_block_local L j i Hbd Hjb Heq). }
              pose proof (local_of_range L j Hbd).
              rewrite list_lookup_insert_ne in He by lia.
              apply (Hlowj Hne e He Hlt).
      * destruct (decide (j = i)) as [->|Hji].
        -- rewrite list_lookup_insert_eq in Hj
             by (apply lookup_lt_Some in Ht; assumption).
           injection Hj as <-. exact Hloc'.
        -- destruct (Hold Hji) as (tj0 & _ & -> & _ & _ & Hl & _). exact Hl.
      * destruct (decide (j = i)) as [->|Hji].
        -- rewrite list_lookup_insert_eq in Hj
             by (apply lookup_lt_Some in Ht; assumption).
           injection Hj as <-. exact Hheld'.
        -- destruct (Hold Hji) as (tj0 & _ & -> & _ & _ & _ & Hh). exact Hh.
    + (* a thread of another block *)
      pose proof (block_of_nonneg L j Hbd) as Hbj.
      rewrite list_lookup_insert_ne in Hshj by lia.
      apply list_lookup_insert_Some in Hj as [(Heq & _)|(Hji & Hj)];
        [congruence|].
      destruct (Hth j tj shj Hj Hshj) as (Hszj & Hvj & Hlj & Hhj).
      split; [exact Hszj|]. split; [|auto].
      apply (thread_view_ext L j tj shj shj (threads s)); try reflexivity;
        [|exact Hvj].
      apply post_size_ext; [reflexivity|].
      apply list_lookup_insert_ne.
      destruct (block_first L (block_of L j) Hbd Hbj) as [Hb0 _].
      congruence.
  - (* the records *)
    intros k l Hk Hn0. rewrite Hnc.
    destruct Hlinks as [Heq|(l0 & Heq & Hsrc)]; rewrite Heq in Hk.
    + apply (Hlk k l Hk Hn0).
    + apply lookup_app_Some in Hk as [Hk|[_ Hk]].
      * apply (Hlk k l Hk Hn0).
      * destruct (k - length (links (glob s)))%nat; simpl in Hk; [|discriminate].
        injection Hk as <-. exact Hsrc.
Qed.

Lemma grid_step_origin (L : launch) (nb n0 : nat) (i : nat) (s s' : grid) :
  0 < blockDim L -> 2 * blockDim L <= UINT_MAX ->
  origin_inv L nb n0 s -> grid_step L i s = Ok s' -> origin_inv L nb n0 s'.
Proof.
  intros Hbd Hmax Hinv Hstep.
  destruct (grid_step_cases_arrived _ _ _ _ Hstep)
    as [->|[(bar & Hall & ->)|(t & t' & sh & sh' & g' & Ht & Hsh & Hts & ->)]].
  - assumption.
  - apply release_origin; assumption.
  - apply (step_origin L nb n0 s i t t' sh sh' g'); assumption.
Qed.

Lemma start_threads (L : launch) (junk : list shared_mem) (g : global_mem)
    (i : nat) (t : thread) :
  threads (start L junk g) !! i = Some t -> t = fresh_thread.
Proof. unfold start. simpl. intros [-> _]%lookup_replicate. reflexivity. Qed.

Lemma start_origin (L : launch) (junk : list shared_mem) (g : global_mem) :
  0 < blockDim L ->
  origin_inv L (length junk) (length (links g)) (start L junk g).
Proof.
  intros Hbd.
  assert (Hlen : length (threads (start L junk g))
                 = (length junk * Z.to_nat (blockDim L))%nat)
    by (unfold start; simpl; apply length_replicate).
  split; [unfold start; simpl; apply length_fmap|].
  split; [exact Hlen|].
  split; [|split].
  - intros i j ti tj Hi Hj _.
    rewrite (start_threads _ _ _ _ _ Hi), (start_threads _ _ _ _ _ Hj).
    reflexivity.
  - intros i t sh Hi Hsh.
    pose proof (start_threads _ _ _ _ _ Hi) as ->.
    destruct (block_thread_exists L (length junk) _ i fresh_thread 0 Hbd Hlen Hi
                ltac:(lia)) as (t0 & Ht0).
    rewrite Z.add_0_r in Ht0.
    pose proof (start_threads _ _ _ _ _ Ht0) as ->.
    unfold start in Hsh. simpl in Hsh.
    apply list_lookup_fmap_Some in Hsh as (jk & -> & _).
    split; [simpl; apply wrap_range|].
    split; [|split; [|exact I]].
    + unfold thread_view, post_size. rewrite Ht0. reflexivity.
    + unfold thread_local. simpl. repeat split; lia.
  - intros i l Hi Hle. apply lookup_lt_Some in Hi. simpl in Hi. lia.
Qed.

(** *** The records of a well-formed table *)

Lemma link_ok_parts nd n_meas n_seeds (ls : list candidate_link) (i : nat)
    (l : candidate_link) :
  link_ok nd n_meas n_seeds ls i l = true <->
  (0 <= step l < UINT_MAX) /\
  (is_hole l ||
     (0 <=? meas_idx l) && (meas_idx l <? n_meas) &&
     (nd || s_ltb (chi2 l) s_max && s_leb s_zero (chi2 l)) = true) /\
  (0 <= seed_idx l < n_seeds) /\
  (if step l =? 0 then n_skipped l = hole_count l
   else
     0 <= previous_candidate_idx l /\
     (Z.to_nat (previous_candidate_idx l) < i)%nat /\
     exists p, ls !! Z.to_nat (previous_candidate_idx l) = Some p /\
               step p = step l - 1 /\
               n_skipped l = n_skipped p + hole_count l /\
               seed_idx p = seed_idx l).
Proof.
  unfold link_ok. rewrite !andb_true_iff.
  rewrite !Z.leb_le, !Z.ltb_lt.
  destruct (step l =? 0).
  - rewrite Z.eqb_eq. tauto.
  - rewrite !andb_true_iff, Z.leb_le, Nat.ltb_lt.
    destruct (ls !! Z.to_nat (previous_candidate_idx l)) as [p|].
    + rewrite !andb_true_iff, !Z.eqb_eq. split.
      * intros ((((Hs & Hm) & Hs0) & Hs1) & (Hp0 & Hlt) & (Hsp & Hsk) & Hsd).
        split; [assumption|]. split; [assumption|]. split; [lia|].
        split; [assumption|]. split; [assumption|]. exists p. auto.
      * intros (Hs & Hm & Hsd & Hp0 & Hlt & q & [= <-] & Hsp & Hsk & Hsq).
        repeat split; solve [assumption | lia].
    + split.
      * intros (_ & _ & Hf). discriminate.
      * intros (_ & _ & _ & _ & _ & q & Hq & _). discriminate.
Qed.

Lemma wf_links_intro nd n_meas n_seeds (ls : list candidate_link) :
  n_meas <= UINT_MAX ->
  (forall i l, ls !! i = Some l -> link_ok nd n_meas n_seeds ls i l = true) ->
  wf_links nd n_meas n_seeds ls = true.
Proof.
  intros Hn Hall. unfold wf_links. apply andb_true_iff.
  split; [apply Z.leb_le; assumption|].
  apply forallb_forall. intros [i l] Hin.
  apply list_elem_of_In in Hin. apply list_elem_of_lookup in Hin as [k Hk].
  rewrite list_lookup_imap in Hk.
  destruct (ls !! k) as [l0|] eqn:Hl0; [|discriminate].
  simpl in Hk. injection Hk as <- <-. simpl. apply Hall. assumption.
Qed.

Lemma wf_skipped_range nd n_meas n_seeds (ls : list candidate_link) :
  wf_links nd n_meas n_seeds ls = true ->
  forall i l, ls !! i = Some l -> 0 <= n_skipped l <= step l + 1.
Proof.
  intros Hwf i. induction i as [i IH] using lt_wf_ind. intros l Hl.
  destruct (wf_links_lookup _ _ _ _ _ _ Hwf Hl) as [_ Hok].
  apply link_ok_parts in Hok as (Hstep & _ & _ & Hpar).
  unfold hole_count in Hpar.
  destruct (step l =? 0).
  - destruct (is_hole l); lia.
  - destruct Hpar as (Hp0 & Hlt & p & Hp & Hsp & Hsk & _).
    specialize (IH _ Hlt p Hp). destruct (is_hole l); lia.
Qed.

Lemma link_ok_prefix nd n_meas n_seeds (ls k : list candidate_link) (i : nat)
    (l : candidate_link) :
  link_ok nd n_meas n_seeds ls i l = true ->
  link_ok nd n_meas n_seeds (ls ++ k) i l = true.
Proof.
  rewrite !link_ok_parts. intros (Hs & Hm & Hseed & Hpar).
  split; [assumption|]. split; [assumption|]. split; [assumption|].
  destruct (step l =? 0); [assumption|].
  destruct Hpar as (Hp0 & Hlt & p & Hp & Hrest).
  split; [assumption|]. split; [assumption|]. exists p.
  split; [apply lookup_app_l_Some; assumption|assumption].
Qed.

(** A record that the launch appended to a well-formed table, for a
    parameter of the step, is a record of a well-formed table. *)
Lemma appended_link_ok (L : launch) (nc : Z) (ls0 k : list candidate_link)
    (i : nat) (l : candidate_link) :
  0 <= p_step (payload L) < UINT_MAX ->
  vsize ls0 <= UINT_MAX ->
  (forall c, s_ltb c (chi2_max (cfg L)) = true -> s_ltb c s_max = true) ->
  previous_step_links L ls0 ->
  wf_links (ndebug L) (vsize (measurements_view (payload L))) nc ls0 = true ->
  appended_ok L (ls0 ++ k) i l ->
  sourced L nc l ->
  link_ok (ndebug L) (vsize (measurements_view (payload L))) nc (ls0 ++ k) i l = true.
Proof.
  intros Hstep Hlen Hchi Hprev Hwf (Hsl & base & Hbase & Hkind) (Horigin & Hseed & Hpos).
  assert (Hnm : vsize (measurements_view (payload L)) <= UINT_MAX).
  { unfold wf_links in Hwf. apply andb_true_iff in Hwf as [Hn _].
    apply Z.leb_le. assumption. }
  assert (Hhole : (meas_idx l = hole_idx /\ is_hole l = true) \/
                  (0 <= meas_idx l < vsize (measurements_view (payload L)) /\
                   is_hole l = false)).
  { unfold is_hole, hole_idx in *.
    destruct Hkind as [(Hm & _)|(Hm & _)].
    - left. split; [assumption|]. apply Z.eqb_eq. assumption.
    - right. split; [assumption|]. apply Z.eqb_neq. lia. }
  apply link_ok_parts. rewrite Hsl.
  split; [assumption|]. split; [|split; [assumption|]].
  - (* the measurement *)
    destruct Hhole as [(_ & ->)|(Hm & Hh)]; [reflexivity|].
    rewrite Hh. simpl.
    destruct Hkind as [(Hm' & _)|(_ & _ & Hc)];
      [unfold is_hole in Hh; apply Z.eqb_neq in Hh; contradiction|].
    apply andb_true_iff. split.
    + apply andb_true_iff. split; [apply Z.leb_le|apply Z.ltb_lt]; lia.
    + destruct (ndebug L) eqn:Hnd; [reflexivity|]. simpl.
      rewrite (Hchi _ Hc), (Hpos eq_refl Hh). reflexivity.
  - (* the parent *)
    unfold hole_count.
    destruct (Z.eqb_spec (p_step (payload L)) 0) as [H0|H0].
    + destruct Hbase as [(_ & ->)|(Hne & _)]; [|contradiction].
      destruct Hkind as [(Hm1 & _ & ->)|(Hm1 & -> & _)];
        destruct Hhole as [(Hm & ->)|(Hm & ->)]; try reflexivity;
        unfold hole_idx in *; lia.
    + destruct Hbase as [(He & _)|(_ & p & Hp0 & Hlt & Hp & Hsd & ->)];
        [contradiction|].
      destruct (Hprev H0) as (Hpli & Hfit & Hsteps).
      destruct Horigin as (og & Hog & Hprevidx).
      rewrite wrap_small in Hprevidx by lia.
      assert (Hin0 : (Z.to_nat (previous_candidate_idx l) < length ls0)%nat)
        by (unfold vsize in *; lia).
      apply lookup_lt_is_Some_2 in Hin0 as [p0 Hp0'].
      pose proof (lookup_app_l_Some ls0 k _ _ Hp0') as Hp0k.
      rewrite Hp in Hp0k. injection Hp0k as <-.
      pose proof (Hsteps _ _ Hp0' ltac:(lia)) as Hsp.
      pose proof (wf_skipped_range _ _ _ _ Hwf _ _ Hp0') as Hrange.
      split; [assumption|]. split; [assumption|]. exists p.
      split; [assumption|]. split; [assumption|]. split; [|assumption].
      destruct Hkind as [(Hm1 & _ & ->)|(Hm1 & -> & _)];
        destruct Hhole as [(Hm & ->)|(Hm & ->)];
        try (unfold hole_idx in *; lia).
      rewrite wrap_small by lia. reflexivity.
Qed.

(** A well-formed table extended by records that a launch appended for
    parameters of the step is well formed. *)
Lemma wf_links_extended (L : launch) (nc : Z) (ls0 k : list candidate_link) :
  0 <= p_step (payload L) < UINT_MAX ->
  vsize ls0 <= UINT_MAX ->
  (forall c, s_ltb c (chi2_max (cfg L)) = true -> s_ltb c s_max = true) ->
  previous_step_links L ls0 ->
  wf_links (ndebug L) (vsize (measurements_view (payload L))) nc ls0 = true ->
  (forall i l, (ls0 ++ k) !! i = Some l -> (length ls0 <= i)%nat ->
               appended_ok L (ls0 ++ k) i l /\ sourced L nc l) ->
  wf_links (ndebug L) (vsize (measurements_view (payload L))) nc (ls0 ++ k) = true.
Proof.
  intros Hstep Hlen Hchi Hprev Hwf Hnew.
  apply wf_links_intro.
  { unfold wf_links in Hwf. apply andb_true_iff in Hwf as [Hn _].
    apply Z.leb_le. assumption. }
  intros i l Hl.
  destruct (Nat.lt_ge_cases i (length ls0)) as [Hlt|Hge].
  - apply link_ok_prefix.
    rewrite lookup_app_l in Hl by assumption.
    exact (proj2 (wf_links_lookup _ _ _ _ _ _ Hwf Hl)).
  - destruct (Hnew i l Hl Hge) as [Happ Hsrc].
    apply appended_link_ok; assumption.
Qed.

(** What holds after a run from the start of a launch. *)
Lemma launch_invariants (L : launch) (junk : list shared_mem) (g : global_mem)
    (sched : list nat) (s : grid) :
  0 < blockDim L -> 2 * blockDim L <= UINT_MAX ->
  run L sched (start L junk g) = Ok s ->
  grown (start L junk g) s /\
  appended_inv L (length (links g)) s /\
  origin_inv L (length junk) (length (links g)) s.
Proof.
  intros Hbd Hmax Hrun. split; [|split].
  - apply (run_invariant L (grown (start L junk g))
             (fun i s1 s2 => grid_step_grown L i (start L junk g) s1 s2)
             sched (start L junk g) s); [|assumption].
    repeat split; reflexivity.
  - apply (run_invariant L (appended_inv L (length (links g)))
             (fun i s1 s2 => grid_step_appended L _ i s1 s2)
             sched (start L junk g) s); [|assumption].
    split.
    + apply Forall_forall. intros t [-> _]%elem_of_replicate. exact I.
    + intros i l Hi Hle. apply lookup_lt_Some in Hi. simpl in Hi. lia.
  - apply (run_invariant L (origin_inv L (length junk) (length (links g)))
             (fun i s1 s2 => grid_step_origin L _ _ i s1 s2 Hbd Hmax)
             sched (start L junk g) s); [|assumption].
    apply start_origin. assumption.
Qed.

Lemma launch_new_links (L : launch) (junk : list shared_mem) (g : global_mem)
    (sched : list nat) (s : grid) :
  0 < blockDim L -> 2 * blockDim L <= UINT_MAX ->
  run L sched (start L junk g) = Ok s ->
  exists k, links (glob s) = links g ++ k /\
    forall i l, (links g ++ k) !! i = Some l -> (length (links g) <= i)%nat ->
      appended_ok L (links g ++ k) i l /\ sourced L (vsize (n_tracks_per_seed g)) l.
Proof.
  intros Hbd Hmax Hrun.
  destruct (launch_invariants L junk g sched s Hbd Hmax Hrun)
    as (([k Hk] & _ & Hnc & _) & [_ Happ] & (_ & _ & _ & _ & Hsrc)).
  simpl in Hk, Hnc.
  assert (Hnc' : vsize (n_tracks_per_seed (glob s)) = vsize (n_tracks_per_seed g))
    by (unfold vsize; lia).
  rewrite Hnc' in Hsrc. exists k. split; [assumption|].
  intros i l Hl Hge. rewrite <- Hk in *. split; [apply Happ|apply (Hsrc i)];
    assumption.
Qed.

(** X10. A launch on a well-formed table leaves a well-formed table,
    whatever the schedule, when the step is an unsigned value below the
    maximum, the acceptance threshold is below the maximal scalar, and, after
    the first step, the links of the previous step are the end of the table,
    one for each parameter. *)
Theorem search_keeps_table_well_formed (L : launch) (junk : list shared_mem) (g : global_mem)
    (sched : list nat) (s : grid) :
  0 < blockDim L -> 2 * blockDim L <= UINT_MAX ->
  run L sched (start L junk g) = Ok s ->
  0 <= p_step (payload L) < UINT_MAX ->
  vsize (links g) <= UINT_MAX ->
  (forall c, s_ltb c (chi2_max (cfg L)) = true -> s_ltb c s_max = true) ->
  previous_step_links L (links g) ->
  wf_links (ndebug L) (vsize (measurements_view (payload L)))
           (vsize (n_tracks_per_seed g)) (links g) = true ->
  wf_links (ndebug L) (vsize (measurements_view (payload L)))
           (vsize (n_tracks_per_seed g)) (links (glob s)) = true.
Proof.
  intros Hbd Hmax Hrun Hstep Hlen Hchi Hprev Hwf.
  destruct (launch_new_links L junk g sched s Hbd Hmax Hrun) as (k & -> & Hnew).
  apply wf_links_extended; assumption.
Qed.

(** X11. Under the same conditions, at a step after the first or in a build
    that checks assertions, build_tracks assembles every tip that the launch
    has recorded: it returns, reads no record twice, and the track has as
    many candidates as the steps of the tip that are not holes. *)
Theorem recorded_tips_assemble (L : launch) (junk : list shared_mem) (g : global_mem)
    (sched : list nat) (s : grid) (seeds : list bound_track_parameters)
    (gi tip : Z) (tc : track_candidate) :
  0 < blockDim L -> 2 * blockDim L <= UINT_MAX ->
  run L sched (start L junk g) = Ok s ->
  0 <= p_step (payload L) < UINT_MAX ->
  vsize (links g) <= UINT_MAX ->
  (forall c, s_ltb c (chi2_max (cfg L)) = true -> s_ltb c s_max = true) ->
  previous_step_links L (links g) ->
  wf_links (ndebug L) (vsize (measurements_view (payload L)))
           (vsize (n_tracks_per_seed g)) (links g) = true ->
  vsize seeds = vsize (n_tracks_per_seed g) ->
  p_step (payload L) <> 0 \/ ndebug L = false ->
  vat (tips (glob s)) gi = Ok tip ->
  vsize (tips g) <= gi ->
  exists l (tc' : track_candidate) vis,
    vat (links (glob s)) tip = Ok l /\
    build_tracks (ndebug L) gi
      (mk_build_payload (measurements_view (payload L)) seeds
                        (links (glob s)) (tips (glob s))) tc = Ok (tc', vis) /\
    NoDup vis /\
    Z.of_nat (length (items tc')) = step l + 1 - n_skipped l.
Proof.
  intros Hbd Hmax Hrun Hstep Hlen Hchi Hprev Hwf Hseeds Hcond Htip Hnew.
  assert (Htips : tips_inv (length (tips g)) s).
  { apply (run_invariant L (tips_inv (length (tips g)))
             (fun i s1 s2 => grid_step_tips L _ i s1 s2 Hcond)
             sched (start L junk g) s); [|assumption].
    intros j x Hj Hle. apply lookup_lt_Some in Hj. simpl in Hj. lia. }
  pose proof Htip as [Hgi Hlk]%vat_Ok.
  destruct (Htips _ _ Hlk ltac:(unfold vsize in Hnew; lia)) as [H0 Hlt].
  assert (Hin : (Z.to_nat tip < length (links (glob s)))%nat)
    by (unfold vsize in Hlt; lia).
  apply lookup_lt_is_Some_2 in Hin as [l Hl].
  assert (Hvl : vat (links (glob s)) tip = Ok l) by (apply vat_Ok; auto).
  assert (Hwf' : wf_links (ndebug L) (vsize (measurements_view (payload L)))
                   (vsize seeds) (links (glob s)) = true).
  { rewrite Hseeds.
    destruct (launch_new_links L junk g sched s Hbd Hmax Hrun) as (k & -> & Hk).
    apply wf_links_extended; assumption. }
  destruct (build_tracks_chain (ndebug L)
              (mk_build_payload (measurements_view (payload L)) seeds
                                (links (glob s)) (tips (glob s)))
              gi tip l tc Hwf' Htip Hvl)
    as (tc' & vis & Hbt & Hnd & _ & _ & Hcount & _).
  exists l, tc', vis. auto.
Qed.

(** ** The shared buffer, from uninitialised memory *)

Lemma thread_step_places (L : launch) bid lid (g g' : global_mem) sh sh'
    (t t' : thread) :
  thread_step L bid lid g sh t = Ok (g', sh', t') ->
  vsize (shared_candidates sh') = vsize (shared_candidates sh).
Proof.
  intros Hstep. unfold thread_step in Hstep.
  destruct (t_pc t) eqn:Hpc; step_ok Hstep; simpl; try reflexivity.
  - apply vset_Ok in Hx as [_ ->]. unfold vsize. rewrite length_insert. reflexivity.
  - apply vset_Ok in Hx0 as [_ ->]. unfold vsize. rewrite length_insert. reflexivity.
Qed.

Lemma initialised_release (L : launch) (b b' : Z) (bar : barrier) (ts : list thread) :
  initialised L b (release L b' bar ts) = initialised L b ts.
Proof.
  unfold initialised, release. rewrite list_lookup_imap.
  destruct (ts !! Z.to_nat (b * blockDim L)) as [t0|]; simpl; [|reflexivity].
  destruct (in_block L b' _); simpl; [|reflexivity].
  destruct (bool_decide (waiting (t_pc t0) = Some bar)) eqn:Hw; [|reflexivity].
  apply bool_decide_eq_true in Hw.
  destruct (t_pc t0); try discriminate Hw;
    destruct bar; try discriminate Hw; simpl; try reflexivity;
    destruct (any_vote L b' ts); reflexivity.
Qed.

Lemma initialised_insert (L : launch) (b : Z) (ts : list thread) (i : nat)
    (t' : thread) :
  Z.to_nat (b * blockDim L) <> i ->
  initialised L b (<[i := t']> ts) = initialised L b ts.
Proof.
  intros Hne. unfold initialised.
  rewrite list_lookup_insert_ne by congruence. reflexivity.
Qed.

(** A thread past the first barrier is in a block that thread 0 has
    initialised. *)
Lemma started_initialised (L : launch) (nb n0 : nat) (s : grid) (i : nat)
    (t : thread) :
  0 < blockDim L ->
  origin_inv L nb n0 s ->
  threads s !! i = Some t -> phase (t_pc t) <> 0%nat ->
  initialised L (block_of L i) (threads s) = true.
Proof.
  intros Hbd (_ & Hlen & Hph & _) Ht Hne.
  destruct (block_thread_exists L nb (threads s) i t 0 Hbd Hlen Ht ltac:(lia))
    as (t0 & Ht0).
  rewrite Z.add_0_r in Ht0.
  destruct (block_first L (block_of L i) Hbd (block_of_nonneg L i Hbd)) as [Hb0 _].
  pose proof (Hph _ _ _ _ Ht0 Ht Hb0) as Hp.
  unfold initialised. rewrite Ht0.
  destruct (t_pc t0); try reflexivity. simpl in Hp. congruence.
Qed.

Lemma grid_step_buffer (L : launch) (nb n0 : nat) (i : nat) (s s' : grid) :
  0 < blockDim L -> 2 * blockDim L <= UINT_MAX ->
  origin_inv L nb n0 s ->
  buffer_inv L s -> grid_step L i s = Ok s' -> buffer_inv L s'.
Proof.
  intros Hbd Hmax Horig Hinv Hstep.
  destruct (grid_step_cases _ _ _ _ Hstep)
    as [->|[(b & bar & ->)|(t & t' & sh & sh' & g' & Ht & Hw & Hsh & Hts & ->)]].
  - assumption.
  - intros b0 sh0 Hb0. simpl in *.
    rewrite pend_from_release, initialised_release. exact (Hinv b0 sh0 Hb0).
  - pose proof (block_of_nonneg L i Hbd) as Hbi.
    pose proof (local_of_range L i Hbd) as Hlid.
    pose proof (block_local L i Hbd) as Hidx.
    apply vat_Ok in Hsh as [_ Hsh].
    destruct (Hinv _ _ Hsh) as (Hlen & Hbnd).
    rewrite Z2Nat.id in Hbnd by assumption.
    assert (Hin : in_block L (block_of L i) (0 + i) = true)
      by (unfold in_block; simpl; apply Z.eqb_refl).
    pose proof (pend_from_insert L (block_of L i) (threads s) i t t' 0 Ht) as Hins.
    rewrite Hin in Hins. simpl in Hins.
    pose proof (thread_step_places _ _ _ _ _ _ _ _ _ Hts) as Hplaces.
    intros b0 sh0 Hb0. simpl in *.
    destruct (decide (b0 = Z.to_nat (block_of L i))) as [->|Hne].
    + rewrite list_lookup_insert_eq in Hb0
        by (apply lookup_lt_Some in Hsh; assumption).
      injection Hb0 as <-. rewrite Z2Nat.id by assumption.
      split; [lia|]. intros Hinit'.
      destruct (decide (phase (t_pc t) = 0%nat)) as [Hp0|Hp0].
      * (* the first line of the kernel *)
        assert (Hpc : t_pc t = PInit)
          by (destruct (t_pc t); simpl in Hp0, Hw; try discriminate; reflexivity).
        destruct Horig as (_ & _ & _ & Hth & _).
        destruct (Hth i t sh Ht Hsh) as (Hsz & _).
        destruct (thread_step_shared _ _ _ _ _ _ _ _ _ Hbd Hts Hsz) as [_ Hform].
        rewrite Hpc in Hform. destruct Hform as (_ & Hs & Hpc').
        rewrite Hpc, Hpc' in Hins. simpl in Hins. rewrite Hins, Hs.
        destruct (Z.eqb_spec (local_of L i) 0) as [Hl0|Hl0].
        -- pose proof (pend_from_bound L (block_of L i) (threads s) Hbd 0).
           pose proof (pend_from_nonneg L (block_of L i) (threads s) 0). nia.
        -- rewrite initialised_insert in Hinit' by nia.
           destruct (Hbnd Hinit'). split; lia.
      * (* past the first barrier *)
        pose proof (started_initialised L nb n0 s i t Hbd Horig Ht Hp0) as Hinit.
        destruct (Hbnd Hinit) as [H0 Hsum].
        pose proof (pend_from_nonneg L (block_of L i) (threads s) 0) as Hnn.
        pose proof (pend_from_nonneg L (block_of L i) (<[i := t']> (threads s)) 0)
          as Hnn'.
        assert (Hfill : filling (t_pc t) = true ->
                        shared_candidates_size sh <= 2 * blockDim L - 2).
        { intros Hf.
          pose proof (pend_from_insert L (block_of L i) (threads s) i t
                        (goto t PDone) 0 Ht) as Hins0.
          simpl in Hins0. rewrite Hin, Hf in Hins0. simpl in Hins0.
          pose proof (pend_from_nonneg L (block_of L i)
                        (<[i := goto t PDone]> (threads s)) 0). lia. }
        destruct (thread_step_buffer _ _ _ _ _ _ _ _ _ Hbd Hmax Hts Hlen
                    ltac:(lia) Hfill) as (_ & H0' & Hcase).
        split; [assumption|]. rewrite Hins.
        destruct Hcase as [Hle|(Hf & Hf' & Heq & Hlt)].
        -- lia.
        -- rewrite Hf, Hf'.
           pose proof (pend_from_other L (block_of L i) (threads s) i t Hbd 0 Ht
                         Hin Hf).
           nia.
    + rewrite list_lookup_insert_ne in Hb0 by congruence.
      destruct (Hinv _ _ Hb0) as (Hl0 & Hb0').
      split; [assumption|].
      rewrite (pend_from_insert L (Z.of_nat b0) (threads s) i t t' 0 Ht).
      assert (Hout : in_block L (Z.of_nat b0) (0 + i) = false).
      { unfold in_block. simpl. apply Z.eqb_neq. lia. }
      rewrite Hout. simpl.
      rewrite initialised_insert by nia.
      intros Hinit. destruct (Hb0' Hinit). split; lia.
Qed.

Lemma start_buffer (L : launch) (junk : list shared_mem) (g : global_mem) :
  0 < blockDim L -> buffer_inv L (start L junk g).
Proof.
  intros Hbd b sh Hb. unfold start in Hb. simpl in Hb.
  apply list_lookup_fmap_Some in Hb as (jk & -> & Hjk). simpl. unfold vsize.
  rewrite length_resize. split; [lia|].
  intros Hinit. unfold initialised, start in Hinit. simpl in Hinit.
  destruct (replicate _ fresh_thread !! _) as [t0|] eqn:Ht0; [|discriminate].
  apply lookup_replicate in Ht0 as [-> _]. discriminate.
Qed.

(** X9. Whatever the shared memory of the blocks holds when the kernel
    starts, and whatever the schedule, a launch with a block of at least one
    thread and at most half the range of an unsigned int never writes
    outside the shared buffer: every buffer keeps its [2 * blockDim] places;
    for a thread past the first barrier the buffer of its block holds fewer
    entries than places; and the push of a thread that has reached it
    returns and adds one entry. *)
Theorem buffer_never_overflows (L : launch) (junk : list shared_mem)
    (g : global_mem) (sched : list nat) (s : grid) :
  0 < blockDim L -> 2 * blockDim L <= UINT_MAX ->
  run L sched (start L junk g) = Ok s ->
  (forall (b : nat) sh, blocks s !! b = Some sh ->
     vsize (shared_candidates sh) = 2 * blockDim L) /\
  (forall (i : nat) (t : thread) sh,
     threads s !! i = Some t ->
     vat (blocks s) (block_of L i) = Ok sh ->
     phase (t_pc t) <> 0%nat ->
     0 <= shared_candidates_size sh < 2 * blockDim L) /\
  (forall (i : nat) (t : thread) sh,
     threads s !! i = Some t -> t_pc t = PFillPush ->
     vat (blocks s) (block_of L i) = Ok sh ->
     exists sh' t',
       thread_step L (block_of L i) (local_of L i) (glob s) sh t
         = Ok (glob s, sh', t') /\
       shared_candidates_size sh' = shared_candidates_size sh + 1 /\
       shared_candidates_size sh' < 2 * blockDim L).
Proof.
  intros Hbd Hmax Hrun.
  assert (Hboth : origin_inv L (length junk) (length (links g)) s /\ buffer_inv L s).
  { apply (run_invariant L
             (fun s1 => origin_inv L (length junk) (length (links g)) s1 /\
                        buffer_inv L s1)
             (fun i s1 s2 Hs1 Hst =>
                conj (grid_step_origin L _ _ i s1 s2 Hbd Hmax (proj1 Hs1) Hst)
                     (grid_step_buffer L _ _ i s1 s2 Hbd Hmax (proj1 Hs1)
                        (proj2 Hs1) Hst))
             sched (start L junk g) s); [|assumption].
    split; [apply start_origin|apply start_buffer]; assumption. }
  destruct Hboth as [Horig Hinv].
  assert (Hbound : forall (i : nat) (t : thread) sh,
            threads s !! i = Some t ->
            vat (blocks s) (block_of L i) = Ok sh ->
            phase (t_pc t) <> 0%nat ->
            vsize (shared_candidates sh) = 2 * blockDim L /\
            0 <= shared_candidates_size sh /\
            shared_candidates_size sh
              + pend_from L (block_of L i) 0 (threads s) <= 2 * blockDim L - 1).
  { intros i t sh Ht [_ Hsh]%vat_Ok Hp.
    destruct (Hinv _ _ Hsh) as (Hlen & Hbnd).
    rewrite Z2Nat.id in Hbnd by (apply block_of_nonneg; assumption).
    pose proof (started_initialised L _ _ s i t Hbd Horig Ht Hp) as Hinit.
    destruct (Hbnd Hinit). auto. }
  split; [|split].
  - intros b sh Hb. exact (proj1 (Hinv b sh Hb)).
  - intros i t sh Ht Hsh Hp.
    destruct (Hbound i t sh Ht Hsh Hp) as (_ & H0 & Hsum).
    pose proof (pend_from_nonneg L (block_of L i) (threads s) 0). lia.
  - intros i t sh Ht Hpc Hsh.
    assert (Hp : phase (t_pc t) <> 0%nat) by (rewrite Hpc; discriminate).
    destruct (Hbound i t sh Ht Hsh Hp) as (Hlen & H0 & Hsum).
    assert (Hin : in_block L (block_of L i) (0 + i) = true)
      by (unfold in_block; simpl; apply Z.eqb_refl).
    pose proof (pend_from_insert L (block_of L i) (threads s) i t
                  (goto t PDone) 0 Ht) as Hins.
    rewrite Hin, Hpc in Hins. simpl in Hins.
    pose proof (pend_from_nonneg L (block_of L i)
                  (<[i := goto t PDone]> (threads s)) 0) as Hnn.
    unfold thread_step. rewrite Hpc. unfold vset.
    destruct (Z.leb_spec 0 (shared_candidates_size sh)); [|lia].
    destruct (Z.ltb_spec (shared_candidates_size sh)
                (Z.of_nat (length (shared_candidates sh))));
      [|unfold vsize in Hlen; lia].
    simpl. eexists _, _. split; [reflexivity|]. simpl.
    rewrite wrap_small by lia. lia.
Qed.

End Proofs.

(** * The theorems on the concrete launches *)

Module Instances.

Import Examples.

#[local] Open Scope Z_scope.

Ltac dequeues_now :=
  unfold dequeues; simpl;
  repeat split; try reflexivity; try lia;
  try (intros _; eexists; split; [reflexivity | discriminate]).

(** ** C1 *)

(** In the race of two slots of one seed, thread 1 finds the pair of slot 1
    when the counter of the seed has reached the cap, 4.  At the end of the
    launch the count of candidates of slot 1 is 1, not 0, although no link
    has slot 1 as its parent; the counter is 4, the two links of step 0 and
    the two accepted pairs of slot 0: slot 1 has not been through the hole
    inserter, which would have incremented it. *)
Lemma saturated_pair_counts_for_owner :
  exec race_launch race_fill race_start = Ok race_filled /\
  exec race_launch race_first race_filled = Ok race_saturated /\
  t_pc (thread_of race_saturated 1) = PPick /\
  dequeues race_launch 0 1 (glob race_saturated) (block0 race_saturated)
           2 1 8 (mk_meas 8 2 3) 0 4 /\
  max_num_branches_per_seed (cfg race_launch) = 4 /\
  exec race_launch race_rest race_saturated = Ok race_final /\
  finished race_final = true /\
  shared_num_candidates (block0 race_final) = [2; 1; 0; 0] /\
  n_tracks_per_seed (glob race_final) = [4] /\
  links (glob race_final) = race_links ++ [mk_link 1 0 0 0 0 1; mk_link 1 0 1 0 0 2].
Proof.
  split; [vm_compute; reflexivity|].
  split; [vm_compute; reflexivity|].
  split; [reflexivity|].
  split; [dequeues_now|].
  split; [reflexivity|].
  split; [vm_compute; reflexivity|].
  repeat split; reflexivity.
Qed.

Lemma saturated_pair_not_updated_witness :
  t_pc (thread_of race_saturated 1) = PPick /\
  dequeues race_launch 0 1 (glob race_saturated) (block0 race_saturated)
           2 1 8 (mk_meas 8 2 3) 0 4 /\
  max_num_branches_per_seed (cfg race_launch) <= 4 /\
  forall upd,
    thread_step surface upd race_launch 0 1 (glob race_saturated)
                (block0 race_saturated) (thread_of race_saturated 1) =
    Ok (glob race_saturated, block0 race_saturated,
        goto (thread_of race_saturated 1) (PSaturated 1)).
Proof.
  assert (H1 : t_pc (thread_of race_saturated 1) = PPick) by reflexivity.
  assert (H2 : dequeues race_launch 0 1 (glob race_saturated) (block0 race_saturated)
                 2 1 8 (mk_meas 8 2 3) 0 4) by dequeues_now.
  assert (H3 : max_num_branches_per_seed (cfg race_launch) <= 4) by (simpl; lia).
  split; [exact H1|]. split; [exact H2|]. split; [exact H3|].
  exact (proj1 (saturated_pair_not_updated surface updater race_launch 0 1 _ _ _
                  2 1 8 (mk_meas 8 2 3) 0 4 H1 H2 H3)).
Defined.

(** ** C4 *)

Lemma link_appended_iff_accepted_witness :
  t_pc (thread_of race_filled 0) = PPick /\
  dequeues race_launch 0 0 (glob race_filled) (block0 race_filled)
           0 0 7 (mk_meas 7 2 1) 0 2 /\
  2 < max_num_branches_per_seed (cfg race_launch) /\
  thread_step surface updater race_launch 0 0 (glob race_filled)
              (block0 race_filled) (thread_of race_filled 0) =
    Ok (glob race_filled, block0 race_filled,
        goto (thread_of race_filled 0)
             (PCount (pick_of race_launch 0 0 0 0 (updater 7 (mk_meas 7 2 1))))) /\
  exec race_launch [0; 0; 0]%nat race_filled = Ok race_at_append /\
  t_pc (thread_of race_at_append 0) =
    PAppend (pick_of race_launch 0 0 0 0 (updater 7 (mk_meas 7 2 1))) /\
  exists g' : global_mem,
    thread_step surface updater race_launch 0 0 (glob race_at_append)
                (block0 race_at_append) (thread_of race_at_append 0) =
      Ok (g', block0 race_at_append, goto (thread_of race_at_append 0) PBarrier2) /\
    links g' = race_links ++ [mk_link 1 0 0 0 0 1] /\
    vat (out_params g') 0 = Ok 7 /\
    vat (out_params_liveness g') 0 = Ok 1 /\
    n_tracks_per_seed g' = [3].
Proof.
  assert (H1 : t_pc (thread_of race_filled 0) = PPick) by reflexivity.
  assert (H2 : dequeues race_launch 0 0 (glob race_filled) (block0 race_filled)
                 0 0 7 (mk_meas 7 2 1) 0 2) by dequeues_now.
  assert (H3 : 2 < max_num_branches_per_seed (cfg race_launch)) by (simpl; lia).
  split; [exact H1|]. split; [exact H2|]. split; [exact H3|].
  destruct (link_appended_iff_accepted surface updater race_launch 0 0 _ _ _
              0 0 7 (mk_meas 7 2 1) 0 2 H1 H2 H3) as (Hpick & _ & _ & Happ & _).
  split; [exact Hpick|].
  split; [vm_compute; reflexivity|].
  split; [reflexivity|].
  destruct (Happ (glob race_at_append) (block0 race_at_append)
                 (thread_of race_at_append 0) 0)
    as (g' & Hstep & Hl & Hp & Hv & Hc).
  - reflexivity.
  - right. reflexivity.
  - reflexivity.
  - vm_compute. split; [discriminate | reflexivity].
  - vm_compute. split; [discriminate | reflexivity].
  - exists g'. split; [exact Hstep|]. split; [exact Hl|]. split; [exact Hp|].
    split; [exact Hv|]. rewrite Hc. reflexivity.
Defined.

(** ** C2 *)

Lemma branch_cap_respected_witness :
  0 <= max_num_branches_per_seed first_config /\
  Z.of_nat (search_length two_stages) <= UINT_MAX /\
  search surface updater first_config two_stages (search_start 1) = Ok two_final /\
  n_tracks_per_seed two_final = [5] /\
  links two_final = [mk_link 0 0 2 0 0 3; mk_link 0 0 0 0 0 1] /\
  count_seed_meas 0 (links two_final) <= max_num_branches_per_seed first_config /\
  exists n, vat (n_tracks_per_seed two_final) 0 = Ok n /\
            count_seed 0 (links two_final) <= n.
Proof.
  assert (H1 : 0 <= max_num_branches_per_seed first_config) by (simpl; lia).
  assert (H2 : Z.of_nat (search_length two_stages) <= UINT_MAX)
    by (vm_compute; discriminate).
  assert (H3 : search surface updater first_config two_stages (search_start 1)
               = Ok two_final) by (vm_compute; reflexivity).
  split; [exact H1|]. split; [exact H2|]. split; [exact H3|].
  split; [reflexivity|]. split; [reflexivity|].
  destruct (branch_cap_respected surface updater first_config two_stages 1
              two_final H1 H2 H3) as [Hall _].
  apply (Hall 0). simpl. lia.
Defined.

(** ** C9 *)

Lemma branch_counter_increment_only_witness :
  exists (g' : global_mem) (t' : thread),
    thread_step surface updater race_launch 0 2 (glob race_contended)
                (block0 race_contended) (thread_of race_contended 2) =
      Ok (g', block0 race_contended, t') /\
    vat (n_tracks_per_seed g') 0 = Ok 5 /\
    links g' = links (glob race_contended) /\
    t_pc t' = PBarrier2 /\
    max_num_branches_per_seed (cfg race_launch) < 5.
Proof.
  destruct (branch_counter_increment_only surface updater race_launch)
    as (_ & Hres & _).
  destruct (Hres 0 2 (glob race_contended) (block0 race_contended)
              (thread_of race_contended 2)
              (pick_of race_launch 0 1 0 0 (updater 7 (mk_meas 7 2 2))) 4)
    as (g' & t' & Hstep & Hn & Hl & Hrej);
    [reflexivity | reflexivity | unfold UINT_MAX; lia |].
  exists g', t'. split; [exact Hstep|]. split; [exact Hn|]. split; [exact Hl|].
  apply Hrej. simpl. lia.
Defined.

(** ** C10 *)

Lemma saturated_slot_stops_enqueueing_witness :
  threads spent_at_check !! 0%nat = Some (thread_of spent_at_check 0) /\
  t_pc (thread_of spent_at_check 0) = PFillCheck /\
  curr_meas (thread_of spent_at_check 0) = 0 /\
  num_meas (thread_of spent_at_check 0) = 2 /\
  vat (n_tracks_per_seed (glob spent_at_check)) 0 = Ok 4 /\
  max_num_branches_per_seed (cfg race_launch) <= 4 /\
  forall sched s',
    exec race_launch (0%nat :: sched) spent_at_check = Ok s' ->
    exists t', threads s' !! 0%nat = Some t' /\ retired t' /\
               curr_meas t' = 2 /\ t_pc t' <> PFillPush.
Proof.
  assert (H1 : threads spent_at_check !! 0%nat = Some (thread_of spent_at_check 0))
    by reflexivity.
  assert (H2 : t_pc (thread_of spent_at_check 0) = PFillCheck) by reflexivity.
  assert (H3 : vat (blocks spent_at_check) (block_of race_launch 0) =
               Ok (block0 spent_at_check)) by reflexivity.
  assert (H5 : vat (n_tracks_per_seed (glob spent_at_check)) 0 = Ok 4) by reflexivity.
  assert (H6 : max_num_branches_per_seed (cfg race_launch) <= 4) by (simpl; lia).
  split; [exact H1|]. split; [exact H2|]. split; [reflexivity|].
  split; [reflexivity|]. split; [exact H5|]. split; [exact H6|].
  exact (proj2 (saturated_slot_stops_enqueueing surface updater race_launch 0%nat
                  spent_at_check (thread_of spent_at_check 0)
                  (block0 spent_at_check) 0 4 H1 H2 H3 eq_refl H5 H6)).
Defined.

(** ** C3 and C8 *)

Lemma backtrace_emits_chain_witness :
  wf_links false (vsize (bt_measurements middle_payload))
           (vsize (bt_seeds middle_payload)) (bt_links middle_payload) = true /\
  vat (bt_tips middle_payload) 0 = Ok 2 /\
  vat (bt_links middle_payload) 2 = Ok (mk_link 2 1 1 0 1 4) /\
  exists (tc' : track_candidate) vis,
    build_tracks m_dim false 0 middle_payload blank_track = Ok (tc', vis) /\
    NoDup vis /\
    items tc' = [mk_meas 7 2 3; mk_meas 9 1 4] /\
    Z.of_nat (length (items tc')) = 2 + 1 - 1.
Proof.
  assert (H1 : wf_links false (vsize (bt_measurements middle_payload))
                 (vsize (bt_seeds middle_payload)) (bt_links middle_payload) = true)
    by reflexivity.
  assert (H2 : vat (bt_tips middle_payload) 0 = Ok 2) by reflexivity.
  assert (H3 : vat (bt_links middle_payload) 2 = Ok (mk_link 2 1 1 0 1 4))
    by reflexivity.
  split; [exact H1|]. split; [exact H2|]. split; [exact H3|].
  destruct (backtrace_emits_chain m_dim false middle_payload 0 2 _ blank_track H1 H2 H3)
    as (tc' & vis & Hbt & Hnd & _ & Hit & _ & Hlen).
  exists tc', vis. split; [exact Hbt|]. split; [exact Hnd|].
  split; [exact Hit | exact Hlen].
Defined.

Lemma track_summary_witness :
  wf_links false (vsize (bt_measurements middle_payload))
           (vsize (bt_seeds middle_payload)) (bt_links middle_payload) = true /\
  vat (bt_tips middle_payload) 0 = Ok 2 /\
  vat (bt_links middle_payload) 2 = Ok (mk_link 2 1 1 0 1 4) /\
  0 < 2 + 1 - 1 /\
  exists (tc' : track_candidate) vis,
    build_tracks m_dim false 0 middle_payload blank_track = Ok (tc', vis) /\
    ndf (trk_quality tc') = s_sub (sum_dims m_dim (rev (items tc'))) s_five /\
    tq_chi2 (trk_quality tc') = 4 + 3 /\
    pval (trk_quality tc') = prob (tq_chi2 (trk_quality tc')) (ndf (trk_quality tc')) /\
    n_holes (trk_quality tc') = 0.
Proof.
  assert (H1 : wf_links false (vsize (bt_measurements middle_payload))
                 (vsize (bt_seeds middle_payload)) (bt_links middle_payload) = true)
    by reflexivity.
  assert (H2 : vat (bt_tips middle_payload) 0 = Ok 2) by reflexivity.
  assert (H3 : vat (bt_links middle_payload) 2 = Ok (mk_link 2 1 1 0 1 4))
    by reflexivity.
  assert (H4 : 0 < step (mk_link (scalar := Z) 2 1 1 0 1 4) + 1
                   - n_skipped (mk_link (scalar := Z) 2 1 1 0 1 4))
    by (simpl; lia).
  split; [exact H1|]. split; [exact H2|]. split; [exact H3|]. split; [lia|].
  destruct (track_summary m_dim false middle_payload 0 2 _ blank_track H1 H2 H3 H4)
    as (tc' & vis & il & Hbt & Hlast & Hndf & Hchi & Hp & Hh & _).
  exists tc', vis. split; [exact Hbt|]. split; [exact Hndf|].
  split; [rewrite Hchi; reflexivity|]. split; [exact Hp|].
  rewrite Hh. injection Hlast as <-. reflexivity.
Defined.

(** A search with two holes allowed and no minimal length ends, after three
    empty steps, with a tip whose chain has no measurement.  build_tracks
    fills no candidate for it and does not write the summary: the degrees of
    freedom stay what they were, 0 here, and are not the sum of no dimension
    minus 5. *)
Lemma track_summary_untouched_without_measurement :
  links (glob holes_after_2) =
    [mk_link 0 0 hole_idx 0 1 s_max; mk_link 1 0 hole_idx 0 2 s_max] /\
  tips (glob holes_after_2) = [1] /\
  wf_links false 0 1 (links (glob holes_after_2)) = true /\
  exists vis,
    build_tracks m_dim false 0 (assemble_payload [] [7] holes_after_2) blank_track
      = Ok (blank_track, vis) /\
    items blank_track = [] /\
    ndf (trk_quality blank_track) = 0 /\
    s_sub (sum_dims m_dim (rev (items blank_track))) s_five = -5.
Proof.
  split; [reflexivity|]. split; [reflexivity|]. split; [reflexivity|].
  exists [1]. repeat split; reflexivity.
Qed.

(** The search of the previous lemma, launch by launch. *)
Lemma two_holes_search :
  holes_after_0 = holes_step 0 0 0 (mk_global [] [0] [0] [] [0]) /\
  holes_after_1 = holes_step 1 0 1 (glob holes_after_0) /\
  holes_after_2 = holes_step 2 1 2 (glob holes_after_1) /\
  n_tracks_per_seed (glob holes_after_2) = [3] /\
  finished holes_after_0 = true /\ finished holes_after_1 = true /\
  finished holes_after_2 = true.
Proof. repeat split; vm_compute; reflexivity. Qed.

(** ** C5 *)

(** C5. One seed on surface 7, no measurement at step 0, one hole allowed,
    one step, no minimal length: the scenario of the specification.  Step 0
    is the last step and the candidate has no measurement, so the hole
    inserter increments the counter of the seed and goes to the recording
    of the tip, where [payload.step] is 0.  With the assertions checked the
    launch stops at the assertion of line 333, whatever it has done before:
    no tip and no link.  Without them the launch ends with the tip 0 while
    the link table is empty: the tip is the index of no link, and no link
    holds the hole count 1. *)
Theorem empty_first_step_stops_at_assertion :
  p_step empty_payload = 0 /\
  n_in_params empty_payload = 1 /\
  measurements_view empty_payload = [] /\
  max_num_skipping_per_cand empty_config = 1 /\
  max_track_candidates_per_track empty_config = 1 /\
  min_track_candidates_per_track empty_config = 0 /\
  last_step (empty_launch false) = true /\
  exec (empty_launch false) (replicate 8 0%nat) (empty_start false)
    = Fault AssertStep /\
  exec (empty_launch true) (replicate 8 0%nat) (empty_start true)
    = Ok empty_release_final /\
  finished empty_release_final = true /\
  tips (glob empty_release_final) = [0] /\
  links (glob empty_release_final) = [] /\
  links (glob empty_release_final) !! 0%nat = None /\
  n_tracks_per_seed (glob empty_release_final) = [1].
Proof. repeat split; vm_compute; reflexivity. Qed.

(** ** C6 *)

(** C6. No hole allowed, no minimal length, and step 0 is not the last
    step: the seed that finds no measurement at step 0 reaches the
    recording of the tip, line 334, with [payload.step] equal to 0.  The
    assertion of line 333 fails; without assertions the tip 0 is recorded
    while the link table is empty, so that a chain with no accepted link
    becomes a tip. *)
Theorem tip_site_reached_at_step_0 :
  max_num_skipping_per_cand strict_config = 0 /\
  min_track_candidates_per_track strict_config = 0 /\
  last_step (strict_launch false) = false /\
  exec (strict_launch false) (replicate 7 0%nat) (strict_start false) = Ok strict_at_emit /\
  exec (strict_launch true) (replicate 7 0%nat) (strict_start true) = Ok strict_at_emit /\
  t_pc (thread_of strict_at_emit 0) = PHoleEmit 0 0 /\
  p_step (payload (strict_launch false)) = 0 /\
  thread_step surface updater (strict_launch false) 0 0 (glob strict_at_emit)
              (block0 strict_at_emit) (thread_of strict_at_emit 0)
    = Fault AssertStep /\
  thread_step surface updater (strict_launch true) 0 0 (glob strict_at_emit)
              (block0 strict_at_emit) (thread_of strict_at_emit 0)
    = Ok (set_tips (glob strict_at_emit) [0], block0 strict_at_emit,
          goto (thread_of strict_at_emit 0) PDone) /\
  links (glob strict_at_emit) = [].
Proof. repeat split; vm_compute; reflexivity. Qed.

(** ** C7 *)

(** C7. The slot is on surface 3, which has no measurement; the table of
    barcodes holds surface 5 only, with its two measurements.
    [lower_bound] returns the position of surface 5, which is not the end
    of the table, and the range of the slot is the two measurements of
    surface 5. *)
Theorem range_of_absent_surface :
  lower_bound (barcodes_view absent_payload) 3 = 0 /\
  measurement_range surface absent_payload 0 = Ok (0, 2) /\
  List.filter (fun m => m_surface m =? 3) (measurements_view absent_payload) = [] /\
  m_surface <$> measurements_view absent_payload = [5; 5].
Proof. repeat split; reflexivity. Qed.

(** ** What a launch does to the vectors *)

Lemma start_regs_ok (L : launch) (junk : list shared_mem) (g : global_mem) :
  Forall (fun t : thread => regs_ok L (links g) (t_pc t)) (threads (start L junk g)).
Proof. apply Forall_forall. intros t [-> _]%elem_of_replicate. exact I. Qed.

Lemma launch_appends_only_witness :
  exec race_launch race_whole race_start = Ok race_final /\
  grown race_start race_final /\
  (forall i l, links (glob race_start) !! i = Some l ->
               links (glob race_final) !! i = Some l) /\
  (forall i x, tips (glob race_start) !! i = Some x ->
               tips (glob race_final) !! i = Some x).
Proof.
  assert (H1 : exec race_launch race_whole race_start = Ok race_final)
    by (vm_compute; reflexivity).
  split; [exact H1|].
  exact (launch_appends_only surface updater race_launch race_whole
           race_start race_final H1).
Defined.

Lemma appended_links_inherit_witness :
  exec race_launch race_whole race_start = Ok race_final /\
  Forall (fun t : thread => regs_ok race_launch (links (glob race_start)) (t_pc t))
         (threads race_start) /\
  links (glob race_final) !! 3%nat = Some (mk_link 1 0 1 0 0 2) /\
  (length (links (glob race_start)) <= 3)%nat /\
  appended_ok race_launch (links (glob race_final)) 3 (mk_link 1 0 1 0 0 2).
Proof.
  assert (H1 : exec race_launch race_whole race_start = Ok race_final)
    by (vm_compute; reflexivity).
  assert (H2 : Forall (fun t : thread =>
                         regs_ok race_launch (links (glob race_start)) (t_pc t))
                      (threads race_start))
    by (apply start_regs_ok).
  assert (H3 : links (glob race_final) !! 3%nat = Some (mk_link 1 0 1 0 0 2))
    by reflexivity.
  assert (H4 : (length (links (glob race_start)) <= 3)%nat) by (simpl; lia).
  split; [exact H1|]. split; [exact H2|]. split; [exact H3|]. split; [exact H4|].
  exact (appended_links_inherit surface updater race_launch race_whole
           race_start race_final H1 H2 3%nat _ H3 H4).
Defined.

Lemma recorded_tips_index_links_witness :
  exec closing_launch first_sched closing_start = Ok closing_final /\
  (p_step (payload closing_launch) <> 0 \/ ndebug closing_launch = false) /\
  tips (glob closing_final) !! 1%nat = Some 1 /\
  (length (tips (glob closing_start)) <= 1)%nat /\
  exists l : candidate_link, vat (links (glob closing_final)) 1 = Ok l.
Proof.
  assert (H1 : exec closing_launch first_sched closing_start = Ok closing_final)
    by (vm_compute; reflexivity).
  assert (H2 : p_step (payload closing_launch) <> 0 \/ ndebug closing_launch = false)
    by (right; reflexivity).
  assert (H3 : tips (glob closing_final) !! 1%nat = Some 1) by reflexivity.
  assert (H4 : (length (tips (glob closing_start)) <= 1)%nat) by (simpl; lia).
  split; [exact H1|]. split; [exact H2|]. split; [exact H3|]. split; [exact H4|].
  exact (recorded_tips_index_links surface updater closing_launch first_sched
           closing_start closing_final H1 H2 1%nat 1 H3 H4).
Defined.

Lemma last_step_closes_branches_witness :
  exec closing_launch first_sched closing_start = Ok closing_final /\
  last_step closing_launch = true /\
  Forall (fun t : thread =>
            regs_ok closing_launch (links (glob closing_start)) (t_pc t))
         (threads closing_start) /\
  (forall i (l : candidate_link),
     links (glob closing_final) !! i = Some l ->
     (length (links (glob closing_start)) <= i)%nat ->
     0 <= meas_idx l < vsize (measurements_view (payload closing_launch)) /\
     (min_track_candidates_per_track (cfg closing_launch)
        <= n_cands_of closing_launch l ->
      Z.of_nat i ∈ tips (glob closing_final))) /\
  (forall j v, out_params_liveness (glob closing_final) !! j = Some v ->
     out_params_liveness (glob closing_start) !! j = Some v \/ v = 0).
Proof.
  assert (H1 : exec closing_launch first_sched closing_start = Ok closing_final)
    by (vm_compute; reflexivity).
  assert (H2 : last_step closing_launch = true) by reflexivity.
  assert (H3 : Forall (fun t : thread =>
                         regs_ok closing_launch (links (glob closing_start)) (t_pc t))
                      (threads closing_start))
    by (apply start_regs_ok).
  split; [exact H1|]. split; [exact H2|]. split; [exact H3|].
  exact (last_step_closes_branches surface updater closing_launch first_sched
           closing_start closing_final H1 H2 H3).
Defined.

(** ** The shared buffer *)

Lemma buffer_never_overflows_witness :
  0 < blockDim blocks_launch /\
  2 * blockDim blocks_launch <= UINT_MAX /\
  exec blocks_launch blocks_sched (start blocks_launch [stale; stale] blocks_global)
    = Ok blocks_filling /\
  blocks blocks_filling !! 1%nat
    = Some (mk_shared 0 [0; 0] [(2, 7); (1, 8); (2, 8); (0, 0)]) /\
  t_pc (thread_of blocks_filling 3) = PFillPush /\
  exists sh' (t' : thread),
    thread_step surface updater blocks_launch (block_of blocks_launch 3)
                (local_of blocks_launch 3) (glob blocks_filling)
                (mk_shared 0 [0; 0] [(2, 7); (1, 8); (2, 8); (0, 0)])
                (thread_of blocks_filling 3)
      = Ok (glob blocks_filling, sh', t') /\
    shared_candidates_size sh' = 0 + 1 /\
    shared_candidates_size sh' < 2 * blockDim blocks_launch.
Proof.
  assert (H1 : 0 < blockDim blocks_launch) by (simpl; lia).
  assert (H2 : 2 * blockDim blocks_launch <= UINT_MAX) by (vm_compute; discriminate).
  assert (H3 : exec blocks_launch blocks_sched
                    (start blocks_launch [stale; stale] blocks_global)
               = Ok blocks_filling) by (vm_compute; reflexivity).
  assert (H4 : t_pc (thread_of blocks_filling 3) = PFillPush) by reflexivity.
  split; [exact H1|]. split; [exact H2|]. split; [exact H3|].
  split; [reflexivity|]. split; [exact H4|].
  exact (proj2 (proj2 (buffer_never_overflows surface updater blocks_launch
                         [stale; stale] blocks_global blocks_sched blocks_filling
                         H1 H2 H3))
               3%nat (thread_of blocks_filling 3)
               (mk_shared 0 [0; 0] [(2, 7); (1, 8); (2, 8); (0, 0)])
               eq_refl H4 eq_refl).
Defined.

(** ** Assembling a track twice *)

Lemma assembly_repeatable_witness :
  wf_links false (vsize (bt_measurements middle_payload))
           (vsize (bt_seeds middle_payload)) (bt_links middle_payload) = true /\
  vat (bt_tips middle_payload) 0 = Ok 2 /\
  vat (bt_links middle_payload) 2 = Ok (mk_link 2 1 1 0 1 4) /\
  0 < 2 + 1 - 1 /\
  exists (tc' : track_candidate) vis,
    build_tracks m_dim false 0 middle_payload blank_track = Ok (tc', vis) /\
    (exists vis', build_tracks m_dim false 0 middle_payload tc' = Ok (tc', vis')) /\
    (forall tc2 : track_candidate,
       exists vis2, build_tracks m_dim false 0 middle_payload tc2 = Ok (tc', vis2)).
Proof.
  assert (H1 : wf_links false (vsize (bt_measurements middle_payload))
                 (vsize (bt_seeds middle_payload)) (bt_links middle_payload) = true)
    by reflexivity.
  assert (H2 : vat (bt_tips middle_payload) 0 = Ok 2) by reflexivity.
  assert (H3 : vat (bt_links middle_payload) 2 = Ok (mk_link 2 1 1 0 1 4))
    by reflexivity.
  assert (H4 : 0 < 2 + 1 - 1) by lia.
  split; [exact H1|]. split; [exact H2|]. split; [exact H3|]. split; [exact H4|].
  destruct (assembly_repeatable m_dim false middle_payload 0 2 _ blank_track H1 H2 H3)
    as (tc' & vis & Hb & Hagain & Hany).
  exists tc', vis. split; [exact Hb|]. split; [exact Hagain|]. exact (Hany H4).
Defined.

Lemma assertions_do_not_fire_witness :
  wf_links false (vsize (bt_measurements middle_payload))
           (vsize (bt_seeds middle_payload)) (bt_links middle_payload) = true /\
  vat (bt_tips middle_payload) 0 = Ok 2 /\
  vat (bt_links middle_payload) 2 = Ok (mk_link 2 1 1 0 1 4) /\
  exists (tc' : track_candidate) v1 v2,
    build_tracks m_dim false 0 middle_payload blank_track = Ok (tc', v1) /\
    build_tracks m_dim true 0 middle_payload blank_track = Ok (tc', v2).
Proof.
  assert (H1 : wf_links false (vsize (bt_measurements middle_payload))
                 (vsize (bt_seeds middle_payload)) (bt_links middle_payload) = true)
    by reflexivity.
  assert (H2 : vat (bt_tips middle_payload) 0 = Ok 2) by reflexivity.
  assert (H3 : vat (bt_links middle_payload) 2 = Ok (mk_link 2 1 1 0 1 4))
    by reflexivity.
  split; [exact H1|]. split; [exact H2|]. split; [exact H3|].
  exact (assertions_do_not_fire m_dim middle_payload 0 2 _ blank_track H1 H2 H3).
Defined.

(** ** The range of measurements of a slot *)

Lemma race_barcodes_increasing : increasing (barcodes_view race_payload).
Proof.
  intros [|[|i]] [|[|j]] x y Hij Hi Hj; simpl in *;
    try discriminate; try lia.
  injection Hi as <-. injection Hj as <-. lia.
Qed.

Lemma range_of_listed_surface_witness :
  1 < n_in_params race_payload /\
  vat (in_params_liveness_view race_payload) 1 = Ok 1 /\
  vat (in_params_view race_payload) 1 = Ok 8 /\
  increasing (barcodes_view race_payload) /\
  barcodes_view race_payload !! 1%nat = Some (surface 8) /\
  upper_bounds_view race_payload !! 1%nat = Some 3 /\
  upper_bounds_view race_payload !! 0%nat = Some 2 /\
  measurement_range surface race_payload 1 = Ok (2, wrap (3 - 2)).
Proof.
  assert (H1 : 1 < n_in_params race_payload) by (simpl; lia).
  assert (H2 : vat (in_params_liveness_view race_payload) 1 = Ok 1) by reflexivity.
  assert (H3 : vat (in_params_view race_payload) 1 = Ok 8) by reflexivity.
  assert (H4 : barcodes_view race_payload !! 1%nat = Some (surface 8)) by reflexivity.
  assert (H5 : upper_bounds_view race_payload !! 1%nat = Some 3) by reflexivity.
  assert (H6 : upper_bounds_view race_payload !! 0%nat = Some 2) by reflexivity.
  split; [exact H1|]. split; [exact H2|]. split; [exact H3|].
  split; [exact race_barcodes_increasing|].
  split; [exact H4|]. split; [exact H5|]. split; [exact H6|].
  exact (range_of_listed_surface surface race_payload 1 1 8 1%nat 2 3
           H1 H2 ltac:(lia) H3 race_barcodes_increasing H4 H5 H6).
Defined.

Lemma range_of_idle_slot_witness :
  n_in_params race_payload <= 5 /\
  measurement_range surface race_payload 5 = Ok (0, 0).
Proof.
  assert (H1 : n_in_params race_payload <= 5) by (simpl; lia).
  split; [exact H1|].
  exact (proj1 (range_of_idle_slot surface race_payload 5) H1).
Defined.

(** ** The table after a launch *)

Lemma race_threshold (c : Z) :
  s_ltb c (chi2_max (cfg race_launch)) = true -> s_ltb c s_max = true.
Proof. simpl. rewrite !Z.ltb_lt. lia. Qed.

Lemma race_previous_step : previous_step_links race_launch (links race_global).
Proof.
  intros _. simpl. split; [lia|]. split; [unfold vsize; simpl; lia|].
  intros [|[|i]] p Hp _; simpl in Hp; try discriminate;
    injection Hp as <-; reflexivity.
Qed.

Lemma search_keeps_table_well_formed_witness :
  0 < blockDim race_launch /\
  2 * blockDim race_launch <= UINT_MAX /\
  exec race_launch race_whole (start race_launch [stale] race_global) = Ok race_final /\
  0 <= p_step (payload race_launch) < UINT_MAX /\
  vsize (links race_global) <= UINT_MAX /\
  previous_step_links race_launch (links race_global) /\
  wf_links false 3 1 (links race_global) = true /\
  wf_links false 3 1 (links (glob race_final)) = true.
Proof.
  assert (H1 : 0 < blockDim race_launch) by (simpl; lia).
  assert (H2 : 2 * blockDim race_launch <= UINT_MAX) by (vm_compute; discriminate).
  assert (H3 : exec race_launch race_whole (start race_launch [stale] race_global)
               = Ok race_final) by (vm_compute; reflexivity).
  assert (H4 : 0 <= p_step (payload race_launch) < UINT_MAX)
    by (unfold UINT_MAX; simpl; lia).
  assert (H5 : vsize (links race_global) <= UINT_MAX) by (vm_compute; discriminate).
  assert (H6 : wf_links false 3 1 (links race_global) = true) by reflexivity.
  split; [exact H1|]. split; [exact H2|]. split; [exact H3|]. split; [exact H4|].
  split; [exact H5|]. split; [exact race_previous_step|]. split; [exact H6|].
  exact (search_keeps_table_well_formed surface updater race_launch [stale] race_global
           race_whole race_final H1 H2 H3 H4 H5 race_threshold
           race_previous_step H6).
Defined.

Lemma closing_threshold (c : Z) :
  s_ltb c (chi2_max (cfg closing_launch)) = true -> s_ltb c s_max = true.
Proof. simpl. rewrite !Z.ltb_lt. lia. Qed.

Lemma closing_previous_step :
  previous_step_links closing_launch (links closing_global).
Proof. intros Hne. simpl in Hne. contradiction. Qed.

Lemma recorded_tips_assemble_witness :
  0 < blockDim closing_launch /\
  2 * blockDim closing_launch <= UINT_MAX /\
  exec closing_launch first_sched (start closing_launch [stale] closing_global)
    = Ok closing_final /\
  0 <= p_step (payload closing_launch) < UINT_MAX /\
  vsize (links closing_global) <= UINT_MAX /\
  wf_links false 3 1 (links closing_global) = true /\
  vat (tips (glob closing_final)) 1 = Ok 1 /\
  vsize (tips closing_global) <= 1 /\
  exists (l : candidate_link) (tc' : track_candidate) vis,
    vat (links (glob closing_final)) 1 = Ok l /\
    build_tracks m_dim false 1
      (mk_build_payload (measurements_view first_payload) [7]
                        (links (glob closing_final)) (tips (glob closing_final)))
      blank_track = Ok (tc', vis) /\
    NoDup vis /\
    Z.of_nat (length (items tc')) = step l + 1 - n_skipped l.
Proof.
  assert (H1 : 0 < blockDim closing_launch) by (simpl; lia).
  assert (H2 : 2 * blockDim closing_launch <= UINT_MAX)
    by (vm_compute; discriminate).
  assert (H3 : exec closing_launch first_sched
                    (start closing_launch [stale] closing_global)
               = Ok closing_final) by (vm_compute; reflexivity).
  assert (H4 : 0 <= p_step (payload closing_launch) < UINT_MAX)
    by (unfold UINT_MAX; simpl; lia).
  assert (H5 : vsize (links closing_global) <= UINT_MAX)
    by (vm_compute; discriminate).
  assert (H6 : wf_links false 3 1 (links closing_global) = true) by reflexivity.
  assert (H7 : vat (tips (glob closing_final)) 1 = Ok 1) by reflexivity.
  assert (H8 : vsize (tips closing_global) <= 1) by (vm_compute; discriminate).
  split; [exact H1|]. split; [exact H2|]. split; [exact H3|]. split; [exact H4|].
  split; [exact H5|]. split; [exact H6|]. split; [exact H7|]. split; [exact H8|].
  exact (recorded_tips_assemble surface m_dim updater closing_launch [stale] closing_global
           first_sched closing_final [7] 1 1 blank_track H1 H2 H3 H4 H5
           closing_threshold closing_previous_step H6 eq_refl
           (or_intror eq_refl) H7 H8).
Defined.

End Instances.
